(** * HTA builder service: the structure validator

    A shallow embedding of [ValidationService] (the class that follows
    [AIService] in [src/services/aiService.ts]) together with the node and
    result types of [src/types/index.ts], and the properties of the
    validator that the specification states.

    Conventions of the embedding.
    - A JavaScript [number] is [NaN], one of the two infinities, or a
      rational; sums, products and quotients are rounded to the nearest
      binary64 number, ties to even, and overflow to an infinity, as the
      language does.  The sign of zero is not represented.  Counts of nodes
      and issues stay below 2^53, where integer arithmetic is exact.
      [estimatedHours] of a node is the rational value of the number that
      was parsed.
    - A string is a [string] of code units below 256; [trim] removes the
      white-space code units among them.
    - An absent [children] or [dependencies] array is the empty list: every
      read in the class guards with [node.children && ...] or
      [!node.children || ...], under which the two behave alike.
    - [metadata] is never read by the class and is left out.
    - Arrays and counters that the class mutates are threaded as explicit
      state: a pass takes the issue list collected so far and returns the
      extended list; [traverseNodes] folds a callback over the forest.
    - [logger] is the only object outside the call that [validateHTA]
      touches; it is a write-only list of log lines.

    Beside the validator the file embeds what surrounds it in the service:
    the validate endpoint of [HTAController], [assignIdsRecursively] of
    [AIService], and of [TemplateService] the cleaning of a structure for
    a template and the two queries that are assembled at run time.
    - The clock and the random generator are functions of the number of the
      call, so that a run is a function of what they return.
    - A query is the list of its text pieces and placeholders, next to the
      list of its parameters; the database is not modelled. *)

From Stdlib Require Import ZArith QArith Qround Qminmax Qpower Qabs Lqa String Ascii List
  DecimalString DecimalNat Lia.
From stdpp Require Import gmap strings list.

#[local] Set Warnings "-clear-no-such-hyp".

Local Open Scope string_scope.
Local Open Scope list_scope.

(** ** JavaScript numbers *)

Module Num.

Inductive number : Type :=
| NaN
| PosInf
| NegInf
| Fin (q : Q).

Definition ofZ (z : Z) : number := Fin (inject_Z z).
Definition ofNat (n : nat) : number := ofZ (Z.of_nat n).

Definition Qltb (x y : Q) : bool := negb (Qle_bool y x).

(** The sign of a rational is that of its numerator. *)
Definition Qsgn (q : Q) : Z := Z.sgn (Qnum q).

Definition neg (x : number) : number :=
  match x with
  | NaN => NaN
  | PosInf => NegInf
  | NegInf => PosInf
  | Fin q => Fin (- q)
  end.

(** *** Rounding to binary64

    [double q] is the binary64 number nearest to the rational [q]: 53
    significant bits, the unit in the last place never below [2^-1074],
    ties to the even significand, and an infinity from [2^1024] on. *)
Definition pow2 (e : Z) : Q := (2 ^ e)%Q.

(** The integer [l] with [2^l <= q < 2^(l+1)], for [q > 0]. *)
Definition Qlog2 (q : Q) : Z :=
  let l := (Z.log2 (Qnum q) - Z.log2 (Zpos (Qden q)))%Z in
  if Qle_bool (pow2 l) q then l else (l - 1)%Z.

(** The nearest integer, ties to the even one. *)
Definition roundEven (q : Q) : Z :=
  let f := Qfloor q in
  match Qcompare (q - inject_Z f) (1 # 2) with
  | Lt => f
  | Gt => (f + 1)%Z
  | Eq => if Z.even f then f else (f + 1)%Z
  end.

(** The exponent of the unit in the last place of [q > 0]. *)
Definition ulpExp (q : Q) : Z := Z.max (-1074) (Qlog2 q - 52).

Definition nearest (q : Q) : Q :=
  (inject_Z (roundEven (q / pow2 (ulpExp q))) * pow2 (ulpExp q))%Q.

Definition doublePos (q : Q) : number :=
  let r := nearest q in
  if Qle_bool (pow2 1024) r then PosInf else Fin r.

Definition double (q : Q) : number :=
  match Qcompare q 0 with
  | Eq => Fin 0
  | Gt => doublePos q
  | Lt => neg (doublePos (- q))
  end.

(** [x + y] *)
Definition add (x y : number) : number :=
  match x, y with
  | NaN, _ | _, NaN => NaN
  | PosInf, NegInf | NegInf, PosInf => NaN
  | PosInf, _ | _, PosInf => PosInf
  | NegInf, _ | _, NegInf => NegInf
  | Fin a, Fin b => double (a + b)
  end.

Definition sub (x y : number) : number := add x (neg y).

Definition inf_of_sign (s : Z) : number :=
  match s with
  | Z0 => NaN
  | Zpos _ => PosInf
  | Zneg _ => NegInf
  end.

Definition sign (x : number) : Z :=
  match x with
  | NaN => 0
  | PosInf => 1
  | NegInf => -1
  | Fin q => Qsgn q
  end.

(** [x * y] *)
Definition mul (x y : number) : number :=
  match x, y with
  | NaN, _ | _, NaN => NaN
  | Fin a, Fin b => double (a * b)
  | _, _ => inf_of_sign (sign x * sign y)
  end.

(** [x / y]; a finite non-zero number over zero is an infinity, zero over
    zero is [NaN]. *)
Definition div (x y : number) : number :=
  match x, y with
  | NaN, _ | _, NaN => NaN
  | Fin a, Fin b =>
      if Qeq_bool b 0 then inf_of_sign (Qsgn a) else double (a / b)
  | Fin _, _ => Fin 0
  | _, Fin b =>
      if Qeq_bool b 0 then x else inf_of_sign (sign x * Qsgn b)
  | _, _ => NaN
  end.

(** [x < y]; false as soon as one side is [NaN]. *)
Definition ltb (x y : number) : bool :=
  match x, y with
  | NaN, _ | _, NaN => false
  | Fin a, Fin b => Qltb a b
  | NegInf, NegInf => false
  | NegInf, _ => true
  | _, PosInf => match x with PosInf => false | _ => true end
  | _, _ => false
  end.

Definition gtb (x y : number) : bool := ltb y x.

(** [Math.round]: the nearest integer, ties towards plus infinity. *)
Definition Qround (q : Q) : Z := Qfloor (q + (1 # 2)).

Definition round (x : number) : number :=
  match x with
  | Fin q => ofZ (Qround q)
  | _ => x
  end.

(** [Math.min(x, y)] and [Math.max(x, y)]: [NaN] if either argument is. *)
Definition min (x y : number) : number :=
  match x, y with
  | NaN, _ | _, NaN => NaN
  | _, _ => if ltb y x then y else x
  end.

Definition max (x y : number) : number :=
  match x, y with
  | NaN, _ | _, NaN => NaN
  | _, _ => if ltb x y then y else x
  end.

(** [x <= y] as a proposition: [NaN] compares with nothing. *)
Definition leq (x y : number) : Prop :=
  match x, y with
  | NaN, _ | _, NaN => False
  | NegInf, _ => True
  | _, PosInf => True
  | Fin a, Fin b => (a <= b)%Q
  | _, _ => False
  end.

(** The same value: two rationals that are equal as fractions. *)
Definition same (x y : number) : Prop :=
  match x, y with
  | Fin a, Fin b => (a == b)%Q
  | _, _ => x = y
  end.

(** [0 <= x <= 100] as a proposition on numbers: only a finite number
    compares. *)
Definition between (lo hi : Z) (x : number) : Prop :=
  match x with
  | Fin q => (inject_Z lo <= q)%Q /\ (q <= inject_Z hi)%Q
  | _ => False
  end.

End Num.

Import Num.

(** ** Strings *)

(** White space that [String.prototype.trim] removes, among the code units
    below 256: TAB, LF, VT, FF, CR, SPACE and NBSP. *)
Definition isWhiteSpace (c : ascii) : bool :=
  let n := nat_of_ascii c in
  (((9 <=? n) && (n <=? 13)) || (n =? 32) || (n =? 160))%nat.

Fixpoint trimStart (s : string) : string :=
  match s with
  | EmptyString => EmptyString
  | String c rest => if isWhiteSpace c then trimStart rest else s
  end.

Definition trimEnd (s : string) : string := String.rev (trimStart (String.rev s)).

Definition trim (s : string) : string := trimEnd (trimStart s).

(** [s.substring(0, n)] *)
Definition substring0 (n : nat) (s : string) : string := String.substring 0 n s.

(** A non-negative integer as [`${n}`] prints it. *)
Definition showNat (n : nat) : string := NilZero.string_of_uint (Nat.to_uint n).

(** [list.includes(x)] and [list.indexOf(x)] on arrays of strings. *)
Definition includes (l : list string) (x : string) : bool :=
  existsb (String.eqb x) l.

Fixpoint indexOf_from (i : Z) (l : list string) (x : string) : Z :=
  match l with
  | [] => -1
  | y :: rest => if String.eqb y x then i else indexOf_from (i + 1) rest x
  end.

Definition indexOf (l : list string) (x : string) : Z := indexOf_from 0 l x.

(** ** Data model ([src/types/index.ts]) *)

Local Unset Elimination Schemes.

Inductive HTANode : Type := mkHTANode {
  id : string;
  type : string;
  title : string;
  description : option string;
  priority : string;
  estimatedHours : option Q;
  dependencies : list string;
  children : list HTANode
}.

Local Set Elimination Schemes.

(** A template literal: its text, with the numbers interpolated into it kept
    as numbers. *)
Inductive Frag : Type :=
| Lit (s : string)
| Val (n : number).

Module Issue.

Inductive IssueType : Type := error | warning | suggestion.
Inductive Severity : Type := low | medium | high.

Record ValidationIssue : Type := mkIssue {
  type : IssueType;
  code : string;
  message : list Frag;
  nodeId : option string;
  severity : Severity;
  autoFixable : bool
}.

Definition isError (i : ValidationIssue) : bool :=
  match type i with error => true | _ => false end.

Definition isWarning (i : ValidationIssue) : bool :=
  match type i with warning => true | _ => false end.

End Issue.

Import Issue(ValidationIssue, mkIssue, error, warning, suggestion, low, medium, high).

Record Metrics : Type := mkMetrics {
  depth : number;
  breadth : number;
  complexity : number;
  completeness : number;
  feasibility : number
}.

Record HTAValidationResult : Type := mkResult {
  isValid : bool;
  issues : list ValidationIssue;
  suggestions : list string;
  score : number;
  metrics : Metrics
}.

(** What a statement can throw at [validateHTA]. *)
Inductive Exception : Type := TypeError.

(** What [logger.debug] and [logger.error] are handed. *)
Inductive LogEntry : Type :=
| LogDebug (msg : string) (isValid : bool) (errorCount warningCount : nat) (score : number)
| LogError (msg : string) (error : Exception).

Definition Logger : Type := list LogEntry.

(** ** Iteration *)

Section Iteration.
Context {A St : Type}.

(** [l.forEach(x => f(x))], the state written by [f] made explicit. *)
Definition forEach (f : A -> St -> St) (l : list A) (s : St) : St :=
  fold_left (fun s x => f x s) l s.

Section Indexed.
Variable f : A -> nat -> St -> St.

Fixpoint forEachIndexed_from (index : nat) (l : list A) (s : St) : St :=
  match l with
  | [] => s
  | x :: rest => forEachIndexed_from (S index) rest (f x index s)
  end.
End Indexed.

(** [l.forEach((x, index) => f(x, index))] *)
Definition forEachIndexed (f : A -> nat -> St -> St) (l : list A) (s : St) : St :=
  forEachIndexed_from f 0 l s.
End Iteration.

Section FirstSome.
Context {A B : Type}.
Variable f : A -> option B.

(** [for (const x of l) { const r = f(x); if (r) return r }; return null] *)
Fixpoint firstSome (l : list A) : option B :=
  match l with
  | [] => None
  | x :: rest =>
      match f x with
      | Some r => Some r
      | None => firstSome rest
      end
  end.
End FirstSome.

(** [traverseNodes]: the callback on a node, then on its children, in
    sibling order. *)
Fixpoint traverseNodes_children {St : Type} (callback : HTANode -> St -> St)
    (node : HTANode) (s : St) : St :=
  forEach (fun child s => traverseNodes_children callback child (callback child s))
    (children node) s.

(** The body of the [forEach] of [traverseNodes]. *)
Definition traverseNodes_visit {St : Type} (callback : HTANode -> St -> St)
    (node : HTANode) (s : St) : St :=
  traverseNodes_children callback node (callback node s).

Definition traverseNodes {St : Type} (nodes : list HTANode)
    (callback : HTANode -> St -> St) (s : St) : St :=
  forEach (traverseNodes_visit callback) nodes s.

(** ** Helpers of [ValidationService] *)

(** [node.estimatedHours] read as a condition: defined and not zero. *)
Definition truthyHours (h : option Q) : bool :=
  match h with
  | Some q => negb (Qeq_bool q 0)
  | None => false
  end.

(** [node.estimatedHours || 0] *)
Definition hoursOrZero (h : option Q) : Q :=
  match h with
  | Some q => if Qeq_bool q 0 then 0%Q else q
  | None => 0%Q
  end.

(** [!node.children || node.children.length === 0] *)
Definition isLeaf (node : HTANode) : bool := (length (children node) =? 0)%nat.

(** [!s || s.trim() === ''] for a string that is present. *)
Definition blank (s : string) : bool := String.eqb s "" || String.eqb (trim s) "".

(** The same test on [node.description], which may be undefined. *)
Definition blankDescription (d : option string) : bool :=
  match d with
  | Some s => blank s
  | None => true
  end.

(** In the three functions below [rec node] stands for the recursive call on
    [node.children], and [.._visit] is the body of the [forEach]. *)
Definition countNodes_visit (rec : HTANode -> nat) (node : HTANode) (count : nat) : nat :=
  (count + rec node)%nat.

Definition countNodes_with (rec : HTANode -> nat) (nodes : list HTANode) : nat :=
  forEach (countNodes_visit rec) nodes (length nodes).

Fixpoint countNodes_children (node : HTANode) : nat :=
  countNodes_with countNodes_children (children node).

Definition countNodes (nodes : list HTANode) : nat :=
  countNodes_with countNodes_children nodes.

Definition calculateMaxDepth_visit (rec : HTANode -> nat -> nat) (currentDepth : nat)
    (node : HTANode) (maxDepth : nat) : nat :=
  if (0 <? length (children node))%nat
  then Nat.max maxDepth (rec node (currentDepth + 1)%nat)
  else maxDepth.

Definition calculateMaxDepth_with (rec : HTANode -> nat -> nat)
    (nodes : list HTANode) (currentDepth : nat) : nat :=
  forEach (calculateMaxDepth_visit rec currentDepth) nodes currentDepth.

Fixpoint calculateMaxDepth_children (node : HTANode) (currentDepth : nat) : nat :=
  calculateMaxDepth_with calculateMaxDepth_children (children node) currentDepth.

Definition calculateMaxDepth (nodes : list HTANode) (currentDepth : nat) : nat :=
  calculateMaxDepth_with calculateMaxDepth_children nodes currentDepth.

Definition calculateMaxBreadth_visit (rec : HTANode -> nat) (node : HTANode)
    (maxBreadth : nat) : nat :=
  if (0 <? length (children node))%nat
  then Nat.max maxBreadth (rec node)
  else maxBreadth.

Definition calculateMaxBreadth_with (rec : HTANode -> nat) (nodes : list HTANode) : nat :=
  forEach (calculateMaxBreadth_visit rec) nodes (length nodes).

Fixpoint calculateMaxBreadth_children (node : HTANode) : nat :=
  calculateMaxBreadth_with calculateMaxBreadth_children (children node).

Definition calculateMaxBreadth (nodes : list HTANode) : nat :=
  calculateMaxBreadth_with calculateMaxBreadth_children nodes.

Definition findNodeById_with (rec : HTANode -> string -> option HTANode)
    (nodes : list HTANode) (i : string) : option HTANode :=
  firstSome (fun node => if String.eqb (id node) i then Some node else rec node i) nodes.

Fixpoint findNodeById_children (node : HTANode) (i : string) : option HTANode :=
  findNodeById_with findNodeById_children (children node) i.

Definition findNodeById (nodes : list HTANode) (i : string) : option HTANode :=
  findNodeById_with findNodeById_children nodes i.

(** The property tests of [countNodesWithProperty]:
    [node[property] !== undefined && node[property] !== null && node[property] !== ''],
    at the two properties the class passes. *)
Definition hasEstimatedHours (node : HTANode) : bool :=
  match estimatedHours node with Some _ => true | None => false end.

Definition hasDescription (node : HTANode) : bool :=
  match description node with
  | Some s => negb (String.eqb s "")
  | None => false
  end.

Definition countNodesWithProperty_visit (property : HTANode -> bool) (node : HTANode)
    (count : nat) : nat :=
  if property node then S count else count.

Definition countNodesWithProperty (nodes : list HTANode) (property : HTANode -> bool) : nat :=
  traverseNodes nodes (countNodesWithProperty_visit property) 0%nat.

Definition calculateTotalEstimate_visit (node : HTANode) (total : number) : number :=
  match estimatedHours node with
  | Some q => if negb (Qeq_bool q 0) && isLeaf node then add total (Fin q) else total
  | None => total
  end.

Definition calculateTotalEstimate (nodes : list HTANode) : number :=
  traverseNodes nodes calculateTotalEstimate_visit (ofZ 0).

Section DependencyLoop.
Variable allNodes : list HTANode.
(** The recursive call of [hasCircularDependency] on a dependency that
    was found; [None] when it did not return. *)
Variable visit : HTANode -> option bool.

(** [for (const depId of node.dependencies) { ... return true } return false] *)
Fixpoint dependencyLoop (deps : list string) : option bool :=
  match deps with
  | [] => Some false
  | depId :: rest =>
      match findNodeById allNodes depId with
      | Some depNode =>
          match visit depNode with
          | Some true => Some true
          | Some false => dependencyLoop rest
          | None => None
          end
      | None => dependencyLoop rest
      end
  end.
End DependencyLoop.

(** [hasCircularDependency].  The recursion follows dependency ids through
    [findNodeById], so it is not structural; [fuel] bounds the depth of the
    calls and [None] means the bound was reached.  [visited] is copied at
    every call ([new Set(visited)]), so a set value passed down models it. *)
Fixpoint hasCircularDependency_fuel (fuel : nat) (node : HTANode)
    (allNodes : list HTANode) (visited : gset string) : option bool :=
  match fuel with
  | O => None
  | S fuel' =>
      if decide (id node ∈ visited) then Some true
      else
        let visited := {[id node]} ∪ visited in
        dependencyLoop allNodes
          (fun depNode => hasCircularDependency_fuel fuel' depNode allNodes visited)
          (dependencies node)
  end.

(** Every call chain adds a new id of the forest to [visited], except that
    the first node may lie outside the forest: two more levels than there
    are nodes are enough (see [hasCircularDependency_fuel_enough]). *)
Definition hasCircularDependency (node : HTANode) (allNodes : list HTANode) : bool :=
  match hasCircularDependency_fuel (2 + countNodes allNodes) node allNodes ∅ with
  | Some b => b
  | None => false
  end.

(** ** The six passes *)

(** The double-quote character of the messages. *)
Definition dq : string := String (ascii_of_nat 34) EmptyString.

(** [`"${s}"`] *)
Definition quoted (s : string) : list Frag := [Lit dq; Lit s; Lit dq].

Definition push (issues : list ValidationIssue) (i : ValidationIssue) : list ValidationIssue :=
  issues ++ [i].

Definition typeHierarchy : list string :=
  ["objective"; "strategy"; "initiative"; "task"; "subtask"].

Definition isTaskOrSubtask (node : HTANode) : bool :=
  includes ["task"; "subtask"] (type node).

Definition invalidNodeTypeIssue (node : HTANode) : ValidationIssue :=
  mkIssue error "INVALID_NODE_TYPE"
    ([Lit "Invalid node type "] ++ quoted (type node) ++ [Lit " for node "]
       ++ quoted (title node))
    (Some (id node)) high true.

Definition invalidHierarchyIssue (node child : HTANode) : ValidationIssue :=
  mkIssue error "INVALID_HIERARCHY"
    ([Lit "Child node "] ++ quoted (title child) ++ [Lit " has type "]
       ++ quoted (type child) ++ [Lit " which should not be under "]
       ++ quoted (type node))
    (Some (id child)) high true.

Definition validateNodeTypeHierarchy (node : HTANode) (siblings : list HTANode)
    (issues : list ValidationIssue) (path : string) : list ValidationIssue :=
  let currentTypeIndex := indexOf typeHierarchy (type node) in
  if (currentTypeIndex =? -1)%Z then push issues (invalidNodeTypeIssue node)
  else
    forEach
      (fun child issues =>
         let childTypeIndex := indexOf typeHierarchy (type child) in
         if negb (childTypeIndex =? -1)%Z && (childTypeIndex <=? currentTypeIndex)%Z
         then push issues (invalidHierarchyIssue node child)
         else issues)
      (children node) issues.

Definition excessiveDepthIssue (path : string) : ValidationIssue :=
  mkIssue warning "EXCESSIVE_DEPTH"
    [Lit "Hierarchy depth exceeds recommended maximum (6 levels) at path: "; Lit path]
    None medium false.

Definition tooManyChildrenIssue (node : HTANode) : ValidationIssue :=
  mkIssue warning "TOO_MANY_CHILDREN"
    ([Lit "Node "] ++ quoted (title node)
       ++ [Lit " has "; Lit (showNat (length (children node)));
           Lit " children. Consider grouping some tasks."])
    (Some (id node)) medium false.

(** The body of the [forEach] of [validateHierarchy]; [rec node] stands for
    the recursive call on [node.children]. *)
Definition validateHierarchy_visit
    (rec : HTANode -> list ValidationIssue -> nat -> string -> list ValidationIssue)
    (nodes : list HTANode) (depth : nat) (path : string)
    (node : HTANode) (index : nat) (issues : list ValidationIssue) : list ValidationIssue :=
  let currentPath :=
    if String.eqb path "" then showNat index
    else path +:+ "." +:+ showNat index in
  let issues := validateNodeTypeHierarchy node nodes issues currentPath in
  let issues :=
    if (8 <? length (children node))%nat
    then push issues (tooManyChildrenIssue node)
    else issues in
  if (0 <? length (children node))%nat
  then rec node issues (depth + 1)%nat currentPath
  else issues.

Definition validateHierarchy_with
    (rec : HTANode -> list ValidationIssue -> nat -> string -> list ValidationIssue)
    (nodes : list HTANode) (issues : list ValidationIssue) (depth : nat) (path : string)
    : list ValidationIssue :=
  let issues :=
    if (6 <? depth)%nat then push issues (excessiveDepthIssue path) else issues in
  forEachIndexed (validateHierarchy_visit rec nodes depth path) nodes issues.

Fixpoint validateHierarchy_children (node : HTANode) (issues : list ValidationIssue)
    (depth : nat) (path : string) : list ValidationIssue :=
  validateHierarchy_with validateHierarchy_children (children node) issues depth path.

Definition validateHierarchy (nodes : list HTANode) (issues : list ValidationIssue)
    (depth : nat) (path : string) : list ValidationIssue :=
  validateHierarchy_with validateHierarchy_children nodes issues depth path.

Definition validPriorities : list string := ["low"; "medium"; "high"; "critical"].

Definition validateNodeProperties_node (node : HTANode) (issues : list ValidationIssue)
    : list ValidationIssue :=
  let issues :=
    if blank (id node) then
      push issues
        (mkIssue error "MISSING_ID"
           ([Lit "Node "] ++ quoted (title node) ++ [Lit " is missing a valid ID"])
           (Some (id node)) high true)
    else issues in
  let issues :=
    if blank (title node) then
      push issues
        (mkIssue error "MISSING_TITLE"
           ([Lit "Node with ID "] ++ quoted (id node) ++ [Lit " is missing a title"])
           (Some (id node)) high false)
    else issues in
  let issues :=
    if negb (String.eqb (title node) "") && (100 <? String.length (title node))%nat then
      push issues
        (mkIssue warning "LONG_TITLE"
           [Lit "Title for "; Lit dq; Lit (substring0 50 (title node)); Lit "..."; Lit dq;
            Lit " is too long ("; Lit (showNat (String.length (title node)));
            Lit " chars). Consider shortening."]
           (Some (id node)) low false)
    else issues in
  let issues :=
    if negb (String.eqb (title node) "") && (String.length (title node) <? 5)%nat then
      push issues
        (mkIssue warning "SHORT_TITLE"
           ([Lit "Title "] ++ quoted (title node)
              ++ [Lit " is very short. Consider being more descriptive."])
           (Some (id node)) low false)
    else issues in
  let issues :=
    if negb (includes validPriorities (priority node)) then
      push issues
        (mkIssue error "INVALID_PRIORITY"
           ([Lit "Node "] ++ quoted (title node) ++ [Lit " has invalid priority "]
              ++ quoted (priority node))
           (Some (id node)) medium true)
    else issues in
  if blankDescription (description node) then
    if isTaskOrSubtask node then
      push issues
        (mkIssue warning "MISSING_DESCRIPTION"
           ([Lit (type node); Lit " "] ++ quoted (title node)
              ++ [Lit " should have a description for clarity"])
           (Some (id node)) medium false)
    else issues
  else issues.

Definition validateNodeProperties (nodes : list HTANode) (issues : list ValidationIssue)
    : list ValidationIssue :=
  traverseNodes nodes validateNodeProperties_node issues.

Definition invalidDependencyIssue (node : HTANode) (depId : string) : ValidationIssue :=
  mkIssue error "INVALID_DEPENDENCY"
    ([Lit "Node "] ++ quoted (title node)
       ++ [Lit " has dependency on non-existent node "] ++ quoted depId)
    (Some (id node)) high true.

Definition circularDependencyIssue (node : HTANode) : ValidationIssue :=
  mkIssue error "CIRCULAR_DEPENDENCY"
    ([Lit "Node "] ++ quoted (title node) ++ [Lit " has circular dependency"])
    (Some (id node)) high false.

(** [allNodeIds], the [Set] filled by the first traversal. *)
Definition collectNodeIds (nodes : list HTANode) : gset string :=
  traverseNodes nodes (fun node (allNodeIds : gset string) => {[id node]} ∪ allNodeIds) ∅.

Definition validateDependencies_node (nodes : list HTANode) (allNodeIds : gset string)
    (node : HTANode) (issues : list ValidationIssue) : list ValidationIssue :=
  if (0 <? length (dependencies node))%nat then
    let issues :=
      forEach
        (fun depId issues =>
           if decide (depId ∈ allNodeIds) then issues
           else push issues (invalidDependencyIssue node depId))
        (dependencies node) issues in
    if hasCircularDependency node nodes
    then push issues (circularDependencyIssue node)
    else issues
  else issues.

Definition validateDependencies (nodes : list HTANode) (issues : list ValidationIssue)
    : list ValidationIssue :=
  let allNodeIds := collectNodeIds nodes in
  traverseNodes nodes (validateDependencies_node nodes allNodeIds) issues.

Definition validateEstimates_node (node : HTANode) (issues : list ValidationIssue)
    : list ValidationIssue :=
  match estimatedHours node with
  | Some hours =>
      let issues :=
        if Qltb hours 0 then
          push issues
            (mkIssue error "NEGATIVE_ESTIMATE"
               ([Lit "Node "] ++ quoted (title node) ++ [Lit " has negative time estimate"])
               (Some (id node)) medium true)
        else issues in
      let issues :=
        if Qltb 1000 hours then
          push issues
            (mkIssue warning "LARGE_ESTIMATE"
               ([Lit "Node "] ++ quoted (title node)
                  ++ [Lit " has very large time estimate ("; Val (Fin hours);
                      Lit " hours). Consider breaking down."])
               (Some (id node)) medium false)
        else issues in
      if isTaskOrSubtask node && isLeaf node then
        let issues :=
          if Qeq_bool hours 0 then
            push issues
              (mkIssue warning "ZERO_ESTIMATE"
                 ([Lit (type node); Lit " "] ++ quoted (title node)
                    ++ [Lit " has zero time estimate"])
                 (Some (id node)) medium false)
          else issues in
        if Qltb 40 hours then
          push issues
            (mkIssue warning "LONG_TASK"
               ([Lit (type node); Lit " "] ++ quoted (title node)
                  ++ [Lit " has estimate > 40 hours. Consider breaking down."])
               (Some (id node)) medium false)
        else issues
      else issues
  | None =>
      if isTaskOrSubtask node then
        push issues
          (mkIssue warning "MISSING_ESTIMATE"
             ([Lit (type node); Lit " "] ++ quoted (title node)
                ++ [Lit " is missing time estimate"])
             (Some (id node)) medium false)
      else issues
  end.

Definition validateEstimates (nodes : list HTANode) (issues : list ValidationIssue)
    : list ValidationIssue :=
  traverseNodes nodes validateEstimates_node issues.

(** The three counters of [validateCompleteness]. *)
Record CompletenessCounters : Type := mkCounters {
  leafNodes : nat;
  nodesWithEstimates : nat;
  nodesWithDescriptions : nat
}.

(** [node.estimatedHours !== undefined && node.estimatedHours > 0] *)
Definition hasPositiveEstimate (node : HTANode) : bool :=
  match estimatedHours node with
  | Some hours => Qltb 0 hours
  | None => false
  end.

(** [node.description && node.description.trim() !== ''] *)
Definition hasNonBlankDescription (node : HTANode) : bool :=
  negb (blankDescription (description node)).

Definition validateCompleteness_node (node : HTANode) (c : CompletenessCounters)
    : CompletenessCounters :=
  let c := if isLeaf node
           then mkCounters (S (leafNodes c)) (nodesWithEstimates c) (nodesWithDescriptions c)
           else c in
  let c := if hasPositiveEstimate node
           then mkCounters (leafNodes c) (S (nodesWithEstimates c)) (nodesWithDescriptions c)
           else c in
  if hasNonBlankDescription node
  then mkCounters (leafNodes c) (nodesWithEstimates c) (S (nodesWithDescriptions c))
  else c.

Definition completenessCounters (nodes : list HTANode) : CompletenessCounters :=
  traverseNodes nodes validateCompleteness_node (mkCounters 0 0 0).

Definition validateCompleteness (nodes : list HTANode) (issues : list ValidationIssue)
    : list ValidationIssue :=
  let c := completenessCounters nodes in
  let totalNodes := countNodes nodes in
  let estimateCompleteness := div (ofNat (nodesWithEstimates c)) (ofNat totalNodes) in
  let descriptionCompleteness := div (ofNat (nodesWithDescriptions c)) (ofNat totalNodes) in
  let issues :=
    if ltb estimateCompleteness (double (7 # 10)) then
      push issues
        (mkIssue warning "INCOMPLETE_ESTIMATES"
           [Lit "Only "; Val (round (mul estimateCompleteness (ofZ 100)));
            Lit "% of nodes have time estimates"]
           None medium false)
    else issues in
  if ltb descriptionCompleteness (double (5 # 10)) then
    push issues
      (mkIssue warning "INCOMPLETE_DESCRIPTIONS"
         [Lit "Only "; Val (round (mul descriptionCompleteness (ofZ 100)));
          Lit "% of nodes have descriptions"]
         None low false)
  else issues.

Definition validateFeasibility_node (node : HTANode) (issues : list ValidationIssue)
    : list ValidationIssue :=
  if (0 <? length (children node))%nat then
    let childEstimates :=
      map (fun child => hoursOrZero (estimatedHours child))
        (List.filter (fun child => truthyHours (estimatedHours child)) (children node)) in
    let totalChildEstimate :=
      fold_left (fun sum est => add sum (Fin est)) childEstimates (ofZ 0) in
    let nodeEstimate := hoursOrZero (estimatedHours node) in
    if Qltb 0 nodeEstimate && gtb totalChildEstimate (mul (Fin nodeEstimate) (ofZ 3)) then
      push issues
        (mkIssue warning "UNREALISTIC_BREAKDOWN"
           ([Lit "Node "] ++ quoted (title node)
              ++ [Lit " estimate ("; Val (Fin nodeEstimate);
                  Lit "h) is much less than sum of children (";
                  Val totalChildEstimate; Lit "h)"])
           (Some (id node)) medium false)
    else issues
  else issues.

Definition validateFeasibility (nodes : list HTANode) (issues : list ValidationIssue)
    : list ValidationIssue :=
  let totalEstimate := calculateTotalEstimate nodes in
  let issues :=
    if gtb totalEstimate (ofZ 2000) then
      push issues
        (mkIssue warning "LARGE_PROJECT"
           [Lit "Total project estimate is "; Val totalEstimate; Lit " hours (";
            Val (div (round (mul (div totalEstimate (ofZ 2000)) (ofZ 100))) (ofZ 100));
            Lit " person-years). Consider phase approach."]
           None medium false)
    else issues in
  traverseNodes nodes validateFeasibility_node issues.

(** ** Metrics, score and suggestions *)

(** [calculateMetrics] once the six traversals of the forest have returned. *)
Definition metricsOf (depth breadth totalNodes nodesWithEstimates nodesWithDescriptions : nat)
    (totalEstimate : number) : Metrics :=
  let complexity := min (ofZ 100) (ofNat (depth * 10 + breadth * 5)) in
  let completeness :=
    round (mul (div (ofNat (nodesWithEstimates + nodesWithDescriptions))
                    (ofNat (totalNodes * 2)))
               (ofZ 100)) in
  let feasibility :=
    if gtb totalEstimate (ofZ 0) && ltb totalEstimate (ofZ 2000)
    then min (ofZ 100) (sub (ofZ 100) (div totalEstimate (ofZ 50)))
    else ofZ 50 in
  mkMetrics (ofNat depth) (ofNat breadth) complexity completeness (round feasibility).

Definition calculateMetrics (nodes : list HTANode) : Metrics :=
  let depth := calculateMaxDepth nodes 0 in
  let breadth := calculateMaxBreadth nodes in
  let totalNodes := countNodes nodes in
  let nodesWithEstimates := countNodesWithProperty nodes hasEstimatedHours in
  let nodesWithDescriptions := countNodesWithProperty nodes hasDescription in
  let totalEstimate := calculateTotalEstimate nodes in
  metricsOf depth breadth totalNodes nodesWithEstimates nodesWithDescriptions totalEstimate.

(** The amount [calculateScore] takes off for one issue. *)
Definition deduction (issue : ValidationIssue) : Z :=
  match Issue.severity issue with
  | high => if Issue.isError issue then 15 else 8
  | medium => if Issue.isError issue then 10 else 5
  | low => if Issue.isError issue then 5 else 2
  end.

Definition calculateScore (issues : list ValidationIssue) (metrics : Metrics) : number :=
  let score := forEach (fun issue score => (score - deduction issue)%Z) issues 100%Z in
  let score :=
    round (div (add (add (ofZ score) (completeness metrics)) (feasibility metrics))
               (ofZ 3)) in
  max (ofZ 0) (min (ofZ 100) score).

Definition pushWhen (b : bool) (s : string) (suggestions : list string) : list string :=
  if b then suggestions ++ [s] else suggestions.

Definition generateSuggestions (issues : list ValidationIssue) (metrics : Metrics)
    : list string :=
  let suggestions := [] in
  let errorCount := length (List.filter Issue.isError issues) in
  let warningCount := length (List.filter Issue.isWarning issues) in
  let suggestions :=
    pushWhen (0 <? errorCount)%nat
      ("Fix " +:+ showNat errorCount +:+ " critical error"
         +:+ (if (1 <? errorCount)%nat then "s" else "") +:+ " before proceeding")
      suggestions in
  let suggestions :=
    pushWhen (5 <? warningCount)%nat
      "Consider addressing multiple warnings to improve structure quality" suggestions in
  let suggestions :=
    pushWhen (gtb (depth metrics) (ofZ 5))
      "Consider flattening the hierarchy to improve manageability" suggestions in
  let suggestions :=
    pushWhen (gtb (breadth metrics) (ofZ 8))
      "Group related tasks to reduce cognitive load" suggestions in
  let suggestions :=
    pushWhen (ltb (completeness metrics) (ofZ 70))
      "Add more time estimates and descriptions for better planning" suggestions in
  let suggestions :=
    pushWhen (ltb (feasibility metrics) (ofZ 60))
      "Consider breaking the project into phases or reducing scope" suggestions in
  pushWhen (length suggestions =? 0)%nat
    "Structure looks good! Consider reviewing estimates and dependencies." suggestions.

(** ** [validateHTA] *)

(** The six checks in the order of the [try] block. *)
Definition runChecks (structure : list HTANode) (issues : list ValidationIssue)
    : list ValidationIssue :=
  let issues := validateHierarchy structure issues 0 "" in
  let issues := validateNodeProperties structure issues in
  let issues := validateDependencies structure issues in
  let issues := validateEstimates structure issues in
  let issues := validateCompleteness structure issues in
  validateFeasibility structure issues.

(** The value the [catch] block returns. *)
Definition degradedResult : HTAValidationResult :=
  mkResult false
    [mkIssue error "VALIDATION_ERROR" [Lit "Validation process failed"] None high false]
    ["Please review the structure and try again"]
    (ofZ 0)
    (mkMetrics (ofZ 0) (ofZ 0) (ofZ 0) (ofZ 0) (ofZ 0)).

(** The end of the [try] block, from [calculateScore] to [return result]. *)
Definition conclude (issues : list ValidationIssue) (metrics : Metrics) (logger : Logger)
    : HTAValidationResult * Logger :=
  let score := calculateScore issues metrics in
  let suggestions := generateSuggestions issues metrics in
  let result :=
    mkResult ((length (List.filter Issue.isError issues) =? 0)%nat)
      issues suggestions score metrics in
  let logger :=
    logger ++ [LogDebug "HTA validation completed" (isValid result)
                 (length (List.filter Issue.isError issues))
                 (length (List.filter Issue.isWarning issues)) score] in
  (result, logger).

(** [validateHTA] on a forest of well-typed nodes.  No statement of the
    method can throw on such a forest, so the [catch] block is not entered;
    an array that holds [null] is the subject of module [Malformed] below. *)
Definition validateHTA (structure : list HTANode) (logger : Logger)
    : HTAValidationResult * Logger :=
  let issues := [] in
  let metrics := calculateMetrics structure in
  let issues := runChecks structure issues in
  conclude issues metrics logger.

(** ** An array that holds [null]

    The controller hands [req.body.structure] to [validateHTA] once
    [Array.isArray] accepts it; nothing checks the elements.  Here an element
    is [null] or a well-typed node.  Reading a property of [null] throws a
    [TypeError]. *)
Module Malformed.

Inductive Entry : Type :=
| Null
| Node (node : HTANode).

Inductive Outcome (A : Type) : Type :=
| Returns (a : A)
| Throws (e : Exception).

Arguments Returns {A} a.
Arguments Throws {A} e.

Definition bind {A B : Type} (o : Outcome A) (k : A -> Outcome B) : Outcome B :=
  match o with
  | Returns a => k a
  | Throws e => Throws e
  end.

Section ForEachEntry.
Context {St : Type}.
(** What the callback of the loop does with an element that is an object. *)
Variable f : HTANode -> St -> St.

(** [entries.forEach(node => ...)] with a callback that reads a property
    of [node] before anything else can fail. *)
Fixpoint forEachEntry (entries : list Entry) (s : St) : Outcome St :=
  match entries with
  | [] => Returns s
  | Null :: _ => Throws TypeError
  | Node node :: rest => forEachEntry rest (f node s)
  end.
End ForEachEntry.

Definition traverseNodes {St : Type} (entries : list Entry)
    (callback : HTANode -> St -> St) (s : St) : Outcome St :=
  forEachEntry (traverseNodes_visit callback) entries s.

Definition countNodes (entries : list Entry) : Outcome nat :=
  forEachEntry (countNodes_visit countNodes_children) entries (length entries).

Definition calculateMaxDepth (entries : list Entry) (currentDepth : nat) : Outcome nat :=
  forEachEntry (calculateMaxDepth_visit calculateMaxDepth_children currentDepth)
    entries currentDepth.

Definition calculateMaxBreadth (entries : list Entry) : Outcome nat :=
  forEachEntry (calculateMaxBreadth_visit calculateMaxBreadth_children)
    entries (length entries).

Definition countNodesWithProperty (entries : list Entry) (property : HTANode -> bool)
    : Outcome nat :=
  traverseNodes entries (countNodesWithProperty_visit property) 0%nat.

Definition calculateTotalEstimate (entries : list Entry) : Outcome number :=
  traverseNodes entries calculateTotalEstimate_visit (ofZ 0).

Definition calculateMetrics (entries : list Entry) : Outcome Metrics :=
  bind (calculateMaxDepth entries 0) (fun depth =>
  bind (calculateMaxBreadth entries) (fun breadth =>
  bind (countNodes entries) (fun totalNodes =>
  bind (countNodesWithProperty entries hasEstimatedHours) (fun nodesWithEstimates =>
  bind (countNodesWithProperty entries hasDescription) (fun nodesWithDescriptions =>
  bind (calculateTotalEstimate entries) (fun totalEstimate =>
  Returns (metricsOf depth breadth totalNodes nodesWithEstimates nodesWithDescriptions
             totalEstimate))))))).

Section TryBlock.
(** The six checks of the [try] block on such an array, whatever they
    return or throw. *)
Variable runChecks : list Entry -> list ValidationIssue -> Outcome (list ValidationIssue).

(** [validateHTA]: [calculateMetrics] is called before the [try] block
    opens; the block holds the six checks and the construction of the
    result; the [catch] block logs and returns [degradedResult]. *)
Definition validateHTA (structure : list Entry) (logger : Logger)
    : Outcome (HTAValidationResult * Logger) :=
  let issues := [] in
  bind (calculateMetrics structure) (fun metrics =>
    match runChecks structure issues with
    | Returns issues => Returns (conclude issues metrics logger)
    | Throws e =>
        Returns (degradedResult, logger ++ [LogError "HTA validation failed" e])
    end).
End TryBlock.

(** The elements of an array of nodes. *)
Definition ofNodes (nodes : list HTANode) : list Entry := map Node nodes.

End Malformed.

(** ** Vocabulary of the specification *)

(** The nodes of a forest in pre-order: a node, then its descendants, in
    sibling order. *)
Fixpoint descendants (node : HTANode) : list HTANode :=
  flat_map (fun child => child :: descendants child) (children node).

Definition preorder (nodes : list HTANode) : list HTANode :=
  flat_map (fun node => node :: descendants node) nodes.

(** Rank index of a node type, [-1] when the type is not a rank. *)
Definition rankIndex (node : HTANode) : Z := indexOf typeHierarchy (type node).

Definition knownRank (node : HTANode) : bool := negb (rankIndex node =? -1)%Z.

(** Every node of the forest has a known rank and every child ranks
    strictly below (has a strictly greater index than) its parent. *)
Definition wellRanked (nodes : list HTANode) : Prop :=
  forall node, In node (preorder nodes) ->
    knownRank node = true /\
    forall child, In child (children node) -> (rankIndex node < rankIndex child)%Z.

Definition hasCode (c : string) (i : ValidationIssue) : bool := String.eqb (Issue.code i) c.


(** The deductions of the loop of [calculateScore] as a table: the loop
    tests for an error only, so it agrees with the table above on errors
    and warnings. *)
Definition codePenalty (issue : ValidationIssue) : Z :=
  match Issue.severity issue, Issue.type issue with
  | high, error => 15
  | high, _ => 8
  | medium, error => 10
  | medium, _ => 5
  | low, error => 5
  | low, _ => 2
  end.

Definition totalPenalty (penalty : ValidationIssue -> Z) (issues : list ValidationIssue) : Z :=
  fold_right (fun issue sum => (penalty issue + sum)%Z) 0%Z issues.

Definition clamp (lo hi : Z) (x : number) : number := max (ofZ lo) (min (ofZ hi) x).

Definition blendedScore (penalty : ValidationIssue -> Z) (issues : list ValidationIssue)
    (metrics : Metrics) : number :=
  let score := (100 - totalPenalty penalty issues)%Z in
  clamp 0 100
    (round (div (add (add (ofZ score) (completeness metrics)) (feasibility metrics))
                (ofZ 3))).

Definition isSuggestion (i : ValidationIssue) : bool :=
  match Issue.type i with suggestion => true | _ => false end.

Definition notSuggestion (i : ValidationIssue) : Prop := isSuggestion i = false.

(** A number that is neither [NaN] nor an infinity. *)
Definition finite (x : number) : Prop := exists q, x = Fin q.

(** [after] is [before] with issues pushed that all satisfy [Q]. *)
Definition emits (Q : ValidationIssue -> Prop) (before after : list ValidationIssue) : Prop :=
  exists new, after = before ++ new /\ Forall Q new.

(** The two rank errors that [validateNodeTypeHierarchy] can push for
    [node] satisfy [Q]. *)
Definition rankIssuesSatisfy (Q : ValidationIssue -> Prop) (node : HTANode) : Prop :=
  (knownRank node = false -> Q (invalidNodeTypeIssue node))
  /\ (forall child, In child (children node) ->
        knownRank node = true -> knownRank child = true ->
        (rankIndex child <= rankIndex node)%Z ->
        Q (invalidHierarchyIssue node child)).

(** Neither of the two rank errors. *)
Definition notRankError (i : ValidationIssue) : Prop :=
  hasCode "INVALID_HIERARCHY" i = false /\ hasCode "INVALID_NODE_TYPE" i = false.

(** Cycle detection in the words of the specification: a walk along
    dependency edges, each id looked up with [findNodeById], that comes back
    to an id already on the current path ([visited]). *)
Inductive revisits (allNodes : list HTANode) : gset string -> HTANode -> Prop :=
| revisits_here visited node :
    id node ∈ visited -> revisits allNodes visited node
| revisits_step visited node depId depNode :
    id node ∉ visited ->
    In depId (dependencies node) ->
    findNodeById allNodes depId = Some depNode ->
    revisits allNodes ({[id node]} ∪ visited) depNode ->
    revisits allNodes visited node.

(** Node ids are pairwise distinct over the forest. *)
Definition uniqueIds (nodes : list HTANode) : Prop :=
  List.NoDup (map id (preorder nodes)).

(** The feasibility metric in the words of the specification: the sum of
    [estimatedHours] over the leaves, then the formula on that total.  The
    hours are added one after the other, in document order, starting from 0,
    and each sum is rounded as the language rounds it. *)
Definition hoursOf (node : HTANode) : Q :=
  match estimatedHours node with
  | Some q => q
  | None => 0%Q
  end.

Definition leafHours (nodes : list HTANode) : number :=
  fold_left (fun total hours => add total (Fin hours))
    (map hoursOf (List.filter isLeaf (preorder nodes))) (ofZ 0).

Definition specFeasibility (total : number) : number :=
  if gtb total (ofZ 0) && ltb total (ofZ 2000)
  then round (min (ofZ 100) (sub (ofZ 100) (div total (ofZ 50))))
  else ofZ 50.

(** ** Sample forests *)

Definition taskNode (i : string) (hours : option Q) (deps : list string) : HTANode :=
  mkHTANode i "task" ("Task " +:+ i) (Some "What the task is about") "medium" hours deps [].

(** An objective over a strategy over two tasks.  Task [a] has an estimate
    of zero hours and depends on [b] and on an id that no node bears; task
    [b] depends on [a]. *)
Definition taskA : HTANode := taskNode "a" (Some 0%Q) ["b"; "ghost"].
Definition taskB : HTANode := taskNode "b" (Some 10%Q) ["a"].

Definition sampleForest : list HTANode :=
  [mkHTANode "r" "objective" "Ship the product" (Some "The goal") "high" None []
     [mkHTANode "s" "strategy" "Build it in steps" None "high" None [] [taskA; taskB]]].

(** The scenarios of the specification. *)
Definition loneObjective : list HTANode :=
  [mkHTANode "r" "objective" "Ship the product" None "high" None [] []].

Definition objectiveUnderObjective : list HTANode :=
  [mkHTANode "r" "objective" "Ship the product" None "high" None []
     [mkHTANode "c" "objective" "Ship it again" None "high" None [] []]].

Definition tenLongTasks : list HTANode :=
  map (fun i => taskNode (showNat i) (Some 250%Q) []) (seq 0 10).

Definition nineChildren : list HTANode :=
  [mkHTANode "r" "initiative" "Many small things" None "high" None []
     (map (fun i => taskNode (showNat i) (Some 8%Q) []) (seq 0 9))].

(** Forests at the thresholds, where the rounding of the sums, products and
    quotients decides.  [literal q] is the number that the decimal literal
    for [q] denotes. *)
Definition literal (q : Q) : Q :=
  match double q with
  | Fin r => r
  | _ => 0%Q
  end.

(** A leaf of 1999 hours and ten leaves of 0.1 hours. *)
Definition nearBudgetForest : list HTANode :=
  taskNode "big" (Some 1999%Q) []
  :: map (fun i => taskNode (showNat i) (Some (literal (1 # 10))) []) (seq 0 10).

(** A leaf of 2000 hours and a leaf of 1e-13 hours. *)
Definition hairOverBudgetForest : list HTANode :=
  [taskNode "big" (Some 2000%Q) [];
   taskNode "tiny" (Some (literal (1 # 10000000000000))) []].

(** Twenty described tasks, three of them with an estimate. *)
Definition twentyTasks : list HTANode :=
  map (fun i => taskNode (showNat i) (if (i <? 3)%nat then Some 8%Q else None) [])
    (seq 0 20).

(** A node of 0.3 hours over a child of 0.9 hours. *)
Definition thinParent : list HTANode :=
  [mkHTANode "p" "objective" "Parent" (Some "described") "high" (Some (literal (3 # 10))) []
     [taskNode "c" (Some (literal (9 # 10))) []]].

Definition codesOf (result : HTAValidationResult) : list (string * option string) :=
  map (fun i => (Issue.code i, Issue.nodeId i)) (issues result).

(** A step that only pushes, and pushes the same issues whatever the list
    it is given. *)
Definition appends (f : list ValidationIssue -> list ValidationIssue) : Prop :=
  forall issues, f issues = issues ++ f [].

(** The issues of a result, pass by pass: those of the hierarchy pass, then,
    each in pre-order of the nodes, those of the field, dependency and
    estimate passes, then those of the completeness pass and of the
    feasibility pass. *)
Definition issuesByPass (structure : list HTANode) : list ValidationIssue :=
  validateHierarchy structure [] 0 ""
  ++ flat_map (fun node => validateNodeProperties_node node []) (preorder structure)
  ++ flat_map (fun node =>
                 validateDependencies_node structure (collectNodeIds structure) node [])
       (preorder structure)
  ++ flat_map (fun node => validateEstimates_node node []) (preorder structure)
  ++ validateCompleteness structure []
  ++ validateFeasibility structure [].

(** ** Further vocabulary: shape of a forest *)

(** The level of every node below [node], its children being at level
    [S k]. *)
Fixpoint levelsBelow (k : nat) (node : HTANode) : list nat :=
  flat_map (fun child => S k :: levelsBelow (S k) child) (children node).

(** The level of every node of the forest, the roots being at level [k]. *)
Definition levels (k : nat) (nodes : list HTANode) : list nat :=
  flat_map (fun node => k :: levelsBelow k node) nodes.

(** The sizes of the sibling groups: the root list and the children of every
    node. *)
Definition groupSizes (nodes : list HTANode) : list nat :=
  length nodes :: map (fun node => length (children node)) (preorder nodes).

Definition maximum (start : nat) (l : list nat) : nat := fold_right Nat.max start l.

(** ** Further vocabulary: the issues a pass can push *)

(** Code, kind, severity and [autoFixable] of an issue. *)
Definition signature (i : ValidationIssue)
    : string * Issue.IssueType * Issue.Severity * bool :=
  (Issue.code i, Issue.type i, Issue.severity i, Issue.autoFixable i).

(** The object literals of the six passes, pass by pass. *)
Definition hierarchyRows : list (string * Issue.IssueType * Issue.Severity * bool) :=
  [("EXCESSIVE_DEPTH", warning, medium, false);
   ("INVALID_NODE_TYPE", error, high, true);
   ("INVALID_HIERARCHY", error, high, true);
   ("TOO_MANY_CHILDREN", warning, medium, false)].

Definition fieldRows : list (string * Issue.IssueType * Issue.Severity * bool) :=
  [("MISSING_ID", error, high, true);
   ("MISSING_TITLE", error, high, false);
   ("LONG_TITLE", warning, low, false);
   ("SHORT_TITLE", warning, low, false);
   ("INVALID_PRIORITY", error, medium, true);
   ("MISSING_DESCRIPTION", warning, medium, false)].

Definition dependencyRows : list (string * Issue.IssueType * Issue.Severity * bool) :=
  [("INVALID_DEPENDENCY", error, high, true);
   ("CIRCULAR_DEPENDENCY", error, high, false)].

Definition estimateRows : list (string * Issue.IssueType * Issue.Severity * bool) :=
  [("NEGATIVE_ESTIMATE", error, medium, true);
   ("LARGE_ESTIMATE", warning, medium, false);
   ("ZERO_ESTIMATE", warning, medium, false);
   ("LONG_TASK", warning, medium, false);
   ("MISSING_ESTIMATE", warning, medium, false)].

Definition completenessRows : list (string * Issue.IssueType * Issue.Severity * bool) :=
  [("INCOMPLETE_ESTIMATES", warning, medium, false);
   ("INCOMPLETE_DESCRIPTIONS", warning, low, false)].

Definition feasibilityRows : list (string * Issue.IssueType * Issue.Severity * bool) :=
  [("LARGE_PROJECT", warning, medium, false);
   ("UNREALISTIC_BREAKDOWN", warning, medium, false)].

Definition issueCatalogue : list (string * Issue.IssueType * Issue.Severity * bool) :=
  hierarchyRows ++ fieldRows ++ dependencyRows ++ estimateRows
    ++ completenessRows ++ feasibilityRows.

Definition listed (rows : list (string * Issue.IssueType * Issue.Severity * bool))
    (i : ValidationIssue) : Prop :=
  In (signature i) rows.

(** What the hierarchy pass pushes for one node, apart from the depth
    warning of its sibling group. *)
Definition hierarchyNodeIssues (node : HTANode) : list ValidationIssue :=
  validateNodeTypeHierarchy node [] [] ""
  ++ (if (8 <? length (children node))%nat then [tooManyChildrenIssue node] else []).

(** Some issue of the list has the code. *)
Definition reports (c : string) (l : list ValidationIssue) : bool := existsb (hasCode c) l.

(** ** Further vocabulary: suggestions *)

(** The suggestions that a rule of [generateSuggestions] adds, before the
    affirmative one is considered. *)
Definition ruleSuggestions (issues : list ValidationIssue) (metrics : Metrics) : list string :=
  let errorCount := length (List.filter Issue.isError issues) in
  let warningCount := length (List.filter Issue.isWarning issues) in
  (if (0 <? errorCount)%nat
   then ["Fix " +:+ showNat errorCount +:+ " critical error"
           +:+ (if (1 <? errorCount)%nat then "s" else "") +:+ " before proceeding"]
   else [])
  ++ (if (5 <? warningCount)%nat
      then ["Consider addressing multiple warnings to improve structure quality"] else [])
  ++ (if gtb (depth metrics) (ofZ 5)
      then ["Consider flattening the hierarchy to improve manageability"] else [])
  ++ (if gtb (breadth metrics) (ofZ 8)
      then ["Group related tasks to reduce cognitive load"] else [])
  ++ (if ltb (completeness metrics) (ofZ 70)
      then ["Add more time estimates and descriptions for better planning"] else [])
  ++ (if ltb (feasibility metrics) (ofZ 60)
      then ["Consider breaking the project into phases or reducing scope"] else []).

Definition affirmativeSuggestion : string :=
  "Structure looks good! Consider reviewing estimates and dependencies.".

(** ** Further vocabulary: two issues of the later passes *)

(** The [NEGATIVE_ESTIMATE] issue of a node. *)
Definition negativeEstimateIssue (node : HTANode) : ValidationIssue :=
  mkIssue error "NEGATIVE_ESTIMATE"
    ([Lit "Node "] ++ quoted (title node) ++ [Lit " has negative time estimate"])
    (Some (id node)) medium true.

(** A dependency edge as the walk follows it: [node] lists an id that
    [findNodeById] resolves to [target]. *)
Definition dependsOn (allNodes : list HTANode) (node target : HTANode) : Prop :=
  exists depId, In depId (dependencies node) /\ findNodeById allNodes depId = Some target.

(** ** The validate endpoint ([HTAController.validateHTA])

    The handler reads [structure] from the request body and [user] from the
    request, which the authentication middleware sets.  The body is an
    object (the JSON body parser is installed for every route). *)
Module Controller.

(** [req.body.structure], as far as the handler and the validator tell
    values apart: falsy or not an array, or an array of elements. *)
Inductive StructureField : Type :=
| NotAnArray
| AnArray (entries : list Malformed.Entry).

(** What the handler passes to [res.json], after [res.status] if it calls
    it. *)
Inductive Body : Type :=
| AuthenticationRequired
| StructureRequired
| Validated (validation : HTAValidationResult)
| ValidationFailed.

Record Response : Type := mkResponse {
  status : nat;
  body : Body
}.

Section Handler.
(** The six checks of [ValidationService.validateHTA] on the array. *)
Variable runChecks :
  list Malformed.Entry -> list ValidationIssue -> Malformed.Outcome (list ValidationIssue).

(** [validateHTA = async (req, res) => { try { ... } catch (error) { ... } }];
    [user] is [true] when [req.user] is set. *)
Definition validateHTA (user : bool) (structure : StructureField) (logger : Logger)
    : Response * Logger :=
  if negb user then (mkResponse 401 AuthenticationRequired, logger)
  else
    match structure with
    | NotAnArray => (mkResponse 400 StructureRequired, logger)
    | AnArray entries =>
        match Malformed.validateHTA runChecks entries logger with
        | Malformed.Returns (validation, logger) =>
            (mkResponse 200 (Validated validation), logger)
        | Malformed.Throws e =>
            (mkResponse 500 ValidationFailed,
             logger ++ [LogError "HTA validation failed" e])
        end
    end.
End Handler.

End Controller.

(** ** Ids for generated structures ([AIService.assignIdsRecursively])

    The structure parsed from the model's answer is completed in place: a
    node without an id gets one built from a prefix, the clock and the
    node's index among its siblings.  The function is given here as the
    array it leaves behind; a node with no [id] property is a node whose
    [id] is the empty string, the one string that [!node.id] accepts. *)
Module AIService.

Definition generatedId (prefix : string) (time index : nat) : string :=
  prefix +:+ "-" +:+ showNat time +:+ "-" +:+ showNat index.

Definition withId (node : HTANode) (nodeId : string) (nodes : list HTANode) : HTANode :=
  mkHTANode nodeId (type node) (title node) (description node) (priority node)
    (estimatedHours node) (dependencies node) nodes.

Section AssignIds.
(** [now n] is what the call number [n] of [Date.now()] returns, the calls
    of a run being numbered from 0. *)
Variable now : nat -> nat.

Section Visit.
(** [assignIdsRecursively] on the children of a node. *)
Variable rec : HTANode -> string -> nat -> list HTANode * nat.

(** The callback of the loop.  The state is the part of the array already
    completed and the number of calls of [Date.now()] so far. *)
Definition assignIds_visit (prefix : string) (node : HTANode) (index : nat)
    (s : list HTANode * nat) : list HTANode * nat :=
  let '(completed, calls) := s in
  let '(nodeId, calls) :=
    if String.eqb (id node) ""
    then (generatedId prefix (now calls) index, S calls)
    else (id node, calls) in
  let '(nodes, calls) :=
    if (0 <? length (children node))%nat
    then rec node (nodeId +:+ "-child") calls
    else (children node, calls) in
  (completed ++ [withId node nodeId nodes], calls).

Definition assignIds_with (nodes : list HTANode) (prefix : string) (calls : nat)
    : list HTANode * nat :=
  forEachIndexed (assignIds_visit prefix) nodes ([], calls).
End Visit.

Fixpoint assignIds_children (node : HTANode) (prefix : string) (calls : nat)
    {struct node} : list HTANode * nat :=
  assignIds_with assignIds_children (children node) prefix calls.

Definition assignIdsRecursively (nodes : list HTANode) (prefix : string) (calls : nat)
    : list HTANode * nat :=
  assignIds_with assignIds_children nodes prefix calls.
End AssignIds.

(** The default value of [prefix]. *)
Definition defaultPrefix : string := "node".

End AIService.

(** A forest with every id removed: what the nodes hold and how they
    nest. *)
Fixpoint eraseIds (node : HTANode) : HTANode :=
  mkHTANode "" (type node) (title node) (description node) (priority node)
    (estimatedHours node) (dependencies node) (map eraseIds (children node)).


(** A forest with every id and every dependency removed. *)
Fixpoint eraseLinks (node : HTANode) : HTANode :=
  mkHTANode "" (type node) (title node) (description node) (priority node)
    (estimatedHours node) [] (map eraseLinks (children node)).

(** The string holds a character that [trim] keeps. *)
Fixpoint inked (s : string) : bool :=
  match s with
  | EmptyString => false
  | String c rest => negb (isWhiteSpace c) || inked rest
  end.


(** The id that [assignIdsRecursively] builds below [prefix] for a node
    that had none and whose ancestors had none: [steps] holds the clock
    reading and the index of the node, then of its parent, and so on up to
    the root. *)
Fixpoint idAlong (prefix : string) (steps : list (nat * nat)) : string :=
  match steps with
  | [] => prefix
  | (time, index) :: outer =>
      AIService.generatedId
        match outer with
        | [] => prefix
        | _ :: _ => idAlong prefix outer +:+ "-child"
        end
        time index
  end.

(** No hyphen in the string. *)
Definition plain (d : string) : Prop := forall a b : string, d <> a +:+ String "-" b.


(** ** Templates from structures ([TemplateService])

    [createTemplateFromStructure] cleans a structure and stores it with two
    node counts.  [generateTemplateNodeId] reads the clock and the random
    generator; [suffix n] stands for the text they give at the call number
    [n] of a run.  The [metadata] property of a node, which the cleaning
    also rewrites, is not part of [HTANode] here: no function of the
    validator reads it. *)
Module TemplateService.

Section Clean.
Variable suffix : nat -> string.

Definition generateTemplateNodeId (type : string) (calls : nat) : string * nat :=
  ("template-" +:+ type +:+ "-" +:+ suffix calls, S calls).

Section Visit.
(** [cleanStructureForTemplate] on the children of a node. *)
Variable rec : HTANode -> nat -> list HTANode * nat.

(** The callback of [nodes.map]: the state is the part of the new array
    built so far and the number of ids generated. *)
Definition clean_visit (node : HTANode) (s : list HTANode * nat) : list HTANode * nat :=
  let '(cleaned, calls) := s in
  let '(nodeId, calls) := generateTemplateNodeId (type node) calls in
  let '(nodes, calls) := rec node calls in
  (cleaned
     ++ [mkHTANode nodeId (type node) (title node) (description node) (priority node)
           (estimatedHours node) [] nodes],
   calls).

Definition clean_with (nodes : list HTANode) (calls : nat) : list HTANode * nat :=
  forEach clean_visit nodes ([], calls).
End Visit.

Fixpoint clean_children (node : HTANode) (calls : nat) {struct node}
    : list HTANode * nat :=
  clean_with clean_children (children node) calls.

Definition cleanStructureForTemplate (nodes : list HTANode) (calls : nat)
    : list HTANode * nat :=
  clean_with clean_children nodes calls.

(** The [metadata] of the template. *)
Record TemplateMetadata : Type := mkTemplateMetadata {
  originalNodeCount : nat;
  templateNodeCount : nat;
  createdFromProject : bool
}.

(** What [createTemplateFromStructure] hands to [createTemplate]: the
    caller's fields, the cleaned structure and the metadata.  [countNodes]
    of this class is, word for word, the one of [ValidationService]. *)
Record TemplateDraft (Info : Type) : Type := mkTemplateDraft {
  info : Info;
  structure : list HTANode;
  metadata : TemplateMetadata
}.

Definition createTemplateFromStructure {Info : Type} (nodes : list HTANode) (given : Info)
    (calls : nat) : TemplateDraft Info * nat :=
  let '(cleanedStructure, calls) := cleanStructureForTemplate nodes calls in
  (mkTemplateDraft Info given cleanedStructure
     (mkTemplateMetadata (countNodes nodes) (countNodes cleanedStructure) true),
   calls).
End Clean.

Arguments info {Info} _.
Arguments structure {Info} _.
Arguments metadata {Info} _.

(** *** Queries built at run time

    [searchTemplates] and [updateTemplate] assemble the text of a query and
    the array of its parameters side by side.  A query is given here as its
    pieces, a placeholder [`$${k}`] being a piece of its own; [render]
    prints it. *)
Inductive Piece : Type :=
| Text (s : string)
| Placeholder (index : nat).

Definition render (sql : list Piece) : string :=
  fold_right
    (fun piece rest =>
       match piece with
       | Text s => s +:+ rest
       | Placeholder index => "$" +:+ showNat index +:+ rest
       end)
    "" sql.

(** [parts.join(sep)] *)
Definition join (sep : string) (parts : list (list Piece)) : list Piece :=
  match parts with
  | [] => []
  | first :: rest => first ++ flat_map (fun part => Text sep :: part) rest
  end.

(** The values bound to placeholders. *)
Inductive Value : Type :=
| Str (s : string)
| Strs (l : list string)
| Number (n : number)
| Bool (b : bool).

(** The three variables that the two functions update together. *)
Record Building : Type := mkBuilding {
  clauses : list (list Piece);
  queryParams : list Value;
  paramIndex : nat
}.

(** [clauses.push(`... $${paramIndex} ...`); queryParams.push(value);
    paramIndex++] *)
Definition bind (clause : nat -> list Piece) (value : Value) (s : Building) : Building :=
  mkBuilding (clauses s ++ [clause (paramIndex s)]) (queryParams s ++ [value])
    (S (paramIndex s)).

Definition nl : string := String (ascii_of_nat 10) EmptyString.

Definition star : string := String (ascii_of_nat 42) EmptyString.

(** A line of a query, indented as in the source. *)
Definition line (s : string) : string := nl +:+ "        " +:+ s.

Module Search.

Record Filters : Type := mkFilters {
  tenantId : string;
  category : option string;
  industry : option string;
  complexity : option string;
  tags : option (list string);
  query : option string;
  includePublic : option bool;
  limit : option number;
  offset : option number
}.

(** [if (s)] for an optional string: defined and not empty. *)
Definition truthyString (s : option string) : option string :=
  match s with
  | Some s => if String.eqb s "" then None else Some s
  | None => None
  end.

(** [x || d] for an optional number: [d] when [x] is undefined, zero or
    [NaN]. *)
Definition orDefault (x : option number) (d : number) : number :=
  match x with
  | Some NaN => d
  | Some (Fin q) => if Qeq_bool q 0 then d else Fin q
  | Some n => n
  | None => d
  end.

Definition whenString (field : option string) (clause : nat -> list Piece)
    (value : string -> Value) (s : Building) : Building :=
  match truthyString field with
  | Some text => bind clause (value text) s
  | None => s
  end.

Definition tenantCondition (filters : Filters) (index : nat) : list Piece :=
  match includePublic filters with
  | Some false => [Text "tenant_id = "; Placeholder index]
  | _ => [Text "(tenant_id = "; Placeholder index; Text " OR is_public = true)"]
  end.

(** The conditions and their parameters, as they stand when the two
    queries are written. *)
Definition conditions (filters : Filters) : Building :=
  let s := mkBuilding [] [] 1 in
  let s := bind (tenantCondition filters) (Str (tenantId filters)) s in
  let s := whenString (category filters)
             (fun index => [Text "category = "; Placeholder index]) Str s in
  let s := whenString (industry filters)
             (fun index => [Text "industry = "; Placeholder index]) Str s in
  let s := whenString (complexity filters)
             (fun index => [Text "complexity = "; Placeholder index]) Str s in
  let s :=
    match tags filters with
    | Some (tag :: others) =>
        bind (fun index => [Text "tags && "; Placeholder index]) (Strs (tag :: others)) s
    | _ => s
    end in
  whenString (query filters)
    (fun index =>
       [Text "(name ILIKE "; Placeholder index; Text " OR description ILIKE ";
        Placeholder index; Text ")"])
    (fun text => Str ("%" +:+ text +:+ "%")) s.

Definition whereClause (s : Building) : list Piece :=
  if (0 <? length (clauses s))%nat
  then Text "WHERE " :: join " AND " (clauses s)
  else [].

(** The two calls of [client.query]: text and parameters of the count
    query, then of the main query. *)
Record Queries : Type := mkQueries {
  countQuery : list Piece;
  countParams : list Value;
  mainQuery : list Piece;
  mainParams : list Value
}.

Definition searchTemplates (filters : Filters) : Queries :=
  let s := conditions filters in
  let countQuery :=
    [Text (line ("SELECT COUNT(" +:+ star +:+ ") as total FROM hta_templates "))]
      ++ whereClause s ++ [Text (nl +:+ "      ")] in
  let limit := orDefault (limit filters) (ofZ 20) in
  let offset := orDefault (offset filters) (ofZ 0) in
  let mainQuery :=
    [Text (line "SELECT * FROM hta_templates " +:+ line "")]
      ++ whereClause s
      ++ [Text (line "ORDER BY usage_count DESC, created_at DESC" +:+ line "LIMIT ");
          Placeholder (paramIndex s); Text " OFFSET "; Placeholder (paramIndex s + 1);
          Text (nl +:+ "      ")] in
  mkQueries countQuery (queryParams s) mainQuery
    (queryParams s ++ [Number limit; Number offset]).

End Search.

Module Update.

Section Updates.
(** The type of a template's [metadata], and what [JSON.stringify] prints
    for a structure and for a metadata object. *)
Variable Metadata : Type.
Variable stringifyStructure : list HTANode -> string.
Variable stringifyMetadata : Metadata -> string.

(** The properties of [updates] that the function reads; [None] is
    [undefined]. *)
Record Updates : Type := mkUpdates {
  name : option string;
  description : option string;
  category : option string;
  industry : option string;
  complexity : option string;
  structure : option (list HTANode);
  tags : option (list string);
  isPublic : option bool;
  metadata : option Metadata
}.

Definition whenDefined {A : Type} (field : option A) (column : string)
    (value : A -> Value) (s : Building) : Building :=
  match field with
  | Some a => bind (fun index => [Text (column +:+ " = "); Placeholder index]) (value a) s
  | None => s
  end.

Definition setClauses (updates : Updates) : Building :=
  let s := mkBuilding [] [] 1 in
  let s := whenDefined (name updates) "name" Str s in
  let s := whenDefined (description updates) "description" Str s in
  let s := whenDefined (category updates) "category" Str s in
  let s := whenDefined (industry updates) "industry" Str s in
  let s := whenDefined (complexity updates) "complexity" Str s in
  let s := whenDefined (structure updates) "structure"
             (fun nodes => Str (stringifyStructure nodes)) s in
  let s := whenDefined (tags updates) "tags" Strs s in
  let s := whenDefined (isPublic updates) "is_public" Bool s in
  whenDefined (metadata updates) "metadata" (fun m => Str (stringifyMetadata m)) s.

(** What the function does before it runs the query: it throws
    [Error('No updates provided')], or it has the text and the parameters
    of the [UPDATE]. *)
Inductive Prepared : Type :=
| NoUpdatesProvided
| Statement (text : list Piece) (params : list Value).

(** [timestamp] is [new Date().toISOString()]. *)
Definition updateTemplate (id : string) (updates : Updates) (tenantId : string)
    (timestamp : string) : Prepared :=
  let s := setClauses updates in
  if (length (clauses s) =? 0)%nat then NoUpdatesProvided
  else
    let s := bind (fun index => [Text "updated_at = "; Placeholder index])
               (Str timestamp) s in
    let text :=
      [Text (line "UPDATE hta_templates " +:+ line "SET ")]
        ++ join ", " (clauses s)
        ++ [Text (line "WHERE id = "); Placeholder (paramIndex s);
            Text " AND tenant_id = "; Placeholder (paramIndex s + 1);
            Text (line ("RETURNING " +:+ star) +:+ nl +:+ "      ")] in
    Statement text (queryParams s ++ [Str id; Str tenantId]).
End Updates.

Arguments name {Metadata} _.
Arguments description {Metadata} _.
Arguments category {Metadata} _.
Arguments industry {Metadata} _.
Arguments complexity {Metadata} _.
Arguments structure {Metadata} _.
Arguments tags {Metadata} _.
Arguments isPublic {Metadata} _.
Arguments metadata {Metadata} _.

End Update.

(** The placeholder [index] occurs in the query. *)
Definition mentions (sql : list Piece) (index : nat) : Prop := In (Placeholder index) sql.


End TemplateService.


(** A structure as the model may return it, without ids. *)
Definition parsedWithoutIds : list HTANode :=
  [mkHTANode "" "objective" "Ship the product" None "high" None []
     [mkHTANode "" "strategy" "Build it in steps" None "high" None [] [];
      mkHTANode "" "strategy" "Then sell it" None "high" None [] []]].

(** * Properties *)

(** ** Induction on forests *)

Section ForestInd.
Variable P : list HTANode -> Prop.
Hypothesis P_nil : P [].
Hypothesis P_cons : forall node rest, P (children node) -> P rest -> P (node :: rest).

Lemma forest_ind_children : forall node : HTANode, P (children node).
Proof.
  fix IH 1. intros [i ty t d p e deps ch]. simpl.
  induction ch as [|c r IHr]; [exact P_nil|].
  apply P_cons; [apply IH | exact IHr].
Qed.

Lemma forest_ind (nodes : list HTANode) : P nodes.
Proof.
  induction nodes as [|node rest IH]; [exact P_nil|].
  apply P_cons; [apply forest_ind_children | exact IH].
Qed.
End ForestInd.

(** ** Unfolding the recursive functions *)

Lemma traverseNodes_nil {St} (cb : HTANode -> St -> St) s :
  traverseNodes [] cb s = s.
Proof. reflexivity. Qed.

Lemma traverseNodes_cons {St} (cb : HTANode -> St -> St) node rest s :
  traverseNodes (node :: rest) cb s
  = traverseNodes rest cb (traverseNodes (children node) cb (cb node s)).
Proof. destruct node; reflexivity. Qed.

Lemma preorder_cons node rest :
  preorder (node :: rest) = node :: preorder (children node) ++ preorder rest.
Proof. destruct node; reflexivity. Qed.

Lemma traverseNodes_preorder {St} (cb : HTANode -> St -> St) nodes :
  forall s, traverseNodes nodes cb s = fold_left (fun s n => cb n s) (preorder nodes) s.
Proof.
  induction nodes as [|node rest IHc IHr] using forest_ind; intros s; [reflexivity|].
  rewrite traverseNodes_cons, preorder_cons. simpl.
  rewrite fold_left_app, <- IHc, <- IHr. reflexivity.
Qed.

Lemma fold_left_add_shift {A} (g : A -> nat) (l : list A) (a : nat) :
  fold_left (fun s x => (s + g x)%nat) l a
  = (a + fold_left (fun s x => (s + g x)%nat) l 0)%nat.
Proof.
  revert a. induction l as [|x l IH]; intros a; simpl; [lia|].
  rewrite IH, (IH (g x)). lia.
Qed.

Lemma countNodes_children_eq node : countNodes_children node = countNodes (children node).
Proof. destruct node; reflexivity. Qed.

Lemma countNodes_cons node rest :
  countNodes (node :: rest) = S (countNodes (children node) + countNodes rest).
Proof.
  unfold countNodes at 1 3. unfold countNodes_with, forEach, countNodes_visit. simpl.
  rewrite fold_left_add_shift, (fold_left_add_shift _ rest (length rest)).
  rewrite countNodes_children_eq. lia.
Qed.

Lemma countNodes_preorder nodes : countNodes nodes = length (preorder nodes).
Proof.
  induction nodes as [|node rest IHc IHr] using forest_ind; [reflexivity|].
  rewrite countNodes_cons, preorder_cons. simpl. rewrite length_app. lia.
Qed.

Lemma countNodesWithProperty_filter nodes (property : HTANode -> bool) :
  countNodesWithProperty nodes property = length (List.filter property (preorder nodes)).
Proof.
  unfold countNodesWithProperty. rewrite traverseNodes_preorder.
  assert (forall l k,
            fold_left (fun count n => if property n then S count else count) l k
            = (k + length (List.filter property l))%nat) as H.
  { induction l as [|n l IH]; intros k; simpl; [lia|].
    rewrite IH. destruct (property n); simpl; lia. }
  apply H.
Qed.

Lemma countNodesWithProperty_le nodes property :
  (countNodesWithProperty nodes property <= countNodes nodes)%nat.
Proof.
  rewrite countNodesWithProperty_filter, countNodes_preorder.
  induction (preorder nodes) as [|n l IH]; simpl; [lia|].
  destruct (property n); simpl; lia.
Qed.

(** ** Numbers *)

(** *** Rounding to binary64 *)

Section Binary64.

Local Open Scope Q_scope.

(** Powers of two and the binary logarithm. *)
Lemma pow2_pos e : 0 < pow2 e.
Proof. apply Qpower_0_lt. reflexivity. Qed.

Lemma pow2_plus a b : pow2 (a + b) == pow2 a * pow2 b.
Proof. apply Qpower_plus. discriminate. Qed.

Lemma pow2_le a b : (a <= b)%Z -> pow2 a <= pow2 b.
Proof. intros H. apply Qpower_le_compat_l; [exact H | discriminate]. Qed.

Lemma pow2_lt a b : (a < b)%Z -> pow2 a < pow2 b.
Proof. intros H. apply Qpower_lt_compat_l; [exact H | reflexivity]. Qed.

Lemma pow2_Z n : (0 <= n)%Z -> pow2 n == inject_Z (2 ^ n).
Proof. intros H. unfold pow2. rewrite Zpower_Qpower by exact H. reflexivity. Qed.

Lemma pow2_log2 (a : Z) :
  (0 < a)%Z -> pow2 (Z.log2 a) <= inject_Z a /\ inject_Z a < pow2 (Z.log2 a + 1).
Proof.
  intros Ha. destruct (Z.log2_spec a Ha) as [H1 H2].
  pose proof (Z.log2_nonneg a) as Hn.
  rewrite !pow2_Z by lia. rewrite <- Zle_Qle, <- Zlt_Qlt.
  replace (Z.log2 a + 1)%Z with (Z.succ (Z.log2 a)) by lia. auto.
Qed.

Lemma Qlog2_spec q : 0 < q -> pow2 (Qlog2 q) <= q /\ q < pow2 (Qlog2 q + 1).
Proof.
  intros Hq. destruct q as [a b].
  assert (0 < a)%Z as Ha by (unfold Qlt in Hq; simpl in Hq; lia).
  destruct (pow2_log2 a Ha) as [A1 A2].
  destruct (pow2_log2 (Zpos b) eq_refl) as [B1 B2].
  assert (inject_Z a == (a # b) * inject_Z (Zpos b)) as Hab.
  { unfold Qeq, Qmult, inject_Z. simpl. lia. }
  set (la := Z.log2 a) in *. set (lb := Z.log2 (Zpos b)) in *.
  assert (pow2 (la - lb + 1) * pow2 lb == pow2 (la + 1)) as E1.
  { rewrite <- pow2_plus. replace (la - lb + 1 + lb)%Z with (la + 1)%Z by lia. reflexivity. }
  assert (pow2 (la - lb - 1) * pow2 (lb + 1) == pow2 la) as E2.
  { rewrite <- pow2_plus. replace (la - lb - 1 + (lb + 1))%Z with la by lia. reflexivity. }
  assert (pow2 (la - lb - 1) <= (a # b)) as Hlow.
  { destruct (Qlt_le_dec (a # b) (pow2 (la - lb - 1))) as [Hc|Hc]; [|exact Hc].
    exfalso. pose proof (pow2_pos (lb + 1)). pose proof (pow2_pos (la - lb - 1)).
    assert ((a # b) * inject_Z (Zpos b) < pow2 (la - lb - 1) * pow2 (lb + 1)) by nra.
    rewrite <- Hab, E2 in H1. lra. }
  assert ((a # b) < pow2 (la - lb + 1)) as Hhigh.
  { destruct (Qlt_le_dec (a # b) (pow2 (la - lb + 1))) as [Hc|Hc]; [exact Hc|].
    exfalso. pose proof (pow2_pos lb). pose proof (pow2_pos (la - lb + 1)).
    assert (pow2 (la - lb + 1) * pow2 lb <= (a # b) * inject_Z (Zpos b)) by nra.
    rewrite <- Hab, E1 in H1. lra. }
  unfold Qlog2. cbn [Qnum Qden]. fold la lb.
  destruct (Qle_bool (pow2 (la - lb)) (a # b)) eqn:E.
  - apply Qle_bool_iff in E. split; [exact E | exact Hhigh].
  - split; [exact Hlow|].
    replace (la - lb - 1 + 1)%Z with (la - lb)%Z by lia.
    apply Qnot_le_lt. intros Hc. apply Qle_bool_iff in Hc. congruence.
Qed.

Lemma Qlog2_unique q (l : Z) : pow2 l <= q -> q < pow2 (l + 1) -> Qlog2 q = l.
Proof.
  intros H1 H2.
  assert (0 < q) as Hq by (pose proof (pow2_pos l); lra).
  destruct (Qlog2_spec q Hq) as [S1 S2].
  destruct (Z.lt_trichotomy (Qlog2 q) l) as [Hc|[Hc|Hc]]; [|exact Hc|]; exfalso.
  - assert (pow2 (Qlog2 q + 1) <= pow2 l) by (apply pow2_le; lia). lra.
  - assert (pow2 (l + 1) <= pow2 (Qlog2 q)) by (apply pow2_le; lia). lra.
Qed.

Lemma Qlog2_comp q q' : q == q' -> 0 < q -> Qlog2 q = Qlog2 q'.
Proof.
  intros E Hq. symmetry. destruct (Qlog2_spec q Hq) as [S1 S2].
  apply Qlog2_unique; rewrite <- E; assumption.
Qed.

Lemma Qlog2_monotone q1 q2 : 0 < q1 -> q1 <= q2 -> (Qlog2 q1 <= Qlog2 q2)%Z.
Proof.
  intros H1 H12. assert (0 < q2) as H2 by lra.
  destruct (Qlog2_spec q1 H1) as [A1 A2]. destruct (Qlog2_spec q2 H2) as [B1 B2].
  destruct (Z_le_gt_dec (Qlog2 q1) (Qlog2 q2)) as [H|H]; [exact H|]. exfalso.
  assert (pow2 (Qlog2 q2 + 1) <= pow2 (Qlog2 q1)) by (apply pow2_le; lia). lra.
Qed.

Lemma roundEven_comp q q' : q == q' -> roundEven q = roundEven q'.
Proof.
  intros E. unfold roundEven. rewrite (Qfloor_comp _ _ E).
  assert (q - inject_Z (Qfloor q') == q' - inject_Z (Qfloor q')) as E' by (rewrite E; reflexivity).
  rewrite (Qcompare_comp _ _ E' _ _ (Qeq_refl (1 # 2))). reflexivity.
Qed.

Lemma roundEven_floor q : (Qfloor q <= roundEven q <= Qfloor q + 1)%Z.
Proof.
  unfold roundEven.
  destruct (Qcompare (q - inject_Z (Qfloor q)) (1 # 2)); [destruct (Z.even (Qfloor q))| |]; lia.
Qed.

Lemma roundEven_Z z : roundEven (inject_Z z) = z.
Proof.
  unfold roundEven. rewrite Qfloor_Z.
  assert (Qcompare (inject_Z z - inject_Z z) (1 # 2) = Lt) as ->; [|reflexivity].
  rewrite <- Qlt_alt. lra.
Qed.

Lemma roundEven_monotone q1 q2 : q1 <= q2 -> (roundEven q1 <= roundEven q2)%Z.
Proof.
  intros H. pose proof (Qfloor_resp_le _ _ H) as Hf.
  destruct (Z.eq_dec (Qfloor q1) (Qfloor q2)) as [E|Hne].
  - unfold roundEven. rewrite <- E.
    destruct (Qcompare (q1 - inject_Z (Qfloor q1)) (1 # 2)) eqn:C1;
      destruct (Qcompare (q2 - inject_Z (Qfloor q1)) (1 # 2)) eqn:C2;
      try (destruct (Z.even (Qfloor q1))); try lia; exfalso;
      repeat match goal with
             | C : Qcompare _ _ = Eq |- _ => apply (proj2 (Qeq_alt _ _)) in C
             | C : Qcompare _ _ = Lt |- _ => apply (proj2 (Qlt_alt _ _)) in C
             | C : Qcompare _ _ = Gt |- _ => apply (proj2 (Qgt_alt _ _)) in C
             end; lra.
  - pose proof (roundEven_floor q1). pose proof (roundEven_floor q2). lia.
Qed.

Lemma roundEven_le q z : q <= inject_Z z -> (roundEven q <= z)%Z.
Proof. intros H. rewrite <- (roundEven_Z z). apply roundEven_monotone, H. Qed.

Lemma roundEven_ge q z : inject_Z z <= q -> (z <= roundEven q)%Z.
Proof. intros H. rewrite <- (roundEven_Z z). apply roundEven_monotone, H. Qed.

(** Rounding a positive rational to 53 significant bits. *)
Lemma nearest_unfold q :
  nearest q = inject_Z (roundEven (q / pow2 (ulpExp q))) * pow2 (ulpExp q).
Proof. reflexivity. Qed.

Lemma nearest_comp q q' : q == q' -> 0 < q -> nearest q = nearest q'.
Proof.
  intros E Hq. rewrite !nearest_unfold. unfold ulpExp. rewrite (Qlog2_comp _ _ E Hq).
  f_equal. f_equal. apply roundEven_comp. rewrite E. reflexivity.
Qed.

Lemma div_pow2_le q1 q2 e : q1 <= q2 -> q1 / pow2 e <= q2 / pow2 e.
Proof.
  intros H. pose proof (pow2_pos e). unfold Qdiv.
  apply Qmult_le_compat_r; [exact H|]. apply Qlt_le_weak, Qinv_lt_0_compat. assumption.
Qed.

Lemma div_pow2 a b : pow2 a / pow2 b == pow2 (a - b).
Proof. unfold pow2. rewrite Qpower_minus by discriminate. reflexivity. Qed.

Lemma nearest_nonneg q : 0 < q -> 0 <= nearest q.
Proof.
  intros Hq. rewrite nearest_unfold. pose proof (pow2_pos (ulpExp q)).
  assert (0 <= roundEven (q / pow2 (ulpExp q)))%Z as Hn.
  { apply roundEven_ge. change (inject_Z 0) with 0. apply Qlt_le_weak.
    apply Qlt_shift_div_l; [assumption | lra]. }
  apply Qmult_le_0_compat; [|lra]. change 0 with (inject_Z 0). rewrite <- Zle_Qle. exact Hn.
Qed.

Lemma nearest_monotone q1 q2 : 0 < q1 -> q1 <= q2 -> nearest q1 <= nearest q2.
Proof.
  intros H1 H12. assert (0 < q2) as H2 by lra.
  rewrite !nearest_unfold.
  pose proof (Qlog2_monotone _ _ H1 H12) as Hl.
  assert (ulpExp q1 <= ulpExp q2)%Z as He by (unfold ulpExp; lia).
  set (e1 := ulpExp q1) in *. set (e2 := ulpExp q2) in *.
  pose proof (pow2_pos e1) as P1. pose proof (pow2_pos e2) as P2.
  destruct (Z.eq_dec e1 e2) as [E|Hne].
  - rewrite <- E in *.
    apply Qmult_le_compat_r; [|lra]. rewrite <- Zle_Qle.
    apply roundEven_monotone, div_pow2_le, H12.
  - assert (e1 + 1 <= e2)%Z as Hlt by lia.
    destruct (Qlog2_spec q1 H1) as [_ A2]. destruct (Qlog2_spec q2 H2) as [B1 _].
    assert (roundEven (q1 / pow2 e1) <= 2 ^ 53)%Z as N1.
    { apply roundEven_le. rewrite <- pow2_Z by lia.
      apply Qlt_le_weak, Qlt_shift_div_r; [exact P1|].
      rewrite <- pow2_plus.
      assert (pow2 (Qlog2 q1 + 1) <= pow2 (53 + e1)) by (apply pow2_le; unfold e1, ulpExp; lia).
      lra. }
    assert (2 ^ 52 <= roundEven (q2 / pow2 e2))%Z as N2.
    { apply roundEven_ge. rewrite <- pow2_Z by lia.
      apply Qle_shift_div_l; [exact P2|]. rewrite <- pow2_plus.
      assert (pow2 (52 + e2) <= pow2 (Qlog2 q2)) by (apply pow2_le; unfold e2, ulpExp in *; lia).
      lra. }
    rewrite Zle_Qle in N1, N2. rewrite <- !pow2_Z in N1, N2 by lia.
    assert (pow2 53 * pow2 e1 <= pow2 52 * pow2 e2) as Hmid.
    { rewrite <- !pow2_plus. apply pow2_le. lia. }
    assert (inject_Z (roundEven (q1 / pow2 e1)) * pow2 e1 <= pow2 53 * pow2 e1) by nra.
    assert (pow2 52 * pow2 e2 <= inject_Z (roundEven (q2 / pow2 e2)) * pow2 e2) by nra.
    lra.
Qed.

(** A number with at most 53 significant bits and an exponent in range is
    its own nearest double. *)
Lemma nearest_exact (m k : Z) :
  (0 < m < 2 ^ 53)%Z -> (-1074 <= k)%Z -> nearest (inject_Z m * pow2 k) == inject_Z m * pow2 k.
Proof.
  intros Hm Hk. set (q := inject_Z m * pow2 k).
  pose proof (pow2_pos k) as Pk.
  assert (0 < inject_Z m) as Hm0 by (change 0 with (inject_Z 0); rewrite <- Zlt_Qlt; lia).
  assert (0 < q) as Hq by (unfold q; nra).
  destruct (Qlog2_spec q Hq) as [S1 S2].
  assert (q < pow2 (53 + k)) as Hup.
  { rewrite pow2_plus. rewrite (pow2_Z 53) by lia. unfold q.
    assert (inject_Z m < inject_Z (2 ^ 53)) by (rewrite <- Zlt_Qlt; lia). nra. }
  assert (Qlog2 q < 53 + k)%Z as Hl.
  { destruct (Z_lt_ge_dec (Qlog2 q) (53 + k)) as [H|H]; [exact H|]. exfalso.
    assert (pow2 (53 + k) <= pow2 (Qlog2 q)) by (apply pow2_le; lia). lra. }
  rewrite nearest_unfold.
  assert (ulpExp q <= k)%Z as He by (unfold ulpExp; lia).
  set (e := ulpExp q) in *. pose proof (pow2_pos e) as Pe.
  assert (q / pow2 e == inject_Z (m * 2 ^ (k - e))) as E.
  { unfold q. rewrite inject_Z_mult, <- pow2_Z by lia. rewrite <- div_pow2. field.
    intros H. rewrite H in Pe. lra. }
  rewrite (roundEven_comp _ _ E), roundEven_Z.
  rewrite inject_Z_mult, <- pow2_Z by lia. unfold q.
  rewrite <- Qmult_assoc, <- pow2_plus. replace (k - e + e)%Z with k by lia. reflexivity.
Qed.

(** Rounding with the sign and the overflow. *)

Lemma doublePos_comp q q' : q == q' -> 0 < q -> doublePos q = doublePos q'.
Proof. intros E Hq. unfold doublePos. rewrite (nearest_comp _ _ E Hq). reflexivity. Qed.

Lemma double_comp q q' : q == q' -> double q = double q'.
Proof.
  intros E. unfold double.
  rewrite (Qcompare_comp _ _ E _ _ (Qeq_refl 0)).
  destruct (Qcompare q' 0) eqn:C; [reflexivity| |].
  - apply (proj2 (Qlt_alt _ _)) in C. f_equal. apply doublePos_comp; [rewrite E; reflexivity | lra].
  - apply (proj2 (Qgt_alt _ _)) in C. apply doublePos_comp; [exact E | lra].
Qed.

Lemma doublePos_cases q :
  0 < q ->
  (doublePos q = PosInf /\ pow2 1024 <= nearest q)
  \/ (doublePos q = Fin (nearest q) /\ nearest q < pow2 1024).
Proof.
  intros Hq. unfold doublePos. destruct (Qle_bool (pow2 1024) (nearest q)) eqn:E.
  - left. split; [reflexivity | apply Qle_bool_iff, E].
  - right. split; [reflexivity|]. apply Qnot_le_lt. intros H. apply Qle_bool_iff in H. congruence.
Qed.

Lemma doublePos_monotone q1 q2 : 0 < q1 -> q1 <= q2 -> leq (doublePos q1) (doublePos q2).
Proof.
  intros H1 H12. assert (0 < q2) as H2 by lra.
  pose proof (nearest_monotone _ _ H1 H12) as Hn.
  destruct (doublePos_cases q1 H1) as [[-> A]|[-> A]];
    destruct (doublePos_cases q2 H2) as [[-> B]|[-> B]]; simpl; auto; lra.
Qed.

Lemma doublePos_nonneg q : 0 < q -> leq (Fin 0) (doublePos q).
Proof.
  intros Hq. pose proof (nearest_nonneg q Hq).
  destruct (doublePos_cases q Hq) as [[-> _]|[-> _]]; simpl; auto.
Qed.

Lemma leq_neg x y : leq x y -> leq (neg y) (neg x).
Proof. destruct x, y; simpl; auto. intros H. lra. Qed.

Lemma leq_trans x y z : leq x y -> leq y z -> leq x z.
Proof. destruct x, y, z; simpl; auto; try tauto. intros. lra. Qed.

Lemma double_cases q :
  (q == 0 /\ double q = Fin 0)
  \/ (0 < q /\ double q = doublePos q)
  \/ (q < 0 /\ double q = neg (doublePos (- q))).
Proof.
  unfold double. destruct (Qcompare q 0) eqn:C.
  - left. split; [apply Qeq_alt, C | reflexivity].
  - right. right. split; [apply Qlt_alt, C | reflexivity].
  - right. left. split; [apply Qgt_alt, C | reflexivity].
Qed.

Lemma double_monotone q1 q2 : q1 <= q2 -> leq (double q1) (double q2).
Proof.
  intros H.
  destruct (double_cases q1) as [[A ->]|[[A ->]|[A ->]]];
    destruct (double_cases q2) as [[B ->]|[[B ->]|[B ->]]]; try (exfalso; lra).
  - simpl. lra.
  - apply doublePos_nonneg, B.
  - apply doublePos_monotone; assumption.
  - apply (leq_neg (Fin 0)). apply doublePos_nonneg. lra.
  - apply (leq_trans _ (Fin 0)).
    + apply (leq_neg (Fin 0)). apply doublePos_nonneg. lra.
    + apply doublePos_nonneg, B.
  - apply leq_neg, doublePos_monotone; lra.
Qed.

Lemma double_not_NaN q : double q <> NaN.
Proof.
  destruct (double_cases q) as [[A ->]|[[A ->]|[A ->]]]; [discriminate| |].
  - destruct (doublePos_cases q A) as [[-> _]|[-> _]]; discriminate.
  - assert (0 < - q) as A' by lra.
    destruct (doublePos_cases (- q) A') as [[-> _]|[-> _]]; discriminate.
Qed.

Lemma pow2_53_1024 : inject_Z (2 ^ 53) < pow2 1024.
Proof. rewrite <- pow2_Z by lia. apply pow2_lt. lia. Qed.

(** Integers of absolute value below 2^53 are doubles. *)
Lemma double_Z z :
  (Z.abs z < 2 ^ 53)%Z -> exists r, double (inject_Z z) = Fin r /\ r == inject_Z z.
Proof.
  intros Hz. pose proof pow2_53_1024 as Hbig.
  assert (forall m, (0 < m < 2 ^ 53)%Z ->
            exists r, doublePos (inject_Z m) = Fin r /\ r == inject_Z m) as Hpos.
  { intros m Hm.
    assert (0 < inject_Z m) as Hm0 by (change 0 with (inject_Z 0); rewrite <- Zlt_Qlt; lia).
    assert (inject_Z m == inject_Z m * pow2 0) as E by (unfold pow2; simpl; ring).
    assert (nearest (inject_Z m) == inject_Z m) as Hex.
    { rewrite (nearest_comp _ _ E Hm0), (nearest_exact m 0 Hm ltac:(lia)).
      symmetry. exact E. }
    destruct (doublePos_cases _ Hm0) as [[_ A]|[-> A]].
    - exfalso. rewrite Hex in A.
      assert (inject_Z m < inject_Z (2 ^ 53)) by (rewrite <- Zlt_Qlt; lia). lra.
    - exists (nearest (inject_Z m)). split; [reflexivity | exact Hex]. }
  destruct (double_cases (inject_Z z)) as [[A ->]|[[A ->]|[A ->]]].
  - exists 0. split; [reflexivity | rewrite A; reflexivity].
  - apply Hpos. change 0 with (inject_Z 0) in A. rewrite <- Zlt_Qlt in A. lia.
  - change 0 with (inject_Z 0) in A. rewrite <- Zlt_Qlt in A.
    destruct (Hpos (- z)%Z ltac:(lia)) as (r & Hr & Er).
    rewrite <- inject_Z_opp, Hr. exists (- r). split; [reflexivity|].
    rewrite Er, inject_Z_opp. ring.
Qed.

(** The nearest integer is within a half. *)
Lemma roundEven_error q : Qabs (inject_Z (roundEven q) - q) <= 1 # 2.
Proof.
  pose proof (Qfloor_le q) as Hlo. pose proof (Qlt_floor q) as Hhi.
  rewrite inject_Z_plus in Hhi. change (inject_Z 1) with 1 in Hhi.
  apply Qabs_Qle_condition. unfold roundEven.
  destruct (Qcompare (q - inject_Z (Qfloor q)) (1 # 2)) eqn:C.
  - apply Qeq_alt in C.
    destruct (Z.even (Qfloor q)); rewrite ?inject_Z_plus; change (inject_Z 1) with 1;
      split; lra.
  - apply (proj2 (Qlt_alt _ _)) in C. split; lra.
  - apply (proj2 (Qgt_alt _ _)) in C. rewrite inject_Z_plus. change (inject_Z 1) with 1.
    split; lra.
Qed.

(** A rounded number is within half a unit in the last place. *)
Lemma nearest_error q : 0 < q -> Qabs (nearest q - q) <= pow2 (ulpExp q) * (1 # 2).
Proof.
  intros Hq. rewrite nearest_unfold. set (e := ulpExp q). pose proof (pow2_pos e) as Pe.
  pose proof (roundEven_error (q / pow2 e)) as H.
  apply Qabs_Qle_condition in H as [H1 H2]. apply Qabs_Qle_condition.
  assert (q == q / pow2 e * pow2 e) as E by (field; lra).
  set (m := inject_Z (roundEven (q / pow2 e))) in *. set (x := q / pow2 e) in *.
  clearbody m x. split; nra.
Qed.

Lemma double_error q r :
  0 < q -> double q = Fin r -> Qabs (r - q) <= pow2 (ulpExp q) * (1 # 2).
Proof.
  intros Hq E. destruct (double_cases q) as [[C _]|[[_ D]|[C _]]]; try lra.
  rewrite D in E. destruct (doublePos_cases q Hq) as [[A _]|[A _]]; rewrite A in E.
  - discriminate.
  - injection E as <-. apply nearest_error, Hq.
Qed.

Lemma double_between (lo hi : Z) q :
  (Z.abs lo < 2 ^ 53)%Z -> (Z.abs hi < 2 ^ 53)%Z ->
  inject_Z lo <= q -> q <= inject_Z hi -> between lo hi (double q).
Proof.
  intros Hlo Hhi H1 H2.
  destruct (double_Z lo Hlo) as (a & Ea & Ha). destruct (double_Z hi Hhi) as (b & Eb & Hb).
  pose proof (double_monotone _ _ H1) as M1. pose proof (double_monotone _ _ H2) as M2.
  rewrite Ea in M1. rewrite Eb in M2.
  clear Hlo Hhi Ea Eb. destruct (double q); simpl in *; try tauto. split; lra.
Qed.

Lemma same_refl x : same x x.
Proof. destruct x; simpl; reflexivity. Qed.

Lemma same_sym x y : same x y -> same y x.
Proof. destruct x, y; simpl; congruence. Qed.

Lemma same_trans x y z : same x y -> same y z -> same x z.
Proof. destruct x, y, z; simpl; try congruence. apply Qeq_trans. Qed.

Lemma same_neg x y : same x y -> same (neg x) (neg y).
Proof. destruct x, y; simpl; try congruence. intros H. rewrite H. reflexivity. Qed.

Lemma neg_neg x : same (neg (neg x)) x.
Proof. destruct x; simpl; try reflexivity. ring. Qed.

(** A rounded number has at most 53 significant bits. *)
Lemma nearest_form q :
  0 < q ->
  nearest q == 0
  \/ exists m k, (0 < m < 2 ^ 53)%Z /\ (-1074 <= k)%Z /\ nearest q == inject_Z m * pow2 k.
Proof.
  intros Hq. rewrite nearest_unfold. set (e := ulpExp q).
  pose proof (pow2_pos e) as Pe. destruct (Qlog2_spec q Hq) as [S1 S2].
  assert (-1074 <= e)%Z as He by (unfold e, ulpExp; lia).
  assert (q / pow2 e <= inject_Z (2 ^ 53)) as Hup.
  { rewrite <- pow2_Z by lia. apply Qle_shift_div_r; [exact Pe|].
    rewrite <- pow2_plus.
    assert (pow2 (Qlog2 q + 1) <= pow2 (53 + e)) by (apply pow2_le; unfold e, ulpExp; lia).
    lra. }
  assert (0 <= q / pow2 e) as Hlow by (apply Qle_shift_div_l; [exact Pe | lra]).
  pose proof (roundEven_le _ _ Hup) as Mle.
  pose proof (roundEven_ge _ 0 Hlow) as Mge.
  set (m := roundEven (q / pow2 e)) in *.
  destruct (Z.eq_dec m 0%Z) as [E0|N0]; [left; rewrite E0; ring|].
  right. destruct (Z.eq_dec m (2 ^ 53)%Z) as [E|N].
  - exists (2 ^ 52)%Z, (e + 1)%Z. split; [lia|]. split; [lia|].
    rewrite E, pow2_plus. change (2 ^ 53)%Z with (2 ^ 52 * 2)%Z.
    rewrite inject_Z_mult. change (pow2 1) with (inject_Z 2). ring.
  - exists m, e. split; [lia|]. split; [lia | reflexivity].
Qed.

Lemma doublePos_idem q r : 0 < q -> doublePos q = Fin r -> same (double r) (Fin r).
Proof.
  intros Hq E. destruct (doublePos_cases q Hq) as [[A _]|[A B]]; [congruence|].
  rewrite A in E. injection E as <-.
  destruct (nearest_form q Hq) as [Z0|(m & k & Hm & Hk & F)].
  - rewrite (double_comp _ 0 Z0). simpl. symmetry. exact Z0.
  - pose proof (pow2_pos k) as Pk.
    assert (0 < inject_Z m) as Hm0 by (change 0 with (inject_Z 0); rewrite <- Zlt_Qlt; lia).
    assert (0 < inject_Z m * pow2 k) as Hpos by nra.
    rewrite (double_comp _ _ F).
    destruct (double_cases (inject_Z m * pow2 k)) as [[C _]|[[_ ->]|[C _]]]; try lra.
    pose proof (nearest_exact m k Hm Hk) as Ex.
    destruct (doublePos_cases _ Hpos) as [[_ D]|[-> _]].
    + exfalso. rewrite Ex, <- F in D. lra.
    + simpl. rewrite Ex. symmetry. exact F.
Qed.

Lemma double_opp q : same (double (- q)) (neg (double q)).
Proof.
  destruct (double_cases q) as [[A ->]|[[A ->]|[A ->]]].
  - assert (- q == 0) as E by lra. rewrite (double_comp _ _ E). reflexivity.
  - destruct (double_cases (- q)) as [[C _]|[[C _]|[_ ->]]]; try lra.
    rewrite (doublePos_comp (- - q) q); [apply same_refl | ring | lra].
  - destruct (double_cases (- q)) as [[C _]|[[_ ->]|[C _]]]; try lra.
    apply same_sym, neg_neg.
Qed.

Lemma double_idem q r : double q = Fin r -> same (double r) (Fin r).
Proof.
  intros E. destruct (double_cases q) as [[A B]|[[A B]|[A B]]]; rewrite B in E.
  - injection E as <-. reflexivity.
  - apply (doublePos_idem q r A E).
  - assert (0 < - q) as A' by lra.
    destruct (doublePos (- q)) as [| | |r0] eqn:D; try discriminate.
    simpl in E. injection E as <-.
    apply (same_trans _ (neg (double r0))); [apply double_opp|].
    apply (same_neg _ (Fin r0)), (doublePos_idem (- q) r0 A' D).
Qed.

(** *** Sums, products and quotients within bounds *)

Lemma add_between (a b c d : Z) x y :
  (Z.abs (a + c) < 2 ^ 53)%Z -> (Z.abs (b + d) < 2 ^ 53)%Z ->
  between a b x -> between c d y -> between (a + c) (b + d) (add x y).
Proof.
  intros Hlo Hhi Hx Hy. destruct x as [| | |p], y as [| | |q]; try contradiction.
  destruct Hx, Hy. cbn [add]. apply double_between; auto; rewrite inject_Z_plus; lra.
Qed.

Lemma sub_between (a b c d : Z) x y :
  (Z.abs (a - d) < 2 ^ 53)%Z -> (Z.abs (b - c) < 2 ^ 53)%Z ->
  between a b x -> between c d y -> between (a - d) (b - c) (sub x y).
Proof.
  intros Hlo Hhi Hx Hy. destruct x as [| | |p], y as [| | |q]; try contradiction.
  destruct Hx, Hy. unfold sub. cbn [neg add].
  apply double_between; auto; unfold Z.sub; rewrite inject_Z_plus, inject_Z_opp; lra.
Qed.

Lemma inject_Z_pos z : (0 < z)%Z -> 0 < inject_Z z.
Proof. intros H. change 0 with (inject_Z 0). rewrite <- Zlt_Qlt. exact H. Qed.

Lemma Qeq_bool_inject_Z z : (0 < z)%Z -> Qeq_bool (inject_Z z) 0 = false.
Proof.
  intros H. destruct (Qeq_bool (inject_Z z) 0) eqn:E; [|reflexivity].
  apply Qeq_bool_eq in E. pose proof (inject_Z_pos z H). lra.
Qed.

Lemma div_between (lo hi z : Z) x :
  (0 < z)%Z -> (Z.abs lo < 2 ^ 53)%Z -> (Z.abs hi < 2 ^ 53)%Z ->
  between (lo * z) (hi * z) x -> between lo hi (div x (ofZ z)).
Proof.
  intros Hz Hlo Hhi Hx. destruct x as [| | |p]; try contradiction. destruct Hx as [H1 H2].
  unfold div, ofZ. rewrite (Qeq_bool_inject_Z z Hz).
  pose proof (inject_Z_pos z Hz) as Pz. rewrite inject_Z_mult in H1, H2.
  apply double_between; auto.
  - apply Qle_shift_div_l; assumption.
  - apply Qle_shift_div_r; assumption.
Qed.

Lemma mul_between (hi z : Z) x :
  (0 <= z)%Z -> (0 <= hi)%Z -> (hi * z < 2 ^ 53)%Z ->
  between 0 hi x -> between 0 (hi * z) (mul x (ofZ z)).
Proof.
  intros Hz Hhi Hb Hx. destruct x as [| | |p]; try contradiction. destruct Hx as [H1 H2].
  unfold mul, ofZ. change (inject_Z 0) with 0 in H1.
  assert (0 <= inject_Z z) as Pz by (change 0 with (inject_Z 0); rewrite <- Zle_Qle; exact Hz).
  apply double_between; [reflexivity | lia | |].
  - change (inject_Z 0) with 0. nra.
  - rewrite inject_Z_mult. nra.
Qed.

Lemma ratio_between (a n : Z) :
  (0 <= a <= n)%Z -> (0 < n)%Z -> between 0 1 (div (ofZ a) (ofZ n)).
Proof.
  intros [H1 H2] Hn. unfold div, ofZ. rewrite (Qeq_bool_inject_Z n Hn).
  pose proof (inject_Z_pos n Hn) as Pn.
  assert (0 <= inject_Z a) by (change 0 with (inject_Z 0); rewrite <- Zle_Qle; exact H1).
  assert (inject_Z a <= inject_Z n) by (rewrite <- Zle_Qle; exact H2).
  apply double_between; [reflexivity | reflexivity | |].
  - apply Qle_shift_div_l; [assumption | change (inject_Z 0) with 0; lra].
  - apply Qle_shift_div_r; [assumption | change (inject_Z 1) with 1; lra].
Qed.

Lemma Qround_le (z : Z) (v : Q) : v <= inject_Z z -> (Qround v <= z)%Z.
Proof.
  intros H. unfold Qround. pose proof (Qfloor_le (v + (1 # 2))) as F.
  assert (inject_Z (Qfloor (v + (1 # 2))) < inject_Z (z + 1)) as L
    by (rewrite inject_Z_plus; change (inject_Z 1) with 1; lra).
  rewrite <- Zlt_Qlt in L. lia.
Qed.

Lemma Qround_ge (z : Z) (v : Q) : inject_Z z <= v -> (z <= Qround v)%Z.
Proof.
  intros H. unfold Qround. rewrite <- (Qfloor_Z z). apply Qfloor_resp_le. lra.
Qed.

Lemma Qround_monotone (p q : Q) : p <= q -> (Qround p <= Qround q)%Z.
Proof. intros H. unfold Qround. apply Qfloor_resp_le. lra. Qed.

Lemma round_between (lo hi : Z) x :
  between lo hi x -> exists z, round x = ofZ z /\ (lo <= z <= hi)%Z.
Proof.
  destruct x as [| | |q]; try contradiction. intros [H1 H2].
  exists (Qround q). split; [reflexivity|]. split; [apply Qround_ge | apply Qround_le]; assumption.
Qed.

Lemma between_finite (lo hi : Z) x : between lo hi x -> finite x.
Proof. destruct x as [| | |q]; try contradiction. intros _. exists q. reflexivity. Qed.

(** *** Order *)

Lemma leq_NegInf x : x <> NaN -> leq NegInf x.
Proof. destruct x; simpl; intros H; try exact I. congruence. Qed.

Lemma leq_PosInf x : x <> NaN -> leq x PosInf.
Proof. destruct x; simpl; intros H; try exact I. congruence. Qed.

Lemma leq_ofZ (a b : Z) : (a <= b)%Z -> leq (ofZ a) (ofZ b).
Proof. intros H. simpl. rewrite <- Zle_Qle. exact H. Qed.

Lemma leq_not_NaN x y : leq x y -> x <> NaN /\ y <> NaN.
Proof. destruct x, y; simpl; intros H; try contradiction; split; discriminate. Qed.

Lemma add_monotone x x' y : finite y -> leq x x' -> leq (add x y) (add x' y).
Proof.
  intros [q ->] H. destruct x as [| | |a], x' as [| | |a']; try contradiction; cbn [add].
  - exact I.
  - exact I.
  - exact I.
  - apply leq_NegInf, double_not_NaN.
  - apply leq_PosInf, double_not_NaN.
  - apply double_monotone. simpl in H. lra.
Qed.

Lemma div3_monotone x x' : leq x x' -> leq (div x (ofZ 3)) (div x' (ofZ 3)).
Proof.
  intros H. destruct x as [| | |a], x' as [| | |a']; try contradiction;
    unfold div, ofZ; rewrite (Qeq_bool_inject_Z 3) by lia; cbn [sign inf_of_sign Z.mul Qsgn].
  - exact I.
  - exact I.
  - exact I.
  - apply leq_NegInf, double_not_NaN.
  - apply leq_PosInf, double_not_NaN.
  - apply double_monotone. simpl in H.
    unfold Qdiv. change (/ inject_Z 3) with (1 # 3). lra.
Qed.

Lemma round_monotone x y : leq x y -> leq (round x) (round y).
Proof.
  destruct x as [| | |p], y as [| | |q]; simpl; auto. intros H.
  rewrite <- Zle_Qle. apply Qround_monotone, H.
Qed.

Lemma add_not_NaN x y : x <> NaN -> finite y -> add x y <> NaN.
Proof.
  intros Hx [q ->]. destruct x as [| | |p]; cbn [add]; try congruence.
  apply double_not_NaN.
Qed.

Lemma div3_not_NaN x : x <> NaN -> div x (ofZ 3) <> NaN.
Proof.
  intros Hx. destruct x as [| | |p]; try congruence; unfold div, ofZ;
    rewrite (Qeq_bool_inject_Z 3) by lia; try discriminate.
  apply double_not_NaN.
Qed.

End Binary64.

(** *** Integers *)

Lemma Qltb_inject_Z (a b : Z) : Qltb (inject_Z a) (inject_Z b) = (a <? b)%Z.
Proof.
  unfold Qltb, Qle_bool. simpl. rewrite !Z.mul_1_r.
  rewrite Z.ltb_antisym. reflexivity.
Qed.

Lemma ltb_ofZ (a b : Z) : ltb (ofZ a) (ofZ b) = (a <? b)%Z.
Proof. apply Qltb_inject_Z. Qed.

Lemma min_ofZ (a b : Z) : min (ofZ a) (ofZ b) = ofZ (Z.min a b).
Proof.
  change (min (ofZ a) (ofZ b)) with (if ltb (ofZ b) (ofZ a) then ofZ b else ofZ a).
  rewrite ltb_ofZ. destruct (Z.ltb_spec b a); f_equal; lia.
Qed.

Lemma max_ofZ (a b : Z) : max (ofZ a) (ofZ b) = ofZ (Z.max a b).
Proof.
  change (max (ofZ a) (ofZ b)) with (if ltb (ofZ a) (ofZ b) then ofZ b else ofZ a).
  rewrite ltb_ofZ. destruct (Z.ltb_spec a b); f_equal; lia.
Qed.

Lemma between_ofZ (lo hi z : Z) : (lo <= z <= hi)%Z -> between lo hi (ofZ z).
Proof. intros [H1 H2]. simpl. rewrite <- !Zle_Qle. auto. Qed.

Lemma clamp_ofZ (lo hi z : Z) : clamp lo hi (ofZ z) = ofZ (Z.max lo (Z.min hi z)).
Proof. unfold clamp. rewrite min_ofZ, max_ofZ. reflexivity. Qed.

(** ** [isValid] *)

Lemma filter_length_zero {A} (p : A -> bool) (l : list A) :
  (length (List.filter p l) =? 0)%nat = true <-> forall x, In x l -> p x = false.
Proof.
  rewrite Nat.eqb_eq. induction l as [|a l IH]; simpl.
  - split; [intros _ x []|reflexivity].
  - destruct (p a) eqn:Ha; simpl.
    + split; [discriminate|]. intros H. specialize (H a (or_introl eq_refl)). congruence.
    + rewrite IH. split.
      * intros H x [<-|Hx]; auto.
      * intros H x Hx. apply H. auto.
Qed.

Lemma isError_false_iff (i : ValidationIssue) :
  Issue.isError i = false <-> Issue.type i <> error.
Proof. unfold Issue.isError. destruct (Issue.type i); split; congruence. Qed.

(** C1.  The result of [validateHTA] has [isValid = true] exactly when no
    issue of its [issues] list has type [error]. *)
Theorem validateHTA_isValid_iff_no_error (structure : list HTANode) (logger : Logger) :
  isValid (fst (validateHTA structure logger)) = true
  <-> forall i, In i (issues (fst (validateHTA structure logger))) -> Issue.type i <> error.
Proof.
  unfold validateHTA, conclude. cbn [fst isValid issues].
  rewrite filter_length_zero. split; intros H i Hi; apply isError_false_iff; auto.
Qed.

(** ** Score *)

Lemma forEach_deduction (issues : list ValidationIssue) (start : Z) :
  forEach (fun issue score => (score - deduction issue)%Z) issues start
  = (start - totalPenalty codePenalty issues)%Z.
Proof.
  unfold forEach. revert start. induction issues as [|i issues IH]; intros start; simpl.
  - lia.
  - rewrite IH. unfold totalPenalty. simpl.
    assert (deduction i = codePenalty i) as ->.
    { unfold deduction, codePenalty, Issue.isError.
      destruct (Issue.severity i), (Issue.type i); reflexivity. }
    lia.
Qed.

Lemma calculateScore_blendedScore issues metrics :
  calculateScore issues metrics = blendedScore codePenalty issues metrics.
Proof. unfold calculateScore, blendedScore, clamp. rewrite forEach_deduction. reflexivity. Qed.



(** *** Range of the score *)

Lemma finite_ofZ z : finite (ofZ z).
Proof. eexists; reflexivity. Qed.

(** The clamp turns an infinite blend into a bound; only [NaN] passes. *)
Lemma clamp_round x :
  x <> NaN -> exists a, clamp 0 100 (round x) = ofZ a /\ (0 <= a <= 100)%Z.
Proof.
  destruct x as [| | |q]; intros H.
  - congruence.
  - exists 100%Z. split; [reflexivity | lia].
  - exists 0%Z. split; [reflexivity | lia].
  - eexists. split; [apply clamp_ofZ | lia].
Qed.

Lemma ofZ_inj (a b : Z) : ofZ a = ofZ b -> a = b.
Proof. unfold ofZ, inject_Z. intros [= H]. exact H. Qed.

Lemma clamp_round_monotone x y (a b : Z) :
  leq x y -> clamp 0 100 (round x) = ofZ a -> clamp 0 100 (round y) = ofZ b -> (a <= b)%Z.
Proof.
  intros H Ea Eb.
  assert (forall z, clamp 0 100 (round (Fin z)) = ofZ (Z.max 0 (Z.min 100 (Qround z)))) as F
    by (intros; apply clamp_ofZ).
  destruct x as [| | |p], y as [| | |q]; try contradiction;
    rewrite ?F in Ea; rewrite ?F in Eb;
    try change (clamp 0 100 (round PosInf)) with (ofZ 100) in *;
    try change (clamp 0 100 (round NegInf)) with (ofZ 0) in *;
    apply ofZ_inj in Ea, Eb; subst; try lia.
  simpl in H. pose proof (Qround_monotone p q H). lia.
Qed.

Lemma blend_not_NaN (s : Z) x y :
  finite x -> finite y -> div (add (add (ofZ s) x) y) (ofZ 3) <> NaN.
Proof.
  intros Hx Hy. apply div3_not_NaN, add_not_NaN; [apply add_not_NaN|]; auto; discriminate.
Qed.

Lemma calculateScore_range issues metrics :
  finite (completeness metrics) -> finite (feasibility metrics) ->
  between 0 100 (calculateScore issues metrics).
Proof.
  intros Hc Hf. rewrite calculateScore_blendedScore. unfold blendedScore.
  destruct (clamp_round _ (blend_not_NaN (100 - totalPenalty codePenalty issues) _ _ Hc Hf))
    as (a & -> & Ha).
  apply between_ofZ. lia.
Qed.

Lemma Qltb_lt (a b : Q) : Qltb a b = true <-> (a < b)%Q.
Proof.
  unfold Qltb. rewrite negb_true_iff. split.
  - intros H. apply Qnot_le_lt. intros Hle. apply Qle_bool_iff in Hle. congruence.
  - intros H. destruct (Qle_bool b a) eqn:E; [|reflexivity].
    apply Qle_bool_iff in E. apply Qlt_not_le in H. contradiction.
Qed.

(** A total strictly between 0 and 2000 is a finite number. *)
Lemma budget_test (total : number) :
  gtb total (ofZ 0) && ltb total (ofZ 2000) = true
  <-> exists t, total = Fin t /\ (0 < t)%Q /\ (t < 2000)%Q.
Proof.
  split.
  - intros H. apply andb_true_iff in H as [H0 H1].
    destruct total as [| | |t]; try discriminate.
    exists t. split; [reflexivity|]. split; apply Qltb_lt; assumption.
  - intros (t & -> & H0 & H1). apply andb_true_iff. split; apply Qltb_lt; assumption.
Qed.

Lemma min_100 (lo : Z) y : between lo 100 y -> between lo 100 (min (ofZ 100) y).
Proof.
  destruct y as [| | |q]; try contradiction. intros H.
  change (min (ofZ 100) (Fin q)) with (if ltb (Fin q) (ofZ 100) then Fin q else ofZ 100).
  destruct (ltb (Fin q) (ofZ 100)); [exact H|].
  destruct H as [H1 H2]. split; [|apply Qle_refl]. eapply Qle_trans; eassumption.
Qed.

(** The feasibility of a total within the budget, before [Math.round]. *)
Lemma feasibility_between (t : Q) :
  (0 < t)%Q -> (t < 2000)%Q ->
  between 60 100 (min (ofZ 100) (sub (ofZ 100) (div (Fin t) (ofZ 50)))).
Proof.
  intros H0 H1. apply min_100.
  apply (sub_between 100 100 0 40); [reflexivity | reflexivity | apply between_ofZ; lia |].
  apply (div_between 0 40 50); [reflexivity | reflexivity | reflexivity |].
  split; [apply Qlt_le_weak, H0 | apply Qlt_le_weak, H1].
Qed.

Lemma feasibility_range (total : number) :
  exists f,
    round (if gtb total (ofZ 0) && ltb total (ofZ 2000)
           then min (ofZ 100) (sub (ofZ 100) (div total (ofZ 50))) else ofZ 50) = ofZ f
    /\ (gtb total (ofZ 0) && ltb total (ofZ 2000) = true /\ (60 <= f <= 100)%Z
        \/ gtb total (ofZ 0) && ltb total (ofZ 2000) = false /\ f = 50%Z).
Proof.
  destruct (gtb total (ofZ 0) && ltb total (ofZ 2000)) eqn:E.
  - apply budget_test in E as (t & -> & H0 & H1).
    destruct (round_between 60 100 _ (feasibility_between t H0 H1)) as (f & -> & Hf).
    exists f. auto.
  - exists 50%Z. split; [reflexivity | auto].
Qed.

Lemma ratio_percent_range (a n : Z) :
  (0 <= a <= n)%Z -> (0 < n)%Z ->
  exists c, round (mul (div (ofZ a) (ofZ n)) (ofZ 100)) = ofZ c /\ (0 <= c <= 100)%Z.
Proof.
  intros Ha Hn. apply (round_between 0 100).
  apply (mul_between 1 100); [lia | lia | reflexivity |].
  apply ratio_between; assumption.
Qed.

Lemma calculateMetrics_feasibility_finite nodes :
  finite (feasibility (calculateMetrics nodes)).
Proof.
  unfold calculateMetrics, metricsOf. cbn [feasibility].
  destruct (feasibility_range (calculateTotalEstimate nodes)) as (f & -> & _).
  apply finite_ofZ.
Qed.

Lemma completeness_range nodes :
  nodes <> [] ->
  exists c, completeness (calculateMetrics nodes) = ofZ c /\ (0 <= c <= 100)%Z.
Proof.
  intros Hne. unfold calculateMetrics, metricsOf. cbn [completeness]. unfold ofNat.
  apply ratio_percent_range.
  - pose proof (countNodesWithProperty_le nodes hasEstimatedHours).
    pose proof (countNodesWithProperty_le nodes hasDescription). lia.
  - destruct nodes as [|n rest]; [congruence|]. rewrite countNodes_cons. lia.
Qed.

Lemma calculateMetrics_completeness_finite nodes :
  nodes <> [] -> finite (completeness (calculateMetrics nodes)).
Proof.
  intros Hne. destruct (completeness_range nodes Hne) as (c & -> & _). apply finite_ofZ.
Qed.

(** On a forest with at least one node the score is within [0, 100]. *)
Lemma validateHTA_score_range_nonempty structure logger :
  structure <> [] -> between 0 100 (score (fst (validateHTA structure logger))).
Proof.
  intros Hne. unfold validateHTA. cbn [fst score].
  apply calculateScore_range;
    auto using calculateMetrics_completeness_finite, calculateMetrics_feasibility_finite.
Qed.

(** C3 at the empty forest: no node, so [completeness] is [0 / 0]; the
    blend and the clamp keep the [NaN], and the score is not a number between
    0 and 100. *)
Theorem validateHTA_score_empty_forest (logger : Logger) :
  score (fst (validateHTA [] logger)) = NaN
  /\ ~ between 0 100 (score (fst (validateHTA [] logger))).
Proof. split; [reflexivity | intros H; exact H]. Qed.

(** ** Passes only push *)

Lemma emits_refl Q issues : emits Q issues issues.
Proof. exists []. rewrite app_nil_r. auto. Qed.

Lemma emits_trans Q a b c : emits Q a b -> emits Q b c -> emits Q a c.
Proof.
  intros (n1 & -> & H1) (n2 & -> & H2). exists (n1 ++ n2).
  rewrite app_assoc. split; [reflexivity | apply Forall_app; auto].
Qed.

Lemma emits_push Q issues i : Q i -> emits Q issues (push issues i).
Proof. intros H. exists [i]. split; [reflexivity | auto]. Qed.

Lemma emits_push_if Q issues i (b : bool) :
  (b = true -> Q i) -> emits Q issues (if b then push issues i else issues).
Proof. destruct b; intros H; [apply emits_push; auto | apply emits_refl]. Qed.

Lemma emits_In Q before after i : emits Q before after -> In i before -> In i after.
Proof. intros (n & -> & _) H. apply in_or_app; auto. Qed.

Lemma emits_forEach {A} Q (f : A -> list ValidationIssue -> list ValidationIssue) l :
  (forall x issues, In x l -> emits Q issues (f x issues)) ->
  forall issues, emits Q issues (forEach f l issues).
Proof.
  unfold forEach. induction l as [|x l IH]; intros H issues; simpl; [apply emits_refl|].
  eapply emits_trans; [apply H; left; reflexivity|].
  apply IH. intros y issues' Hy. apply H. right; assumption.
Qed.

Lemma emits_traverseNodes Q (cb : HTANode -> list ValidationIssue -> list ValidationIssue)
    nodes :
  (forall node issues, In node (preorder nodes) -> emits Q issues (cb node issues)) ->
  forall issues, emits Q issues (traverseNodes nodes cb issues).
Proof.
  intros H issues. rewrite traverseNodes_preorder.
  apply (emits_forEach Q cb (preorder nodes) H).
Qed.

(** ** Hierarchy pass *)

Lemma validateHierarchy_children_eq node issues depth path :
  validateHierarchy_children node issues depth path
  = validateHierarchy (children node) issues depth path.
Proof. destruct node; reflexivity. Qed.

Section HierarchyEmits.
Variable Q : ValidationIssue -> Prop.
Hypothesis Q_depth : forall path, Q (excessiveDepthIssue path).
Hypothesis Q_many : forall node, Q (tooManyChildrenIssue node).

Lemma validateNodeTypeHierarchy_emits node siblings issues path :
  rankIssuesSatisfy Q node ->
  emits Q issues (validateNodeTypeHierarchy node siblings issues path).
Proof.
  intros [Hbad Hchild]. unfold validateNodeTypeHierarchy.
  fold (rankIndex node).
  destruct (rankIndex node =? -1)%Z eqn:E.
  - apply emits_push, Hbad. unfold knownRank. rewrite E. reflexivity.
  - apply emits_forEach. intros child issues' Hin.
    fold (rankIndex child). apply emits_push_if. intros Hb.
    apply andb_true_iff in Hb as [Hk Hle].
    apply Hchild; auto.
    + unfold knownRank. rewrite E. reflexivity.
    + apply Z.leb_le. exact Hle.
Qed.

Lemma validateHierarchy_loop_emits nodes :
  (forall node, In node (preorder nodes) -> rankIssuesSatisfy Q node) ->
  forall siblings depth path index issues,
    emits Q issues
      (forEachIndexed_from
         (validateHierarchy_visit validateHierarchy_children siblings depth path)
         index nodes issues).
Proof.
  induction nodes as [|node rest IHc IHr] using forest_ind;
    intros Hall siblings depth path index issues; simpl; [apply emits_refl|].
  rewrite preorder_cons in Hall.
  eapply emits_trans; [|apply IHr; intros n Hn; apply Hall; right; apply in_or_app; auto].
  unfold validateHierarchy_visit.
  eapply emits_trans; [apply validateNodeTypeHierarchy_emits, Hall; left; reflexivity|].
  eapply emits_trans; [apply emits_push_if; intros _; apply Q_many|].
  destruct (0 <? length (children node))%nat; [|apply emits_refl].
  rewrite validateHierarchy_children_eq.
  unfold validateHierarchy, validateHierarchy_with, forEachIndexed.
  eapply emits_trans; [apply emits_push_if; intros _; apply Q_depth|].
  apply IHc. intros n Hn. apply Hall. right. apply in_or_app; auto.
Qed.

Lemma validateHierarchy_emits nodes issues depth path :
  (forall node, In node (preorder nodes) -> rankIssuesSatisfy Q node) ->
  emits Q issues (validateHierarchy nodes issues depth path).
Proof.
  intros Hall. unfold validateHierarchy, validateHierarchy_with, forEachIndexed.
  eapply emits_trans; [apply emits_push_if; intros _; apply Q_depth|].
  apply validateHierarchy_loop_emits, Hall.
Qed.
End HierarchyEmits.

Lemma wellRanked_rankIssuesSatisfy Q nodes :
  wellRanked nodes ->
  forall node, In node (preorder nodes) -> rankIssuesSatisfy Q node.
Proof.
  intros Hwr node Hin. destruct (Hwr node Hin) as [Hk Hlt]. split.
  - congruence.
  - intros child Hc _ _ Hle. specialize (Hlt child Hc). lia.
Qed.

(** C6.  On a forest in which every node has one of the five ranks and
    every child has a strictly greater rank index than its parent, the
    hierarchy pass pushes no [INVALID_HIERARCHY] and no [INVALID_NODE_TYPE]
    issue: what it returns is the list it was given followed by issues of
    other codes; run on the empty list, as [validateHTA] does, it returns
    none with either code. *)
Theorem validateHierarchy_wellRanked (structure : list HTANode) :
  wellRanked structure ->
  (forall issues depth path,
     emits notRankError issues (validateHierarchy structure issues depth path))
  /\ List.filter (fun i => hasCode "INVALID_HIERARCHY" i || hasCode "INVALID_NODE_TYPE" i)
       (validateHierarchy structure [] 0 "") = [].
Proof.
  intros Hwr.
  assert (forall issues depth path,
            emits notRankError issues (validateHierarchy structure issues depth path)) as H.
  { intros issues depth path. apply validateHierarchy_emits.
    - intros p. split; reflexivity.
    - intros n. split; reflexivity.
    - apply wellRanked_rankIssuesSatisfy, Hwr. }
  split; [exact H|].
  destruct (H [] 0%nat "") as (new & -> & Hnew). simpl.
  induction Hnew as [|i new [H1 H2] _ IH]; simpl; [reflexivity|].
  rewrite H1, H2. simpl. exact IH.
Qed.

(** ** Dependency pass *)

Lemma collectNodeIds_spec nodes (x : string) :
  x ∈ collectNodeIds nodes <-> exists node, In node (preorder nodes) /\ id node = x.
Proof.
  unfold collectNodeIds. rewrite traverseNodes_preorder.
  assert (forall l (acc : gset string),
            x ∈ fold_left (fun (s : gset string) n => {[id n]} ∪ s) l acc
            <-> x ∈ acc \/ exists node, In node l /\ id node = x) as H.
  { induction l as [|n l IH]; intros acc; simpl.
    - split; [auto|]. intros [H|(n & Hn & _)]; [exact H | destruct Hn].
    - rewrite IH. rewrite elem_of_union, elem_of_singleton. split.
      + intros [[->|H]|(n' & Hn' & E)]; eauto.
      + intros [H|(n' & [->|Hn'] & E)]; eauto. }
  rewrite H. split.
  - intros [Hx|Hx]; [exfalso; set_solver | exact Hx].
  - auto.
Qed.

Lemma traverseNodes_In {St} (cb : HTANode -> St -> St) (R : St -> Prop) nodes node :
  (forall n s, R s -> R (cb n s)) ->
  (forall s, R (cb node s)) ->
  In node (preorder nodes) ->
  forall s, R (traverseNodes nodes cb s).
Proof.
  intros Hkeep Hnode Hin s. rewrite traverseNodes_preorder.
  revert s. induction (preorder nodes) as [|n l IH]; intros s; [destruct Hin|].
  simpl. destruct Hin as [->|Hin]; [|apply IH, Hin].
  generalize (Hnode s). generalize (cb node s). clear -Hkeep.
  induction l as [|n l IH]; intros s Hs; simpl; auto.
Qed.

Lemma validateDependencies_node_emits nodes ids node issues :
  emits notSuggestion issues (validateDependencies_node nodes ids node issues).
Proof.
  unfold validateDependencies_node.
  destruct (0 <? length (dependencies node))%nat; [|apply emits_refl].
  eapply emits_trans; [|apply emits_push_if; reflexivity].
  apply emits_forEach. intros depId issues' _.
  destruct (decide (depId ∈ ids)); [apply emits_refl | apply emits_push; reflexivity].
Qed.


Lemma forEach_In {A} Q (f : A -> list ValidationIssue -> list ValidationIssue) l x i :
  (forall y issues, emits Q issues (f y issues)) ->
  (forall issues, In i (f x issues)) ->
  In x l ->
  forall issues, In i (forEach f l issues).
Proof.
  intros Hkeep Hx. unfold forEach.
  induction l as [|y l IH]; intros Hin issues; [destruct Hin|].
  simpl. destruct Hin as [->|Hin]; [|apply IH, Hin].
  eapply emits_In; [|apply Hx].
  apply (emits_forEach Q f l). intros; apply Hkeep.
Qed.

Lemma validateDependencies_node_dangling nodes ids node depId issues :
  In depId (dependencies node) -> depId ∉ ids ->
  In (invalidDependencyIssue node depId) (validateDependencies_node nodes ids node issues).
Proof.
  intros Hin Hnot. unfold validateDependencies_node.
  destruct (dependencies node) as [|d deps] eqn:Hdeps; [destruct Hin|].
  cbn [length Nat.ltb Nat.leb].
  assert (In (invalidDependencyIssue node depId)
            (forEach (fun depId issues =>
                        if decide (depId ∈ ids) then issues
                        else push issues (invalidDependencyIssue node depId))
               (d :: deps) issues)) as H.
  { apply forEach_In with (Q := notSuggestion) (x := depId); [| |exact Hin].
    - intros y issues'.
      destruct (decide (y ∈ ids)); [apply emits_refl | apply emits_push; reflexivity].
    - intros issues'. destruct (decide (depId ∈ ids)) as [Hyes|_]; [contradiction|].
      unfold push. apply in_or_app. right. left. reflexivity. }
  destruct (hasCircularDependency node nodes); [|exact H].
  unfold push. apply in_or_app. left. exact H.
Qed.

Lemma validateDependencies_dangling nodes node depId issues :
  In node (preorder nodes) -> In depId (dependencies node) ->
  (forall other, In other (preorder nodes) -> id other <> depId) ->
  In (invalidDependencyIssue node depId) (validateDependencies nodes issues).
Proof.
  intros Hnode Hdep Hnone. unfold validateDependencies.
  apply (traverseNodes_In _ (fun s => In (invalidDependencyIssue node depId) s) nodes node).
  - intros n s Hs. eapply emits_In; [apply validateDependencies_node_emits | exact Hs].
  - intros s. apply validateDependencies_node_dangling; [exact Hdep|].
    rewrite collectNodeIds_spec. intros (other & Ho & E). exact (Hnone other Ho E).
  - exact Hnode.
Qed.

(** ** Later passes keep what was pushed *)

(** Peels conditional pushes off the outside of the issue list. *)
Ltac emits_peel :=
  cbv zeta;
  repeat first
    [ apply emits_refl
    | apply emits_push_if; reflexivity
    | eapply emits_trans; [|apply emits_push_if; reflexivity] ].

Lemma validateEstimates_emits nodes issues :
  emits notSuggestion issues (validateEstimates nodes issues).
Proof.
  apply emits_traverseNodes. intros node issues' _.
  unfold validateEstimates_node.
  destruct (estimatedHours node) as [hours|]; [|emits_peel].
  cbv zeta. destruct (_ && _); emits_peel.
Qed.

Lemma validateCompleteness_emits nodes issues :
  emits notSuggestion issues (validateCompleteness nodes issues).
Proof. unfold validateCompleteness. emits_peel. Qed.

Lemma validateFeasibility_emits nodes issues :
  emits notSuggestion issues (validateFeasibility nodes issues).
Proof.
  unfold validateFeasibility. cbv zeta.
  eapply emits_trans;
    [|apply emits_traverseNodes; intros node issues' _;
      unfold validateFeasibility_node; destruct (0 <? _)%nat; emits_peel].
  emits_peel.
Qed.







Lemma runChecks_keeps_dependency_issue structure i :
  (forall issues, In i (validateDependencies structure issues)) ->
  In i (runChecks structure []).
Proof.
  intros H. unfold runChecks. cbv zeta.
  eapply emits_In; [apply validateFeasibility_emits|].
  eapply emits_In; [apply validateCompleteness_emits|].
  eapply emits_In; [apply validateEstimates_emits|].
  apply H.
Qed.

(** C7.  A node of the forest that lists a dependency id borne by no node of
    the forest gets an [INVALID_DEPENDENCY] issue for that id in the result:
    an error, auto-fixable, with the depending node's id as [nodeId]. *)
Theorem validateHTA_dangling_dependency (structure : list HTANode) (logger : Logger)
    (node : HTANode) (depId : string) :
  In node (preorder structure) ->
  In depId (dependencies node) ->
  (forall other, In other (preorder structure) -> id other <> depId) ->
  exists i,
    In i (issues (fst (validateHTA structure logger)))
    /\ i = invalidDependencyIssue node depId
    /\ Issue.code i = "INVALID_DEPENDENCY"
    /\ Issue.type i = error
    /\ Issue.autoFixable i = true
    /\ Issue.nodeId i = Some (id node).
Proof.
  intros Hnode Hdep Hnone. exists (invalidDependencyIssue node depId).
  split; [|repeat split].
  unfold validateHTA. cbn [fst issues].
  apply runChecks_keeps_dependency_issue. intros issues.
  apply validateDependencies_dangling; assumption.
Qed.

(** ** Cycle detection *)

Lemma findNodeById_cons node rest i :
  findNodeById (node :: rest) i
  = if String.eqb (id node) i then Some node
    else match findNodeById (children node) i with
         | Some found => Some found
         | None => findNodeById rest i
         end.
Proof.
  unfold findNodeById at 1. unfold findNodeById_with. simpl.
  destruct (String.eqb (id node) i); [reflexivity|].
  replace (findNodeById_children node i) with (findNodeById (children node) i)
    by (destruct node; reflexivity).
  destruct (findNodeById (children node) i); reflexivity.
Qed.

(** [findNodeById] returns the first node in pre-order that bears the id. *)
Lemma findNodeById_find nodes i :
  findNodeById nodes i = List.find (fun n => String.eqb (id n) i) (preorder nodes).
Proof.
  induction nodes as [|node rest IHc IHr] using forest_ind; [reflexivity|].
  rewrite findNodeById_cons, preorder_cons. simpl.
  destruct (String.eqb (id node) i); [reflexivity|].
  rewrite IHc, IHr. clear.
  induction (preorder (children node)) as [|n l IH]; simpl; [reflexivity|].
  destruct (String.eqb (id n) i); [reflexivity | exact IH].
Qed.

Lemma findNodeById_Some nodes i found :
  findNodeById nodes i = Some found -> In found (preorder nodes) /\ id found = i.
Proof.
  rewrite findNodeById_find. intros H. apply find_some in H as [Hin Heq].
  split; [exact Hin | apply String.eqb_eq, Heq].
Qed.

Lemma findNodeById_exists nodes node :
  In node (preorder nodes) ->
  exists found, findNodeById nodes (id node) = Some found /\ id found = id node.
Proof.
  intros Hin. rewrite findNodeById_find.
  destruct (List.find _ _) as [found|] eqn:E.
  - exists found. split; [reflexivity|]. apply find_some in E as [_ E].
    apply String.eqb_eq, E.
  - pose proof (find_none _ _ E node Hin) as H. cbv beta in H.
    rewrite String.eqb_refl in H. discriminate.
Qed.

Lemma findNodeById_unique nodes node :
  uniqueIds nodes -> In node (preorder nodes) -> findNodeById nodes (id node) = Some node.
Proof.
  unfold uniqueIds. rewrite findNodeById_find.
  induction (preorder nodes) as [|n l IH]; intros Hnd Hin; [destruct Hin|].
  simpl in *. inversion Hnd as [|? ? Hnotin Hnd']; subst.
  destruct (String.eqb_spec (id n) (id node)) as [E|NE].
  - destruct Hin as [->|Hin]; [reflexivity|].
    exfalso. apply Hnotin. rewrite E. apply in_map, Hin.
  - destruct Hin as [->|Hin]; [congruence | auto].
Qed.

Section DependencyLoopFacts.
Variable allNodes : list HTANode.
Variable visit : HTANode -> option bool.

Lemma dependencyLoop_true deps :
  dependencyLoop allNodes visit deps = Some true ->
  exists depId depNode,
    In depId deps /\ findNodeById allNodes depId = Some depNode
    /\ visit depNode = Some true.
Proof.
  induction deps as [|d deps IH]; simpl; [discriminate|].
  destruct (findNodeById allNodes d) as [depNode|] eqn:Hfind.
  - destruct (visit depNode) as [[|]|] eqn:Hvisit; [| |discriminate].
    + intros _. exists d, depNode. auto.
    + intros H. destruct (IH H) as (d' & n' & ? & ? & ?). exists d', n'. auto.
  - intros H. destruct (IH H) as (d' & n' & ? & ? & ?). exists d', n'. auto.
Qed.

Lemma dependencyLoop_false deps :
  dependencyLoop allNodes visit deps = Some false ->
  forall depId depNode,
    In depId deps -> findNodeById allNodes depId = Some depNode ->
    visit depNode = Some false.
Proof.
  induction deps as [|d deps IH]; simpl; intros H depId depNode Hin Hfind;
    [destruct Hin|].
  destruct (findNodeById allNodes d) as [dn|] eqn:Hd.
  - destruct (visit dn) as [[|]|] eqn:Hvisit; try discriminate.
    destruct Hin as [->|Hin]; [congruence | eauto].
  - destruct Hin as [->|Hin]; [congruence | eauto].
Qed.

Lemma dependencyLoop_returns deps :
  (forall depId depNode,
     In depId deps -> findNodeById allNodes depId = Some depNode ->
     is_Some (visit depNode)) ->
  is_Some (dependencyLoop allNodes visit deps).
Proof.
  induction deps as [|d deps IH]; simpl; intros H; [eexists; reflexivity|].
  destruct (findNodeById allNodes d) as [dn|] eqn:Hd.
  - destruct (H d dn (or_introl eq_refl) Hd) as [[|] ->]; [eexists; reflexivity|].
    apply IH. intros; eapply H; eauto.
  - apply IH. intros; eapply H; eauto.
Qed.
End DependencyLoopFacts.

(** The walk signals a cycle exactly when it comes back to an id of the
    current path. *)
Lemma hasCircularDependency_fuel_revisits allNodes fuel :
  forall node visited b,
    hasCircularDependency_fuel fuel node allNodes visited = Some b ->
    (b = true <-> revisits allNodes visited node).
Proof.
  induction fuel as [|fuel IH]; intros node visited b; simpl; [discriminate|].
  destruct (decide (id node ∈ visited)) as [Hin|Hnot].
  - intros [= <-]. split; [intros _; apply revisits_here, Hin | reflexivity].
  - intros Hloop. destruct b.
    + split; [intros _ | reflexivity].
      apply dependencyLoop_true in Hloop as (depId & depNode & Hdep & Hfind & Hvisit).
      eapply revisits_step; eauto. apply (IH _ _ _ Hvisit). reflexivity.
    + split; [discriminate|]. intros Hrev.
      inversion Hrev as [? ? Hhere|? ? depId depNode _ Hdep Hfind Hrec]; subst;
        [contradiction|].
      pose proof (dependencyLoop_false _ _ _ Hloop depId depNode Hdep Hfind) as Hvisit.
      apply (IH _ _ _ Hvisit). exact Hrec.
Qed.

Lemma size_collect_le (l : list HTANode) (acc : gset string) :
  size (fold_left (fun (s : gset string) n => {[id n]} ∪ s) l acc) <= length l + size acc.
Proof.
  revert acc. induction l as [|n l IH]; intros acc; simpl; [lia|].
  etransitivity; [apply IH|].
  rewrite size_union_alt, size_singleton.
  pose proof (subseteq_size (acc ∖ {[id n]}) acc) as H.
  assert (acc ∖ {[id n]} ⊆ acc) as Hsub by set_solver.
  specialize (H Hsub). lia.
Qed.

Lemma size_collectNodeIds nodes : size (collectNodeIds nodes) <= countNodes nodes.
Proof.
  unfold collectNodeIds. rewrite traverseNodes_preorder, countNodes_preorder.
  etransitivity; [apply size_collect_le|]. rewrite size_empty. lia.
Qed.

(** Enough fuel: more than the number of ids of the forest, or the id of the
    start node, that are not yet on the path. *)
Lemma hasCircularDependency_fuel_returns allNodes fuel :
  forall node visited,
    size ((collectNodeIds allNodes ∪ {[id node]}) ∖ visited) < fuel ->
    is_Some (hasCircularDependency_fuel fuel node allNodes visited).
Proof.
  induction fuel as [|fuel IH]; intros node visited Hsize; [lia|]. simpl.
  destruct (decide (id node ∈ visited)) as [Hin|Hnot]; [eexists; reflexivity|].
  apply dependencyLoop_returns. intros depId depNode _ Hfind. apply IH.
  apply findNodeById_Some in Hfind as [Hin' <-].
  assert (id depNode ∈ collectNodeIds allNodes) as Hid
    by (apply collectNodeIds_spec; eauto).
  pose proof (subset_size
                ((collectNodeIds allNodes ∪ {[id depNode]}) ∖ ({[id node]} ∪ visited))
                ((collectNodeIds allNodes ∪ {[id node]}) ∖ visited)) as Hlt.
  assert ((collectNodeIds allNodes ∪ {[id depNode]}) ∖ ({[id node]} ∪ visited)
          ⊂ (collectNodeIds allNodes ∪ {[id node]}) ∖ visited) as Hsub.
  { split; [set_solver|]. intros Hsup.
    assert (id node ∈ (collectNodeIds allNodes ∪ {[id node]}) ∖ visited) as Hx
      by set_solver.
    apply Hsup in Hx. set_solver. }
  specialize (Hlt Hsub). lia.
Qed.

Lemma start_size_bound node allNodes :
  size ((collectNodeIds allNodes ∪ {[id node]}) ∖ ∅) < 2 + countNodes allNodes.
Proof.
  pose proof (size_collectNodeIds allNodes) as H1.
  pose proof (subseteq_size ((collectNodeIds allNodes ∪ {[id node]}) ∖ ∅)
                (collectNodeIds allNodes ∪ {[id node]})) as H2.
  assert ((collectNodeIds allNodes ∪ {[id node]}) ∖ ∅
          ⊆ collectNodeIds allNodes ∪ {[id node]}) as Hsub by set_solver.
  specialize (H2 Hsub).
  pose proof (size_union_alt (collectNodeIds allNodes) ({[id node]} : gset string)) as H3.
  pose proof (subseteq_size (({[id node]} : gset string) ∖ collectNodeIds allNodes)
                {[id node]}) as H4.
  assert (({[id node]} : gset string) ∖ collectNodeIds allNodes ⊆ {[id node]}) as Hsub'
    by set_solver.
  specialize (H4 Hsub'). rewrite size_singleton in H4. lia.
Qed.

(** The fuel that [hasCircularDependency] gives is enough: the [None] case
    of its definition never arises. *)
Lemma hasCircularDependency_fuel_enough node allNodes :
  hasCircularDependency_fuel (2 + countNodes allNodes) node allNodes ∅
  = Some (hasCircularDependency node allNodes).
Proof.
  unfold hasCircularDependency.
  destruct (hasCircularDependency_fuel_returns allNodes (2 + countNodes allNodes) node ∅)
    as [b ->]; [apply start_size_bound | reflexivity].
Qed.

Lemma hasCircularDependency_revisits node allNodes :
  hasCircularDependency node allNodes = true <-> revisits allNodes ∅ node.
Proof.
  apply (hasCircularDependency_fuel_revisits allNodes (2 + countNodes allNodes)).
  apply hasCircularDependency_fuel_enough.
Qed.

(** More fuel than that changes nothing. *)
Lemma hasCircularDependency_fuel_stable allNodes fuel node :
  2 + countNodes allNodes <= fuel ->
  hasCircularDependency_fuel fuel node allNodes ∅
  = Some (hasCircularDependency node allNodes).
Proof.
  intros Hle.
  destruct (hasCircularDependency_fuel_returns allNodes fuel node ∅) as [b Hb].
  { pose proof (start_size_bound node allNodes). lia. }
  rewrite Hb. f_equal.
  pose proof (hasCircularDependency_fuel_revisits _ _ _ _ _ Hb) as H1.
  pose proof (hasCircularDependency_revisits node allNodes) as H2.
  destruct b, (hasCircularDependency node allNodes); try reflexivity.
  - symmetry. apply H2, H1. reflexivity.
  - apply H1, H2. reflexivity.
Qed.

Lemma mutual_revisits allNodes A B :
  In A (preorder allNodes) ->
  findNodeById allNodes (id B) = Some B ->
  In (id B) (dependencies A) -> In (id A) (dependencies B) ->
  revisits allNodes ∅ A.
Proof.
  intros HA HB HAB HBA.
  apply (revisits_step allNodes ∅ A (id B) B); [set_solver | exact HAB | exact HB |].
  destruct (decide (id B ∈ ({[id A]} ∪ ∅ : gset string))) as [Hin|Hnot];
    [apply revisits_here, Hin|].
  destruct (findNodeById_exists allNodes A HA) as (found & Hfound & Hid).
  apply (revisits_step allNodes _ B (id A) found); [exact Hnot | exact HBA | exact Hfound |].
  apply revisits_here. rewrite Hid. set_solver.
Qed.

Lemma validateDependencies_circular nodes node issues :
  In node (preorder nodes) -> dependencies node <> [] ->
  hasCircularDependency node nodes = true ->
  In (circularDependencyIssue node) (validateDependencies nodes issues).
Proof.
  intros Hnode Hdeps Hcirc. unfold validateDependencies.
  apply (traverseNodes_In _ (fun s => In (circularDependencyIssue node) s) nodes node).
  - intros n s Hs. eapply emits_In; [apply validateDependencies_node_emits | exact Hs].
  - intros s. unfold validateDependencies_node. rewrite Hcirc.
    destruct (dependencies node); [congruence|]. cbn [length Nat.ltb Nat.leb].
    unfold push. apply in_or_app. right. left. reflexivity.
  - exact Hnode.
Qed.

Lemma validateHTA_circular structure logger node :
  In node (preorder structure) -> dependencies node <> [] ->
  revisits structure ∅ node ->
  In (circularDependencyIssue node) (issues (fst (validateHTA structure logger))).
Proof.
  intros Hnode Hdeps Hrev. unfold validateHTA. cbn [fst issues].
  apply runChecks_keeps_dependency_issue. intros issues.
  apply validateDependencies_circular; auto.
  apply hasCircularDependency_revisits, Hrev.
Qed.

(** Dependency ids are looked up with [findNodeById], which returns the
    first node in pre-order bearing the id: a node of a mutual dependency
    whose partner is the node that the partner's id looks up is reported. *)
Lemma mutual_dependency_reported structure logger A B :
  In A (preorder structure) ->
  In (id B) (dependencies A) -> In (id A) (dependencies B) ->
  findNodeById structure (id B) = Some B ->
  In (circularDependencyIssue A) (issues (fst (validateHTA structure logger))).
Proof.
  intros HA HAB HBA Hres.
  apply validateHTA_circular; [exact HA | intros E; rewrite E in HAB; destruct HAB |].
  apply (mutual_revisits structure A B); assumption.
Qed.

(** C8.  In a forest whose nodes bear distinct ids, as the data model has
    it, two nodes [A] and [B] that depend on each other both get a
    [CIRCULAR_DEPENDENCY] error, not auto-fixable, in the result.  The
    detection is the walk of the specification: it answers true exactly when
    following dependency ids, each looked up with [findNodeById], leads back
    to an id already on the current path. *)
Theorem validateHTA_mutual_dependency (structure : list HTANode) (logger : Logger)
    (A B : HTANode) :
  uniqueIds structure ->
  In A (preorder structure) -> In B (preorder structure) ->
  In (id B) (dependencies A) -> In (id A) (dependencies B) ->
  (forall N, N = A \/ N = B ->
     In (circularDependencyIssue N) (issues (fst (validateHTA structure logger)))
     /\ Issue.code (circularDependencyIssue N) = "CIRCULAR_DEPENDENCY"
     /\ Issue.type (circularDependencyIssue N) = error
     /\ Issue.autoFixable (circularDependencyIssue N) = false
     /\ Issue.nodeId (circularDependencyIssue N) = Some (id N))
  /\ (forall node,
        hasCircularDependency node structure = true <-> revisits structure ∅ node).
Proof.
  intros Hu HA HB HAB HBA. split; [|intros node; apply hasCircularDependency_revisits].
  intros N [->| ->]; (split; [|repeat split]).
  - apply (mutual_dependency_reported structure logger A B); auto using findNodeById_unique.
  - apply (mutual_dependency_reported structure logger B A); auto using findNodeById_unique.
Qed.

(** ** Feasibility metric *)

(** A sum is one number whichever fraction stands for an addend. *)
Lemma add_same x x' (q : Q) : same x x' -> add x (Fin q) = add x' (Fin q).
Proof.
  destruct x as [| | |a], x' as [| | |a']; simpl; try congruence.
  intros H. apply double_comp. rewrite H. reflexivity.
Qed.

(** Adding zero to a number that a sum has produced leaves it as it is. *)
Lemma add_zero x (q : Q) :
  (q == 0)%Q -> (forall a, x = Fin a -> same (double a) (Fin a)) ->
  same (add x (Fin q)) x.
Proof.
  intros Hq Hx. destruct x as [| | |a]; try reflexivity. cbn [add].
  rewrite (double_comp (a + q) a) by (rewrite Hq; ring). apply Hx. reflexivity.
Qed.

Lemma add_rounded x (q a : Q) : add x (Fin q) = Fin a -> same (double a) (Fin a).
Proof.
  destruct x as [| | |b]; try discriminate. cbn [add]. apply double_idem.
Qed.

Lemma totalEstimate_fold (l : list HTANode) (acc acc' : number) :
  same acc acc' -> (forall a, acc' = Fin a -> same (double a) (Fin a)) ->
  same (fold_left (fun total node => calculateTotalEstimate_visit node total) l acc)
       (fold_left (fun total hours => add total (Fin hours))
          (map hoursOf (List.filter isLeaf l)) acc').
Proof.
  revert acc acc'. induction l as [|n l IH]; intros acc acc' Hs Hr; [exact Hs|].
  cbn [fold_left List.filter]. unfold calculateTotalEstimate_visit at 2.
  destruct (isLeaf n).
  2:{ destruct (estimatedHours n); rewrite ?andb_false_r; apply IH; assumption. }
  cbn [map fold_left].
  assert (forall q, (q == 0)%Q ->
            same (fold_left (fun total node => calculateTotalEstimate_visit node total) l acc)
              (fold_left (fun total hours => add total (Fin hours))
                 (map hoursOf (List.filter isLeaf l)) (add acc' (Fin q)))) as Hzero.
  { intros q Hq. apply IH; [|intros a; apply add_rounded].
    apply (same_trans _ acc'); [exact Hs|]. apply same_sym, add_zero; assumption. }
  change (hoursOf n) with (match estimatedHours n with Some q => q | None => 0%Q end).
  destruct (estimatedHours n) as [q|]; [|apply Hzero; reflexivity].
  rewrite andb_true_r. destruct (Qeq_bool q 0) eqn:E; cbn [negb].
  - apply Hzero, Qeq_bool_eq, E.
  - rewrite (add_same acc acc' q Hs). apply IH; [apply same_refl | intros a; apply add_rounded].
Qed.

(** The total that [calculateTotalEstimate] accumulates is the sum over the
    leaves: a leaf without an estimate, or with an estimate of zero, adds
    nothing. *)
Lemma calculateTotalEstimate_leafHours nodes :
  same (calculateTotalEstimate nodes) (leafHours nodes).
Proof.
  unfold calculateTotalEstimate, leafHours. rewrite traverseNodes_preorder.
  apply totalEstimate_fold; [apply same_refl|].
  intros a [= <-]. reflexivity.
Qed.

Lemma Qltb_comp (a b c d : Q) : (a == b)%Q -> (c == d)%Q -> Qltb a c = Qltb b d.
Proof. intros H1 H2. unfold Qltb. rewrite H1, H2. reflexivity. Qed.

Lemma ltb_same_l x x' y : same x x' -> ltb x y = ltb x' y.
Proof.
  destruct x as [| | |a], x' as [| | |a']; simpl; try congruence.
  intros H. destruct y as [| | |b]; try reflexivity. apply Qltb_comp; [exact H | reflexivity].
Qed.

Lemma ltb_same_r x x' y : same x x' -> ltb y x = ltb y x'.
Proof.
  destruct x as [| | |a], x' as [| | |a']; simpl; try congruence.
  intros H. destruct y as [| | |b]; try reflexivity. apply Qltb_comp; [reflexivity | exact H].
Qed.

Lemma div_same x x' (z : Z) : (0 < z)%Z -> same x x' -> div x (ofZ z) = div x' (ofZ z).
Proof.
  intros Hz. destruct x as [| | |a], x' as [| | |a']; simpl; try congruence.
  intros H. rewrite (Qeq_bool_inject_Z z Hz). apply double_comp. rewrite H. reflexivity.
Qed.

Lemma specFeasibility_same (t t' : number) :
  same t t' -> specFeasibility t = specFeasibility t'.
Proof.
  intros H. unfold specFeasibility, gtb.
  rewrite (ltb_same_r t t' _ H), (ltb_same_l t t' _ H), (div_same t t' 50) by (exact H || lia).
  reflexivity.
Qed.

Lemma feasibility_of_total (total : number) :
  round (if gtb total (ofZ 0) && ltb total (ofZ 2000)
         then min (ofZ 100) (sub (ofZ 100) (div total (ofZ 50)))
         else ofZ 50)
  = specFeasibility total.
Proof. unfold specFeasibility. destruct (_ && _); reflexivity. Qed.

Lemma feasibility_leafHours structure :
  feasibility (calculateMetrics structure) = specFeasibility (leafHours structure).
Proof.
  unfold calculateMetrics, metricsOf. cbn [feasibility].
  rewrite feasibility_of_total.
  apply specFeasibility_same, calculateTotalEstimate_leafHours.
Qed.

(** C9.  The feasibility metric is computed from the sum of [estimatedHours]
    over the nodes without children, as the program adds them:
    [min(100, 100 - total/50)] rounded when the total is strictly between 0
    and 2000, and 50 otherwise. *)
Theorem calculateMetrics_feasibility (structure : list HTANode) :
  feasibility (calculateMetrics structure) = specFeasibility (leafHours structure)
  /\ same (calculateTotalEstimate structure) (leafHours structure).
Proof.
  split; [|apply calculateTotalEstimate_leafHours].
  unfold calculateMetrics, metricsOf. cbn [feasibility].
  rewrite feasibility_of_total.
  apply specFeasibility_same, calculateTotalEstimate_leafHours.
Qed.

(** ** The two counts of nodes with an estimate *)

Lemma completenessCounters_estimates nodes :
  nodesWithEstimates (completenessCounters nodes)
  = length (List.filter hasPositiveEstimate (preorder nodes)).
Proof.
  unfold completenessCounters. rewrite traverseNodes_preorder.
  assert (forall l c,
            nodesWithEstimates (fold_left (fun c n => validateCompleteness_node n c) l c)
            = (nodesWithEstimates c + length (List.filter hasPositiveEstimate l))%nat) as H.
  { induction l as [|n l IH]; intros c; simpl; [lia|].
    rewrite IH. unfold validateCompleteness_node.
    destruct (isLeaf n), (hasPositiveEstimate n), (hasNonBlankDescription n); simpl; lia. }
  apply H.
Qed.

Lemma hasPositiveEstimate_defined node :
  hasPositiveEstimate node = true -> hasEstimatedHours node = true.
Proof.
  unfold hasPositiveEstimate, hasEstimatedHours.
  destruct (estimatedHours node); [reflexivity | discriminate].
Qed.

Lemma filter_length_lt {A} (p q : A -> bool) (l : list A) (x : A) :
  (forall y, p y = true -> q y = true) ->
  In x l -> q x = true -> p x = false ->
  length (List.filter p l) < length (List.filter q l).
Proof.
  intros Hpq Hin Hq Hp.
  assert (forall l', length (List.filter p l') <= length (List.filter q l')) as Hle.
  { induction l' as [|y l' IH]; simpl; [lia|].
    destruct (p y) eqn:Ep; [rewrite (Hpq y Ep); simpl; lia|].
    destruct (q y); simpl; lia. }
  induction l as [|y l IH]; [destruct Hin|]. simpl.
  destruct Hin as [->|Hin].
  - rewrite Hp, Hq. simpl. specialize (Hle l). lia.
  - specialize (IH Hin). destruct (p y) eqn:Ep; [rewrite (Hpq y Ep); simpl; lia|].
    destruct (q y); simpl; lia.
Qed.

(** ** An array that holds [null] *)

Lemma forEachEntry_ofNodes {St} (f : HTANode -> St -> St) nodes s :
  Malformed.forEachEntry f (Malformed.ofNodes nodes) s = Malformed.Returns (forEach f nodes s).
Proof.
  unfold forEach. revert s. induction nodes as [|n nodes IH]; intros s; simpl; auto.
Qed.

Lemma forEachEntry_null {St} (f : HTANode -> St -> St) entries s :
  In Malformed.Null entries -> Malformed.forEachEntry f entries s = Malformed.Throws TypeError.
Proof.
  revert s. induction entries as [|e entries IH]; intros s Hin; [destruct Hin|].
  destruct e as [|node]; [reflexivity|]. simpl.
  destruct Hin as [Hin|Hin]; [discriminate | apply IH, Hin].
Qed.

(** On an array of nodes the metrics are those of the forest. *)
Lemma calculateMetrics_ofNodes nodes :
  Malformed.calculateMetrics (Malformed.ofNodes nodes)
  = Malformed.Returns (calculateMetrics nodes).
Proof.
  unfold Malformed.calculateMetrics, Malformed.calculateMaxDepth,
    Malformed.calculateMaxBreadth, Malformed.countNodes,
    Malformed.countNodesWithProperty, Malformed.calculateTotalEstimate,
    Malformed.traverseNodes.
  rewrite !forEachEntry_ofNodes. simpl.
  unfold Malformed.ofNodes. rewrite length_map. reflexivity.
Qed.

(** With a [null] element [calculateMetrics] throws, and so does
    [validateHTA], whatever the six checks would do. *)
Lemma validateHTA_null_throws runChecks entries logger :
  In Malformed.Null entries ->
  Malformed.validateHTA runChecks entries logger = Malformed.Throws TypeError.
Proof.
  intros Hin. unfold Malformed.validateHTA, Malformed.calculateMetrics,
    Malformed.calculateMaxDepth.
  rewrite (forEachEntry_null _ _ _ Hin). reflexivity.
Qed.

(** The [catch] block: when the metrics were computed and a check throws,
    the caller gets [degradedResult] and nothing of what the checks had
    pushed. *)
Lemma validateHTA_check_throws runChecks entries logger metrics e :
  Malformed.calculateMetrics entries = Malformed.Returns metrics ->
  runChecks entries [] = Malformed.Throws e ->
  Malformed.validateHTA runChecks entries logger
  = Malformed.Returns (degradedResult, logger ++ [LogError "HTA validation failed" e]).
Proof.
  intros Hm Hc. unfold Malformed.validateHTA. rewrite Hm. simpl. rewrite Hc. reflexivity.
Qed.

(** On an array of nodes, with checks that do what they do on the forest,
    [validateHTA] is the function of the previous sections. *)
Lemma validateHTA_ofNodes runChecks' nodes logger :
  runChecks' (Malformed.ofNodes nodes) [] = Malformed.Returns (runChecks nodes []) ->
  Malformed.validateHTA runChecks' (Malformed.ofNodes nodes) logger
  = Malformed.Returns (validateHTA nodes logger).
Proof.
  intros Hc. unfold Malformed.validateHTA. rewrite calculateMetrics_ofNodes. simpl.
  rewrite Hc. reflexivity.
Qed.

(** Whatever [validateHTA] returns, on either path, [isValid] says that no
    issue is an error. *)
Lemma validateHTA_returned_isValid runChecks entries logger result logger' :
  Malformed.validateHTA runChecks entries logger = Malformed.Returns (result, logger') ->
  isValid result = true <-> forall i, In i (issues result) -> Issue.type i <> error.
Proof.
  unfold Malformed.validateHTA.
  destruct (Malformed.calculateMetrics entries) as [metrics|e]; simpl; [|discriminate].
  destruct (runChecks entries []) as [checked|e]; intros [= <- _].
  - unfold conclude. cbn [isValid issues]. rewrite filter_length_zero.
    split; intros H i Hi; apply isError_false_iff; auto.
  - simpl. split; [discriminate|]. intros H. exfalso.
    apply (H _ (or_introl eq_refl)). reflexivity.
Qed.

(** C2 at the array [[null]]: the call of [calculateMetrics] that precedes
    the [try] block throws a [TypeError], which reaches the caller of
    [validateHTA]; no degraded result is returned. *)
Theorem validateHTA_null_element_throws
    (runChecks : list Malformed.Entry -> list ValidationIssue
                 -> Malformed.Outcome (list ValidationIssue))
    (logger : Logger) :
  Malformed.validateHTA runChecks [Malformed.Null] logger = Malformed.Throws TypeError.
Proof. reflexivity. Qed.

(** ** The scenarios of the specification, evaluated *)

Example loneObjective_valid :
  isValid (fst (validateHTA loneObjective [])) = true
  /\ codesOf (fst (validateHTA loneObjective []))
     = [("INCOMPLETE_ESTIMATES", None); ("INCOMPLETE_DESCRIPTIONS", None)]
  /\ completeness (metrics (fst (validateHTA loneObjective []))) = ofZ 0
  /\ feasibility (metrics (fst (validateHTA loneObjective []))) = ofZ 50.
Proof. vm_compute. auto. Qed.

Example objectiveUnderObjective_invalid :
  isValid (fst (validateHTA objectiveUnderObjective [])) = false
  /\ List.filter (hasCode "INVALID_HIERARCHY")
       (issues (fst (validateHTA objectiveUnderObjective [])))
     = [invalidHierarchyIssue
          (mkHTANode "r" "objective" "Ship the product" None "high" None []
             [mkHTANode "c" "objective" "Ship it again" None "high" None [] []])
          (mkHTANode "c" "objective" "Ship it again" None "high" None [] [])].
Proof. vm_compute. auto. Qed.

Example tenLongTasks_large_project :
  feasibility (metrics (fst (validateHTA tenLongTasks []))) = ofZ 50
  /\ map fst (List.filter (fun c => String.eqb (fst c) "LARGE_PROJECT")
                (codesOf (fst (validateHTA tenLongTasks []))))
     = ["LARGE_PROJECT"].
Proof. vm_compute. auto. Qed.

Example nineChildren_warned :
  List.filter (fun c => String.eqb (fst c) "TOO_MANY_CHILDREN")
    (codesOf (fst (validateHTA nineChildren [])))
  = [("TOO_MANY_CHILDREN", Some "r")].
Proof. vm_compute. reflexivity. Qed.

Example sampleForest_result :
  codesOf (fst (validateHTA sampleForest []))
  = [("INVALID_DEPENDENCY", Some "a"); ("CIRCULAR_DEPENDENCY", Some "a");
     ("CIRCULAR_DEPENDENCY", Some "b"); ("ZERO_ESTIMATE", Some "a");
     ("INCOMPLETE_ESTIMATES", None)]
  /\ score (fst (validateHTA sampleForest [])) = ofZ 69
  /\ metrics (fst (validateHTA sampleForest []))
     = mkMetrics (ofZ 2) (ofZ 2) (ofZ 30) (ofZ 63) (ofZ 100).
Proof. vm_compute. auto. Qed.

(** *** At the thresholds *)

(** 0.1 is not a binary fraction: the literal denotes the nearest one. *)
Example literal_tenth : (literal (1 # 10) == 3602879701896397 # 36028797018963968)%Q.
Proof. vm_compute. reflexivity. Qed.

(** 1999 and ten times 0.1 come to 1999.999999999999 and not to 2000: the
    project is within the budget, and its feasibility is 60. *)
Example nearBudgetForest_within_budget :
  same (calculateTotalEstimate nearBudgetForest) (Fin (8796093022207996 # 4398046511104))
  /\ ltb (calculateTotalEstimate nearBudgetForest) (ofZ 2000) = true
  /\ feasibility (metrics (fst (validateHTA nearBudgetForest []))) = ofZ 60
  /\ reports "LARGE_PROJECT" (issues (fst (validateHTA nearBudgetForest []))) = false
  /\ ~ In "Consider breaking the project into phases or reducing scope"
         (suggestions (fst (validateHTA nearBudgetForest []))).
Proof.
  vm_compute. repeat apply conj; try reflexivity.
  intros H. repeat (destruct H as [H|H]; [discriminate H|]). destruct H.
Qed.

(** 2000 and 1e-13 come to 2000: no [LARGE_PROJECT] warning. *)
Example hairOverBudgetForest_not_large :
  same (calculateTotalEstimate hairOverBudgetForest) (ofZ 2000)
  /\ reports "LARGE_PROJECT" (issues (fst (validateHTA hairOverBudgetForest []))) = false
  /\ feasibility (metrics (fst (validateHTA hairOverBudgetForest []))) = ofZ 50.
Proof. vm_compute. auto. Qed.

(** 23 of 40: [(23 / 40) * 100] is 57.49999999999999, and the completeness
    is 57. *)
Example twentyTasks_completeness :
  completeness (metrics (fst (validateHTA twentyTasks []))) = ofZ 57.
Proof. vm_compute. reflexivity. Qed.

(** [0.3 * 3] is 0.8999999999999999, which is below 0.9. *)
Example thinParent_unrealistic :
  reports "UNREALISTIC_BREAKDOWN" (issues (fst (validateHTA thinParent []))) = true.
Proof. vm_compute. reflexivity. Qed.

(** ** The theorems with hypotheses, at [sampleForest] *)

Lemma sampleForest_wellRanked : wellRanked sampleForest.
Proof.
  intros node Hin. simpl in Hin.
  destruct Hin as [<-|[<-|[<-|[<-|[]]]]]; (split; [reflexivity|]);
    intros child Hc; simpl in Hc.
  - destruct Hc as [<-|[]]. reflexivity.
  - destruct Hc as [<-|[<-|[]]]; reflexivity.
  - destruct Hc.
  - destruct Hc.
Defined.

Lemma validateHierarchy_wellRanked_sample :
  wellRanked sampleForest
  /\ (forall issues depth path,
        emits notRankError issues (validateHierarchy sampleForest issues depth path))
  /\ List.filter (fun i => hasCode "INVALID_HIERARCHY" i || hasCode "INVALID_NODE_TYPE" i)
       (validateHierarchy sampleForest [] 0 "") = [].
Proof.
  split; [exact sampleForest_wellRanked|].
  exact (validateHierarchy_wellRanked sampleForest sampleForest_wellRanked).
Defined.

Lemma validateHTA_dangling_dependency_sample :
  In taskA (preorder sampleForest)
  /\ In "ghost" (dependencies taskA)
  /\ (forall other, In other (preorder sampleForest) -> id other <> "ghost")
  /\ exists i,
       In i (issues (fst (validateHTA sampleForest [])))
       /\ i = invalidDependencyIssue taskA "ghost"
       /\ Issue.code i = "INVALID_DEPENDENCY"
       /\ Issue.type i = error
       /\ Issue.autoFixable i = true
       /\ Issue.nodeId i = Some (id taskA).
Proof.
  assert (In taskA (preorder sampleForest)) as H1 by (simpl; auto).
  assert (In "ghost" (dependencies taskA)) as H2 by (simpl; auto).
  assert (forall other, In other (preorder sampleForest) -> id other <> "ghost") as H3.
  { intros other Hin. simpl in Hin.
    destruct Hin as [<-|[<-|[<-|[<-|[]]]]]; discriminate. }
  repeat apply conj; try assumption.
  exact (validateHTA_dangling_dependency sampleForest [] taskA "ghost" H1 H2 H3).
Defined.

Lemma validateHTA_mutual_dependency_sample :
  uniqueIds sampleForest
  /\ In taskA (preorder sampleForest) /\ In taskB (preorder sampleForest)
  /\ In (id taskB) (dependencies taskA) /\ In (id taskA) (dependencies taskB)
  /\ (forall N, N = taskA \/ N = taskB ->
        In (circularDependencyIssue N) (issues (fst (validateHTA sampleForest [])))
        /\ Issue.code (circularDependencyIssue N) = "CIRCULAR_DEPENDENCY"
        /\ Issue.type (circularDependencyIssue N) = error
        /\ Issue.autoFixable (circularDependencyIssue N) = false
        /\ Issue.nodeId (circularDependencyIssue N) = Some (id N))
  /\ (forall node,
        hasCircularDependency node sampleForest = true <-> revisits sampleForest ∅ node).
Proof.
  assert (uniqueIds sampleForest) as H0.
  { unfold uniqueIds. simpl.
    repeat (apply List.NoDup_cons; [simpl; intuition discriminate|]). apply List.NoDup_nil. }
  assert (In taskA (preorder sampleForest)) as H1 by (simpl; auto).
  assert (In taskB (preorder sampleForest)) as H2 by (simpl; auto).
  assert (In (id taskB) (dependencies taskA)) as H3 by (simpl; auto).
  assert (In (id taskA) (dependencies taskB)) as H4 by (simpl; auto).
  repeat apply conj; try assumption;
    apply (validateHTA_mutual_dependency sampleForest [] taskA taskB H0 H1 H2 H3 H4).
Defined.

(** The two counts at [sampleForest]: two nodes have an estimate, one of
    them a positive one. *)
Example sampleForest_counts :
  countNodesWithProperty sampleForest hasEstimatedHours = 2%nat
  /\ nodesWithEstimates (completenessCounters sampleForest) = 1%nat.
Proof. vm_compute. auto. Qed.

(** ** Order of the issues, and determinism *)

Lemma push_if_app (b : bool) issues i :
  (if b then push issues i else issues) = issues ++ (if b then [i] else []).
Proof. destruct b; [reflexivity | symmetry; apply app_nil_r]. Qed.

Lemma appends_forEach {A} (f : A -> list ValidationIssue -> list ValidationIssue) l :
  (forall x, appends (f x)) ->
  forall issues, forEach f l issues = issues ++ flat_map (fun x => f x []) l.
Proof.
  intros Hf. unfold forEach. induction l as [|x l IH]; intros issues; simpl.
  - symmetry. apply app_nil_r.
  - rewrite IH, (Hf x issues), <- app_assoc. reflexivity.
Qed.

Lemma appends_traverseNodes (cb : HTANode -> list ValidationIssue -> list ValidationIssue)
    nodes :
  (forall node, appends (cb node)) ->
  forall issues,
    traverseNodes nodes cb issues = issues ++ flat_map (fun node => cb node []) (preorder nodes).
Proof.
  intros Hcb issues. rewrite traverseNodes_preorder.
  apply (appends_forEach cb (preorder nodes) Hcb).
Qed.

(** Brings an issue list built by conditional pushes to the form
    [issues ++ pushed]. *)
Ltac appends_normalise :=
  cbv zeta; rewrite ?push_if_app; unfold push;
  rewrite ?app_nil_l, <- ?app_assoc; reflexivity.

Lemma validateNodeProperties_node_appends node : appends (validateNodeProperties_node node).
Proof.
  intros issues. unfold validateNodeProperties_node.
  destruct (blankDescription (description node)); [destruct (isTaskOrSubtask node)|];
    appends_normalise.
Qed.

Lemma validateEstimates_node_appends node : appends (validateEstimates_node node).
Proof.
  intros issues. unfold validateEstimates_node.
  destruct (estimatedHours node) as [hours|]; [destruct (_ && _)|];
    appends_normalise.
Qed.

Lemma validateFeasibility_node_appends node : appends (validateFeasibility_node node).
Proof.
  intros issues. unfold validateFeasibility_node.
  destruct (0 <? _)%nat; [appends_normalise | symmetry; apply app_nil_r].
Qed.

Lemma validateDependencies_node_appends nodes ids node :
  appends (validateDependencies_node nodes ids node).
Proof.
  intros issues. unfold validateDependencies_node.
  destruct (0 <? _)%nat; [|symmetry; apply app_nil_r].
  rewrite !push_if_app.
  match goal with
  | |- context [forEach ?f (dependencies node) issues] =>
      assert (forall depId, appends (f depId)) as Hf
  end.
  { intros depId issues'. cbv beta.
    destruct (decide (depId ∈ ids)); [symmetry; apply app_nil_r | reflexivity]. }
  rewrite (appends_forEach _ _ Hf issues), (appends_forEach _ _ Hf []).
  rewrite app_nil_l, <- app_assoc. reflexivity.
Qed.

Lemma validateNodeTypeHierarchy_appends node siblings path :
  appends (fun issues => validateNodeTypeHierarchy node siblings issues path).
Proof.
  intros issues. unfold validateNodeTypeHierarchy.
  destruct (_ =? -1)%Z; [reflexivity|].
  match goal with
  | |- context [forEach ?f (children node) issues] =>
      assert (forall child, appends (f child)) as Hf
  end.
  { intros child issues'. appends_normalise. }
  rewrite (appends_forEach _ _ Hf issues), (appends_forEach _ _ Hf []). reflexivity.
Qed.

Lemma validateHierarchy_loop_appends nodes :
  forall siblings depth path index issues,
    forEachIndexed_from
      (validateHierarchy_visit validateHierarchy_children siblings depth path)
      index nodes issues
    = issues
      ++ forEachIndexed_from
           (validateHierarchy_visit validateHierarchy_children siblings depth path)
           index nodes [].
Proof.
  induction nodes as [|node rest IHc IHr] using forest_ind;
    intros siblings depth path index issues; simpl; [symmetry; apply app_nil_r|].
  rewrite IHr, (IHr _ _ _ _ (validateHierarchy_visit _ _ _ _ _ _ [])), app_assoc.
  f_equal. unfold validateHierarchy_visit. cbv zeta.
  rewrite (validateNodeTypeHierarchy_appends node siblings _ issues).
  destruct (0 <? length (children node))%nat.
  - rewrite !validateHierarchy_children_eq.
    unfold validateHierarchy, validateHierarchy_with, forEachIndexed. cbv zeta.
    rewrite IHc. symmetry. rewrite IHc. symmetry.
    rewrite !push_if_app. unfold push. rewrite ?app_nil_l, <- ?app_assoc. reflexivity.
  - rewrite !push_if_app. rewrite ?app_nil_l, <- ?app_assoc. reflexivity.
Qed.

Lemma validateHierarchy_appends nodes depth path :
  appends (fun issues => validateHierarchy nodes issues depth path).
Proof.
  intros issues. unfold validateHierarchy, validateHierarchy_with, forEachIndexed.
  cbv zeta. rewrite validateHierarchy_loop_appends. symmetry.
  rewrite validateHierarchy_loop_appends. symmetry.
  rewrite !push_if_app, ?app_nil_l, <- ?app_assoc. reflexivity.
Qed.

Lemma validateCompleteness_appends nodes : appends (validateCompleteness nodes).
Proof. intros issues. unfold validateCompleteness. appends_normalise. Qed.

Lemma validateFeasibility_appends nodes : appends (validateFeasibility nodes).
Proof.
  intros issues. unfold validateFeasibility. cbv zeta.
  rewrite !(appends_traverseNodes _ nodes validateFeasibility_node_appends).
  rewrite !push_if_app, ?app_nil_l, <- ?app_assoc. reflexivity.
Qed.

(** The issues come pass by pass, and within a pass in pre-order. *)
Lemma runChecks_issuesByPass structure : runChecks structure [] = issuesByPass structure.
Proof.
  unfold runChecks, issuesByPass. cbv zeta.
  rewrite validateFeasibility_appends, validateCompleteness_appends.
  unfold validateEstimates, validateDependencies, validateNodeProperties. cbv zeta.
  rewrite (appends_traverseNodes _ structure validateEstimates_node_appends).
  rewrite (appends_traverseNodes _ structure
             (validateDependencies_node_appends structure (collectNodeIds structure))).
  rewrite (appends_traverseNodes _ structure validateNodeProperties_node_appends).
  rewrite <- !app_assoc. reflexivity.
Qed.

(** C4.  The result of [validateHTA] is a function of the forest alone: it is
    the same whatever the logger has recorded before, and a second call
    after a first one returns the same value, issues and suggestions in the
    same order.  The order of the issues is fixed by the forest: pass by
    pass, and within a pass in pre-order of the nodes. *)
Theorem validateHTA_deterministic (structure : list HTANode) :
  (forall logger1 logger2,
     fst (validateHTA structure logger1) = fst (validateHTA structure logger2))
  /\ (forall logger,
        fst (validateHTA structure (snd (validateHTA structure logger)))
        = fst (validateHTA structure logger))
  /\ (forall logger,
        issues (fst (validateHTA structure logger)) = issuesByPass structure).
Proof.
  repeat apply conj; try reflexivity.
  intros logger. unfold validateHTA, conclude. cbn [fst issues].
  apply runChecks_issuesByPass.
Qed.

(** * Further properties of the validator and of the service *)

(** ** Shape metrics *)

Lemma maximum_max (a b : nat) (l : list nat) :
  maximum (Nat.max a b) l = Nat.max b (maximum a l).
Proof. unfold maximum. induction l as [|x l IH]; simpl; lia. Qed.

Lemma maximum_app (a : nat) (l1 l2 : list nat) :
  maximum a (l1 ++ l2) = Nat.max (maximum a l1) (maximum 0 l2).
Proof. unfold maximum. induction l1 as [|x l1 IH]; simpl; [induction l2; simpl; lia | lia]. Qed.

Lemma maximum_ge (a : nat) (l : list nat) :
  a <= maximum a l /\ forall x, In x l -> x <= maximum a l.
Proof.
  unfold maximum. induction l as [|y l [IH1 IH2]]; simpl.
  - split; [lia | intros x []].
  - split; [lia|]. intros x [->|Hx]; [lia|]. specialize (IH2 x Hx). lia.
Qed.

Lemma maximum_attained (a : nat) (l : list nat) :
  maximum a l = a \/ In (maximum a l) l.
Proof.
  unfold maximum. induction l as [|y l IH]; simpl; [auto|].
  destruct (Nat.max_spec y (fold_right Nat.max a l)) as [[_ ->]|[_ ->]]; [|auto].
  destruct IH as [IH|IH]; auto.
Qed.

Lemma forEach_max {A} (g : A -> nat) (l : list A) (acc : nat) :
  forEach (fun x m => Nat.max m (g x)) l acc = maximum acc (map g l).
Proof.
  unfold forEach. revert acc. induction l as [|x l IH]; intros acc; simpl; [reflexivity|].
  rewrite IH, maximum_max. reflexivity.
Qed.

Lemma calculateMaxDepth_children_eq node k :
  calculateMaxDepth_children node k = calculateMaxDepth (children node) k.
Proof. destruct node; reflexivity. Qed.

Lemma calculateMaxDepth_unfold nodes k :
  calculateMaxDepth nodes k
  = maximum k (map (fun node =>
                      if (0 <? length (children node))%nat
                      then calculateMaxDepth (children node) (S k) else 0%nat) nodes).
Proof.
  unfold calculateMaxDepth at 1. unfold calculateMaxDepth_with.
  rewrite <- forEach_max.
  unfold forEach. generalize k at 2 4. induction nodes as [|n nodes IH]; intros acc; simpl;
    [reflexivity|].
  rewrite <- IH. f_equal. unfold calculateMaxDepth_visit.
  rewrite calculateMaxDepth_children_eq, Nat.add_1_r.
  destruct (0 <? length (children n))%nat; lia.
Qed.

Lemma levels_cons k node rest :
  levels k (node :: rest) = k :: levels (S k) (children node) ++ levels k rest.
Proof. destruct node; reflexivity. Qed.

Lemma maximum_start (a : nat) (l : list nat) : maximum a l = Nat.max a (maximum 0 l).
Proof. unfold maximum. induction l; simpl; lia. Qed.

Lemma calculateMaxDepth_levels nodes :
  forall k, calculateMaxDepth nodes k = maximum k (levels k nodes).
Proof.
  induction nodes as [|node rest IHc IHr] using forest_ind; intros k; [reflexivity|].
  rewrite calculateMaxDepth_unfold, levels_cons. simpl map.
  change (maximum k (?x :: ?l)) with (Nat.max x (maximum k l)).
  rewrite <- calculateMaxDepth_unfold, IHc, IHr.
  rewrite maximum_app.
  rewrite (maximum_start k (levels k rest)), (maximum_start (S k)),
    (maximum_start k (levels (S k) _)).
  destruct (children node) as [|c cs] eqn:E; simpl length; cbn [Nat.ltb Nat.leb].
  - simpl. lia.
  - assert (In (S k) (levels (S k) (c :: cs))) as Hin by (rewrite levels_cons; left; reflexivity).
    pose proof (maximum_ge 0 (levels (S k) (c :: cs))) as [_ H2].
    specialize (H2 _ Hin). lia.
Qed.

(** X1.  [calculateMaxDepth nodes k] is the deepest level of the
    forest when its roots are at level [k]: no node lies deeper, and it is
    [k] itself or the level of some node.  A forest without nodes has depth
    [k]. *)
Theorem calculateMaxDepth_deepest_level (nodes : list HTANode) (k : nat) :
  calculateMaxDepth nodes k = maximum k (levels k nodes)
  /\ k <= calculateMaxDepth nodes k
  /\ (forall l, In l (levels k nodes) -> l <= calculateMaxDepth nodes k)
  /\ (calculateMaxDepth nodes k = k \/ In (calculateMaxDepth nodes k) (levels k nodes)).
Proof.
  rewrite calculateMaxDepth_levels.
  pose proof (maximum_ge k (levels k nodes)) as [H1 H2].
  repeat apply conj; auto using maximum_attained.
Qed.

Lemma calculateMaxBreadth_children_eq node :
  calculateMaxBreadth_children node = calculateMaxBreadth (children node).
Proof. destruct node; reflexivity. Qed.

Lemma calculateMaxBreadth_unfold nodes :
  calculateMaxBreadth nodes
  = maximum (length nodes) (map (fun node => calculateMaxBreadth (children node)) nodes).
Proof.
  unfold calculateMaxBreadth at 1. unfold calculateMaxBreadth_with.
  rewrite <- forEach_max.
  unfold forEach. generalize (length nodes). induction nodes as [|n nodes IH]; intros acc;
    simpl; [reflexivity|].
  rewrite <- IH. f_equal. unfold calculateMaxBreadth_visit.
  rewrite calculateMaxBreadth_children_eq.
  destruct (children n) as [|c cs]; [|reflexivity].
  simpl. unfold calculateMaxBreadth, calculateMaxBreadth_with, forEach. simpl. lia.
Qed.

Lemma maximum_cons (a x : nat) (l : list nat) :
  maximum a (x :: l) = Nat.max x (maximum a l).
Proof. reflexivity. Qed.

Lemma calculateMaxBreadth_groupSizes nodes :
  calculateMaxBreadth nodes = maximum 0 (groupSizes nodes).
Proof.
  induction nodes as [|node rest IHc IHr] using forest_ind; [reflexivity|].
  rewrite calculateMaxBreadth_unfold. unfold groupSizes in *.
  rewrite preorder_cons. simpl map. rewrite map_app.
  rewrite calculateMaxBreadth_unfold in IHr.
  rewrite !maximum_cons in *. rewrite maximum_app. rewrite IHc.
  rewrite (maximum_start (length (node :: rest))).
  rewrite (maximum_start (length rest)) in IHr.
  simpl length.
  set (a := maximum 0 (map (fun node0 => calculateMaxBreadth (children node0)) rest)) in *.
  set (b := maximum 0 (map (fun n => length (children n)) (preorder rest))) in *.
  set (c := maximum 0 (map (fun n => length (children n)) (preorder (children node)))) in *.
  lia.
Qed.

(** X2.  [calculateMaxBreadth] is the size of the largest sibling
    group, the root list included: every group is at most that large and
    one group is exactly that large. *)
Theorem calculateMaxBreadth_largest_group (nodes : list HTANode) :
  length nodes <= calculateMaxBreadth nodes
  /\ (forall node, In node (preorder nodes) ->
        length (children node) <= calculateMaxBreadth nodes)
  /\ (calculateMaxBreadth nodes = length nodes
      \/ exists node, In node (preorder nodes)
                      /\ calculateMaxBreadth nodes = length (children node)).
Proof.
  rewrite calculateMaxBreadth_groupSizes.
  pose proof (maximum_ge 0 (groupSizes nodes)) as [_ H].
  pose proof (maximum_attained 0 (groupSizes nodes)) as Hat.
  repeat apply conj.
  - apply H. left. reflexivity.
  - intros node Hin. apply H. right. apply in_map_iff. exists node. auto.
  - destruct Hat as [H0|[Heq|Hin]].
    + left. specialize (H (length nodes) (or_introl eq_refl)). lia.
    + left. symmetry. exact Heq.
    + right. apply in_map_iff in Hin as (node & Heq & Hin). exists node. auto.
Qed.

(** X3.  [traverseNodes] hands every node of the forest to the
    callback exactly once, a node before its descendants and siblings in
    their order; [countNodes] is the number of nodes so visited. *)
Theorem traverseNodes_visits_preorder {St : Type} (nodes : list HTANode)
    (callback : HTANode -> St -> St) (s : St) :
  traverseNodes nodes callback s = fold_left (fun s node => callback node s) (preorder nodes) s
  /\ traverseNodes nodes (fun node (visited : list HTANode) => visited ++ [node]) []
     = preorder nodes
  /\ countNodes nodes = length (preorder nodes).
Proof.
  repeat apply conj.
  - apply traverseNodes_preorder.
  - rewrite traverseNodes_preorder.
    assert (forall (l acc : list HTANode),
              fold_left (fun s node => s ++ [node]) l acc = acc ++ l) as H.
    { induction l as [|x l IH]; intros acc; simpl; [symmetry; apply app_nil_r|].
      rewrite IH, <- app_assoc. reflexivity. }
    apply (H (preorder nodes) []).
  - apply countNodes_preorder.
Qed.

(** X4.  [findNodeById] returns the first node in pre-order that bears
    the id, and [null] exactly when no node of the forest bears it. *)
Theorem findNodeById_first_in_preorder (nodes : list HTANode) (i : string) :
  findNodeById nodes i = List.find (fun node => String.eqb (id node) i) (preorder nodes)
  /\ (findNodeById nodes i = None
      <-> forall node, In node (preorder nodes) -> id node <> i)
  /\ (forall found, findNodeById nodes i = Some found ->
        In found (preorder nodes) /\ id found = i).
Proof.
  split; [|split].
  - apply findNodeById_find.
  - rewrite findNodeById_find. split.
    + intros H node Hin E. pose proof (find_none _ _ H node Hin) as Hf. cbv beta in Hf.
      rewrite E, String.eqb_refl in Hf. discriminate.
    + intros H. destruct (List.find _ _) as [found|] eqn:E; [|reflexivity].
      apply find_some in E as [Hin Heq]. apply String.eqb_eq in Heq.
      destruct (H found Hin Heq).
  - intros found. apply findNodeById_Some.
Qed.

(** ** What the passes can push *)

Lemma emits_nil_Forall Q after : emits Q [] after -> Forall Q after.
Proof. intros (new & -> & H). exact H. Qed.

(** Peels conditional pushes whose issue is in the rows by computation. *)
Ltac emits_rows :=
  cbv zeta;
  repeat first
    [ apply emits_refl
    | apply emits_push_if; intros _; unfold listed; simpl; tauto
    | eapply emits_trans; [|apply emits_push_if; intros _; unfold listed; simpl; tauto] ].

Lemma validateHierarchy_rows nodes issues depth path :
  emits (listed hierarchyRows) issues (validateHierarchy nodes issues depth path).
Proof.
  apply validateHierarchy_emits.
  - intros p. unfold listed. simpl. tauto.
  - intros n. unfold listed. simpl. tauto.
  - intros node _. split; intros; unfold listed; simpl; tauto.
Qed.

Lemma validateNodeProperties_node_rows node issues :
  emits (listed fieldRows) issues (validateNodeProperties_node node issues).
Proof.
  unfold validateNodeProperties_node. cbv zeta.
  destruct (blankDescription (description node)); emits_rows.
Qed.

Lemma validateDependencies_node_rows nodes ids node issues :
  emits (listed dependencyRows) issues (validateDependencies_node nodes ids node issues).
Proof.
  unfold validateDependencies_node.
  destruct (0 <? length (dependencies node))%nat; [|apply emits_refl].
  eapply emits_trans; [|apply emits_push_if; intros _; unfold listed; simpl; tauto].
  apply emits_forEach. intros depId issues' _.
  destruct (decide (depId ∈ ids)); [apply emits_refl|].
  apply emits_push. unfold listed. simpl. tauto.
Qed.

Lemma validateEstimates_node_rows node issues :
  emits (listed estimateRows) issues (validateEstimates_node node issues).
Proof.
  unfold validateEstimates_node.
  destruct (estimatedHours node) as [hours|]; [|emits_rows].
  cbv zeta. destruct (_ && _); emits_rows.
Qed.

Lemma validateCompleteness_rows nodes issues :
  emits (listed completenessRows) issues (validateCompleteness nodes issues).
Proof. unfold validateCompleteness. emits_rows. Qed.

Lemma validateFeasibility_rows nodes issues :
  emits (listed feasibilityRows) issues (validateFeasibility nodes issues).
Proof.
  unfold validateFeasibility. cbv zeta.
  eapply emits_trans;
    [|apply emits_traverseNodes; intros node issues' _;
      unfold validateFeasibility_node; destruct (0 <? _)%nat; emits_rows].
  emits_rows.
Qed.

Lemma Forall_flat_map_nodes (Q : ValidationIssue -> Prop)
    (f : HTANode -> list ValidationIssue) (l : list HTANode) :
  (forall node, Forall Q (f node)) -> Forall Q (flat_map f l).
Proof.
  intros H. induction l as [|n l IH]; simpl; [constructor|].
  apply Forall_app. auto.
Qed.

(** The blocks of [issuesByPass], each with its rows. *)
Lemma issuesByPass_blocks structure i :
  In i (issuesByPass structure) ->
  (In i (validateHierarchy structure [] 0 "") /\ listed hierarchyRows i)
  \/ (In i (flat_map (fun node => validateNodeProperties_node node []) (preorder structure))
      /\ listed fieldRows i)
  \/ (In i (flat_map (fun node =>
                        validateDependencies_node structure (collectNodeIds structure) node [])
              (preorder structure))
      /\ listed dependencyRows i)
  \/ (In i (flat_map (fun node => validateEstimates_node node []) (preorder structure))
      /\ listed estimateRows i)
  \/ (In i (validateCompleteness structure []) /\ listed completenessRows i)
  \/ (In i (validateFeasibility structure []) /\ listed feasibilityRows i).
Proof.
  unfold issuesByPass. rewrite !in_app_iff.
  pose proof (emits_nil_Forall _ _ (validateHierarchy_rows structure [] 0 "")) as H1.
  pose proof (Forall_flat_map_nodes _ _ (preorder structure)
                (fun node => emits_nil_Forall _ _ (validateNodeProperties_node_rows node [])))
    as H2.
  pose proof (Forall_flat_map_nodes _ _ (preorder structure)
                (fun node => emits_nil_Forall _ _
                   (validateDependencies_node_rows structure (collectNodeIds structure)
                      node []))) as H3.
  pose proof (Forall_flat_map_nodes _ _ (preorder structure)
                (fun node => emits_nil_Forall _ _ (validateEstimates_node_rows node [])))
    as H4.
  pose proof (emits_nil_Forall _ _ (validateCompleteness_rows structure [])) as H5.
  pose proof (emits_nil_Forall _ _ (validateFeasibility_rows structure [])) as H6.
  rewrite List.Forall_forall in H1, H2, H3, H4, H5, H6.
  intros [H|[H|[H|[H|[H|H]]]]]; auto 10.
Qed.

Lemma validateHTA_issues structure logger :
  issues (fst (validateHTA structure logger)) = issuesByPass structure.
Proof. unfold validateHTA, conclude. cbn [fst issues]. apply runChecks_issuesByPass. Qed.

(** X5.  Every issue that [validateHTA] reports on a forest bears
    one of twenty-one codes, each with the kind, the severity and the
    [autoFixable] flag of its row; in particular never [VALIDATION_ERROR]
    and never an issue of kind suggestion. *)
Theorem validateHTA_issue_catalogue (structure : list HTANode) (logger : Logger)
    (i : ValidationIssue) :
  In i (issues (fst (validateHTA structure logger))) ->
  listed issueCatalogue i
  /\ Issue.code i <> "VALIDATION_ERROR"
  /\ Issue.type i <> suggestion.
Proof.
  rewrite validateHTA_issues. intros Hin.
  assert (listed issueCatalogue i) as Hl.
  { unfold listed, issueCatalogue. rewrite !in_app_iff.
    destruct (issuesByPass_blocks structure i Hin) as [[_ H]|[[_ H]|[[_ H]|[[_ H]|[[_ H]|[_ H]]]]]];
      unfold listed in H; auto 10. }
  split; [exact Hl|].
  unfold listed, signature in Hl. simpl in Hl.
  split; intros E; rewrite E in Hl;
    repeat (destruct Hl as [Hl|Hl]; [discriminate Hl|]); exact Hl.
Qed.

(** ** The hierarchy pass, node by node *)

Lemma hierarchy_visit_eq siblings depth path node index issues :
  validateHierarchy_visit validateHierarchy_children siblings depth path node index issues
  = issues ++ hierarchyNodeIssues node
    ++ (if (0 <? length (children node))%nat
        then validateHierarchy (children node) [] (depth + 1)
               (if String.eqb path "" then showNat index
                else path +:+ "." +:+ showNat index)
        else []).
Proof.
  unfold validateHierarchy_visit, hierarchyNodeIssues. cbv zeta.
  rewrite (validateNodeTypeHierarchy_appends node siblings _ issues).
  change (validateNodeTypeHierarchy node siblings [] _)
    with (validateNodeTypeHierarchy node [] [] "").
  destruct (0 <? length (children node))%nat.
  - rewrite validateHierarchy_children_eq.
    rewrite (validateHierarchy_appends (children node) _ _ _).
    rewrite push_if_app, <- !app_assoc. reflexivity.
  - rewrite push_if_app, app_nil_r, <- !app_assoc. reflexivity.
Qed.

Lemma hierarchy_loop_cons siblings depth path index node rest :
  forEachIndexed_from (validateHierarchy_visit validateHierarchy_children siblings depth path)
    index (node :: rest) []
  = hierarchyNodeIssues node
    ++ (if (0 <? length (children node))%nat
        then validateHierarchy (children node) [] (depth + 1)
               (if String.eqb path "" then showNat index
                else path +:+ "." +:+ showNat index)
        else [])
    ++ forEachIndexed_from
         (validateHierarchy_visit validateHierarchy_children siblings depth path)
         (S index) rest [].
Proof.
  simpl. rewrite validateHierarchy_loop_appends, hierarchy_visit_eq.
  rewrite app_nil_l, <- app_assoc. reflexivity.
Qed.

Lemma validateHierarchy_loop nodes depth path :
  validateHierarchy nodes [] depth path
  = (if (6 <? depth)%nat then [excessiveDepthIssue path] else [])
    ++ forEachIndexed_from
         (validateHierarchy_visit validateHierarchy_children nodes depth path) 0 nodes [].
Proof.
  unfold validateHierarchy, validateHierarchy_with, forEachIndexed. cbv zeta.
  rewrite validateHierarchy_loop_appends, push_if_app. reflexivity.
Qed.

(** Every issue of the hierarchy pass is a depth warning or one of the
    issues of a node of the forest. *)
Lemma hierarchy_loop_sound nodes :
  forall siblings depth path index x,
    In x (forEachIndexed_from
            (validateHierarchy_visit validateHierarchy_children siblings depth path)
            index nodes []) ->
    (exists p, x = excessiveDepthIssue p)
    \/ exists node, In node (preorder nodes) /\ In x (hierarchyNodeIssues node).
Proof.
  induction nodes as [|node rest IHc IHr] using forest_ind;
    intros siblings depth path index x Hin; [destruct Hin|].
  rewrite hierarchy_loop_cons in Hin. rewrite preorder_cons.
  apply in_app_or in Hin as [Hin|Hin]; [right; exists node; simpl; auto|].
  apply in_app_or in Hin as [Hin|Hin].
  - destruct (0 <? length (children node))%nat; [|destruct Hin].
    rewrite validateHierarchy_loop in Hin.
    apply in_app_or in Hin as [Hin|Hin].
    + destruct (6 <? depth + 1)%nat; [|destruct Hin].
      destruct Hin as [<-|[]]. left. eauto.
    + destruct (IHc _ _ _ _ _ Hin) as [H|(n & Hn & Hx)]; [auto|].
      right. exists n. split; [|exact Hx]. right. apply in_or_app. auto.
  - destruct (IHr _ _ _ _ _ Hin) as [H|(n & Hn & Hx)]; [auto|].
    right. exists n. split; [|exact Hx]. right. apply in_or_app. auto.
Qed.

(** And every issue of a node of the forest is pushed. *)
Lemma hierarchy_loop_complete nodes :
  forall node x, In node (preorder nodes) -> In x (hierarchyNodeIssues node) ->
    forall siblings depth path index,
      In x (forEachIndexed_from
              (validateHierarchy_visit validateHierarchy_children siblings depth path)
              index nodes []).
Proof.
  induction nodes as [|node rest IHc IHr] using forest_ind;
    intros n x Hn Hx siblings depth path index; [destruct Hn|].
  rewrite hierarchy_loop_cons. rewrite preorder_cons in Hn.
  destruct Hn as [<-|Hn]; [apply in_or_app; auto|].
  apply in_or_app. right. apply in_or_app.
  apply in_app_or in Hn as [Hn|Hn].
  - left. destruct (children node) as [|c cs] eqn:E; [destruct Hn|].
    cbn [length Nat.ltb Nat.leb]. rewrite validateHierarchy_loop.
    apply in_or_app. right. apply (IHc n x Hn Hx).
  - right. apply (IHr n x Hn Hx).
Qed.

Lemma validateHierarchy_sound nodes depth path x :
  In x (validateHierarchy nodes [] depth path) ->
  (exists p, x = excessiveDepthIssue p)
  \/ exists node, In node (preorder nodes) /\ In x (hierarchyNodeIssues node).
Proof.
  rewrite validateHierarchy_loop. intros Hin.
  apply in_app_or in Hin as [Hin|Hin]; [|eapply hierarchy_loop_sound; eauto].
  destruct (6 <? depth)%nat; [|destruct Hin]. destruct Hin as [<-|[]]. left. eauto.
Qed.

Lemma validateHierarchy_complete nodes depth path node x :
  In node (preorder nodes) -> In x (hierarchyNodeIssues node) ->
  In x (validateHierarchy nodes [] depth path).
Proof.
  intros Hn Hx. rewrite validateHierarchy_loop. apply in_or_app. right.
  apply (hierarchy_loop_complete nodes node x Hn Hx).
Qed.

(** Which issues a node gets. *)
Lemma hierarchyNodeIssues_spec node x :
  In x (hierarchyNodeIssues node) <->
  (knownRank node = false /\ x = invalidNodeTypeIssue node)
  \/ (knownRank node = true
      /\ exists child, In child (children node) /\ knownRank child = true
                       /\ (rankIndex child <= rankIndex node)%Z
                       /\ x = invalidHierarchyIssue node child)
  \/ ((8 < length (children node))%nat /\ x = tooManyChildrenIssue node).
Proof.
  unfold hierarchyNodeIssues, validateNodeTypeHierarchy, knownRank.
  fold (rankIndex node). rewrite in_app_iff.
  assert (forall l,
            In x (forEach
                    (fun child issues =>
                       if negb (indexOf typeHierarchy (type child) =? -1)%Z
                          && (indexOf typeHierarchy (type child) <=? rankIndex node)%Z
                       then push issues (invalidHierarchyIssue node child) else issues) l [])
            <-> exists child, In child l /\ negb (rankIndex child =? -1)%Z = true
                              /\ (rankIndex child <= rankIndex node)%Z
                              /\ x = invalidHierarchyIssue node child) as Hloop.
  { intros l. rewrite appends_forEach by (intros child issues'; appends_normalise).
    rewrite app_nil_l, in_flat_map. split.
    - intros (child & Hc & Hx). exists child. split; [exact Hc|].
      fold (rankIndex child) in Hx.
      destruct (negb (rankIndex child =? -1)%Z) eqn:E1; [|destruct Hx].
      destruct (rankIndex child <=? rankIndex node)%Z eqn:E2; [|destruct Hx].
      destruct Hx as [<-|[]]. apply Z.leb_le in E2. auto.
    - intros (child & Hc & Hk & Hle & ->). exists child. split; [exact Hc|].
      fold (rankIndex child). rewrite Hk. apply Z.leb_le in Hle. rewrite Hle.
      left. reflexivity. }
  destruct (rankIndex node =? -1)%Z eqn:E; simpl negb.
  - split.
    + intros [[<-|[]]|H]; [auto|].
      destruct (8 <? length (children node))%nat eqn:E8; [|destruct H].
      destruct H as [<-|[]]. apply Nat.ltb_lt in E8. auto.
    + intros [[_ ->]|[[Hk _]|[H8 ->]]]; [left; left; reflexivity | discriminate|].
      right. apply Nat.ltb_lt in H8. rewrite H8. left. reflexivity.
  - rewrite Hloop. split.
    + intros [H|H]; [right; left; auto|].
      destruct (8 <? length (children node))%nat eqn:E8; [|destruct H].
      destruct H as [<-|[]]. apply Nat.ltb_lt in E8. auto.
    + intros [[Hk _]|[[_ H]|[H8 ->]]]; [discriminate | auto|].
      right. apply Nat.ltb_lt in H8. rewrite H8. left. reflexivity.
Qed.

(** ** Blocks and codes *)

Ltac rows_clash :=
  match goal with
  | H1 : listed _ ?i, H2 : listed _ ?i |- _ =>
      unfold listed in H1, H2; simpl in H1, H2;
      repeat (destruct H1 as [H1|H1]; [rewrite <- H1 in H2; simpl in H2;
                                       repeat (destruct H2 as [H2|H2]; [discriminate H2|]);
                                       destruct H2|]);
      destruct H1
  end.

Lemma issuesByPass_hierarchy structure i :
  In i (issuesByPass structure) -> listed hierarchyRows i ->
  In i (validateHierarchy structure [] 0 "").
Proof.
  intros Hin Hl.
  destruct (issuesByPass_blocks structure i Hin)
    as [[H _]|[[_ H]|[[_ H]|[[_ H]|[[_ H]|[_ H]]]]]]; [exact H| | | | |]; rows_clash.
Qed.

Lemma issuesByPass_dependencies structure i :
  In i (issuesByPass structure) -> listed dependencyRows i ->
  In i (flat_map (fun node =>
                    validateDependencies_node structure (collectNodeIds structure) node [])
          (preorder structure)).
Proof.
  intros Hin Hl.
  destruct (issuesByPass_blocks structure i Hin)
    as [[_ H]|[[_ H]|[[H _]|[[_ H]|[[_ H]|[_ H]]]]]]; [| |exact H| | |]; rows_clash.
Qed.

Lemma issuesByPass_estimates structure i :
  In i (issuesByPass structure) -> listed estimateRows i ->
  In i (flat_map (fun node => validateEstimates_node node []) (preorder structure)).
Proof.
  intros Hin Hl.
  destruct (issuesByPass_blocks structure i Hin)
    as [[_ H]|[[_ H]|[[_ H]|[[H _]|[[_ H]|[_ H]]]]]]; [| | |exact H| |]; rows_clash.
Qed.

Lemma issuesByPass_feasibility structure i :
  In i (issuesByPass structure) -> listed feasibilityRows i ->
  In i (validateFeasibility structure []).
Proof.
  intros Hin Hl.
  destruct (issuesByPass_blocks structure i Hin)
    as [[_ H]|[[_ H]|[[_ H]|[[_ H]|[[_ H]|[H _]]]]]]; [| | | | |exact H]; rows_clash.
Qed.

Lemma in_hierarchy_block structure i :
  In i (validateHierarchy structure [] 0 "") -> In i (issuesByPass structure).
Proof. intros H. unfold issuesByPass. apply in_or_app. auto. Qed.

(** ** Rank errors, exactly *)

Lemma invalid_node_type_iff (structure : list HTANode) (x : ValidationIssue) :
  (In x (issuesByPass structure)
   /\ Issue.code x = "INVALID_NODE_TYPE")
  <-> exists node, In node (preorder structure) /\ knownRank node = false
                   /\ x = invalidNodeTypeIssue node.
Proof.
  split.
  - intros [Hin Hcode].
    assert (listed hierarchyRows x) as Hl.
    { destruct (issuesByPass_blocks structure x Hin)
        as [[_ H]|[[_ H]|[[_ H]|[[_ H]|[[_ H]|[_ H]]]]]]; [exact H| | | | |];
        unfold listed, signature in H; simpl in H; rewrite Hcode in H;
        repeat (destruct H as [H|H]; [discriminate H|]); destruct H. }
    apply issuesByPass_hierarchy in Hin; [|exact Hl].
    apply validateHierarchy_sound in Hin as [[p ->]|(node & Hn & Hx)]; [discriminate|].
    apply hierarchyNodeIssues_spec in Hx
      as [[Hk ->]|[(_ & c & _ & _ & _ & ->)|[_ ->]]]; [eauto | discriminate | discriminate].
  - intros (node & Hn & Hk & ->). split; [|reflexivity].
    apply in_hierarchy_block. apply (validateHierarchy_complete _ _ _ node); [exact Hn|].
    apply hierarchyNodeIssues_spec. auto.
Qed.

Lemma invalid_hierarchy_iff (structure : list HTANode) (x : ValidationIssue) :
  (In x (issuesByPass structure)
   /\ Issue.code x = "INVALID_HIERARCHY")
  <-> exists parent child,
        In parent (preorder structure) /\ In child (children parent)
        /\ knownRank parent = true /\ knownRank child = true
        /\ (rankIndex child <= rankIndex parent)%Z
        /\ x = invalidHierarchyIssue parent child.
Proof.
  split.
  - intros [Hin Hcode].
    assert (listed hierarchyRows x) as Hl.
    { destruct (issuesByPass_blocks structure x Hin)
        as [[_ H]|[[_ H]|[[_ H]|[[_ H]|[[_ H]|[_ H]]]]]]; [exact H| | | | |];
        unfold listed, signature in H; simpl in H; rewrite Hcode in H;
        repeat (destruct H as [H|H]; [discriminate H|]); destruct H. }
    apply issuesByPass_hierarchy in Hin; [|exact Hl].
    apply validateHierarchy_sound in Hin as [[p ->]|(node & Hn & Hx)]; [discriminate|].
    apply hierarchyNodeIssues_spec in Hx
      as [[Hk ->]|[(Hk & c & Hc & Hkc & Hle & ->)|[_ ->]]]; [discriminate| |discriminate].
    exists node, c. auto 10.
  - intros (parent & child & Hp & Hc & Hkp & Hkc & Hle & ->). split; [|reflexivity].
    apply in_hierarchy_block. apply (validateHierarchy_complete _ _ _ parent); [exact Hp|].
    apply hierarchyNodeIssues_spec. right. left. split; [exact Hkp|].
    exists child. auto.
Qed.

(** X6.  The result holds an [INVALID_NODE_TYPE] issue exactly
    for the nodes whose type is not one of the five ranks, and an
    [INVALID_HIERARCHY] issue exactly for the pairs of a parent of known rank
    and a child of known rank whose index is not greater than the parent's:
    no such node or pair is missed, and every issue with one of the two
    codes is the one of such a node or pair.  A child under a parent of
    unknown type is not compared with it. *)
Theorem validateHTA_rank_errors (structure : list HTANode) (logger : Logger)
    (x : ValidationIssue) :
  ((In x (issues (fst (validateHTA structure logger)))
    /\ Issue.code x = "INVALID_NODE_TYPE")
   <-> exists node, In node (preorder structure) /\ knownRank node = false
                    /\ x = invalidNodeTypeIssue node)
  /\ ((In x (issues (fst (validateHTA structure logger)))
       /\ Issue.code x = "INVALID_HIERARCHY")
      <-> exists parent child,
            In parent (preorder structure) /\ In child (children parent)
            /\ knownRank parent = true /\ knownRank child = true
            /\ (rankIndex child <= rankIndex parent)%Z
            /\ x = invalidHierarchyIssue parent child).
Proof.
  rewrite validateHTA_issues.
  split; [apply invalid_node_type_iff | apply invalid_hierarchy_iff].
Qed.

(** ** Suggestions *)

Lemma pushWhen_app (b : bool) (s : string) (l : list string) :
  pushWhen b s l = l ++ (if b then [s] else []).
Proof. destruct b; [reflexivity | symmetry; apply app_nil_r]. Qed.

Lemma generateSuggestions_rules issues metrics :
  generateSuggestions issues metrics
  = ruleSuggestions issues metrics
    ++ (if (length (ruleSuggestions issues metrics) =? 0)%nat
        then [affirmativeSuggestion] else []).
Proof.
  unfold generateSuggestions. cbv zeta. rewrite !pushWhen_app.
  unfold ruleSuggestions. cbv zeta. rewrite app_nil_l, <- !app_assoc. reflexivity.
Qed.

(** X7.  [generateSuggestions] never returns an empty list and
    never more than six suggestions; the affirmative one is returned exactly
    when no rule fires, and then it is the only one. *)
Theorem generateSuggestions_shape (issues : list ValidationIssue) (metrics : Metrics) :
  (1 <= length (generateSuggestions issues metrics) <= 6)%nat
  /\ (ruleSuggestions issues metrics = []
      -> generateSuggestions issues metrics = [affirmativeSuggestion])
  /\ (ruleSuggestions issues metrics <> []
      -> generateSuggestions issues metrics = ruleSuggestions issues metrics
         /\ ~ In affirmativeSuggestion (generateSuggestions issues metrics)).
Proof.
  rewrite generateSuggestions_rules. split; [|split].
  - assert (length (ruleSuggestions issues metrics) <= 6)%nat as Hle.
    { unfold ruleSuggestions. cbv zeta. rewrite !length_app.
      repeat match goal with |- context [if ?b then _ else _] => destruct b end;
        simpl; lia. }
    destruct (ruleSuggestions issues metrics) as [|s l]; simpl in *;
      [lia | rewrite length_app; simpl; lia].
  - intros ->. reflexivity.
  - intros Hne.
    assert ((length (ruleSuggestions issues metrics) =? 0)%nat = false) as ->.
    { destruct (ruleSuggestions issues metrics); [congruence | reflexivity]. }
    rewrite app_nil_r. split; [reflexivity|].
    unfold ruleSuggestions. cbv zeta. rewrite !in_app_iff.
    intros [H|[H|[H|[H|[H|H]]]]];
      match type of H with In _ (if ?b then _ else _) => destruct b end;
      simpl in H; try tauto; destruct H as [H|[]]; try discriminate H.
Qed.

Lemma validateHTA_suggestions structure logger :
  suggestions (fst (validateHTA structure logger))
  = generateSuggestions (issuesByPass structure) (calculateMetrics structure).
Proof.
  unfold validateHTA, conclude. cbn [fst suggestions]. rewrite runChecks_issuesByPass.
  reflexivity.
Qed.

Lemma gtb_ofNat (n : nat) (z : Z) : gtb (ofNat n) (ofZ z) = (z <? Z.of_nat n)%Z.
Proof. unfold gtb, ofNat. apply ltb_ofZ. Qed.

Lemma grouping_suggestion_iff issues metrics :
  In "Group related tasks to reduce cognitive load" (generateSuggestions issues metrics)
  <-> gtb (breadth metrics) (ofZ 8) = true.
Proof.
  rewrite generateSuggestions_rules, in_app_iff. unfold ruleSuggestions. cbv zeta.
  rewrite !in_app_iff. split.
  - intros [[H|[H|[H|[H|[H|H]]]]]|H];
      match type of H with In _ (if ?b then _ else _) => destruct b eqn:E end;
      simpl in H; try tauto; try (destruct H as [H|[]]; discriminate H).
  - intros ->. left. right. right. right. left. left. reflexivity.
Qed.

Lemma flattening_suggestion_iff issues metrics :
  In "Consider flattening the hierarchy to improve manageability"
    (generateSuggestions issues metrics)
  <-> gtb (depth metrics) (ofZ 5) = true.
Proof.
  rewrite generateSuggestions_rules, in_app_iff. unfold ruleSuggestions. cbv zeta.
  rewrite !in_app_iff. split.
  - intros [[H|[H|[H|[H|[H|H]]]]]|H];
      match type of H with In _ (if ?b then _ else _) => destruct b eqn:E end;
      simpl in H; try tauto; try (destruct H as [H|[]]; discriminate H).
  - intros ->. left. right. right. left. left. reflexivity.
Qed.

Lemma phases_suggestion_iff issues metrics :
  In "Consider breaking the project into phases or reducing scope"
    (generateSuggestions issues metrics)
  <-> ltb (feasibility metrics) (ofZ 60) = true.
Proof.
  rewrite generateSuggestions_rules, in_app_iff. unfold ruleSuggestions. cbv zeta.
  rewrite !in_app_iff. split.
  - intros [[H|[H|[H|[H|[H|H]]]]]|H];
      match type of H with In _ (if ?b then _ else _) => destruct b eqn:E end;
      simpl in H; try tauto; try (destruct H as [H|[]]; discriminate H).
  - intros ->. left. right. right. right. right. right. left. reflexivity.
Qed.

(** ** Too many children, and the breadth suggestion *)

(** X8.  The result holds a [TOO_MANY_CHILDREN] warning exactly for
    the nodes with more than eight children.  The suggestion to group tasks
    follows the breadth metric instead: it is given when such a node exists
    and also when the forest has more than eight roots, for which no warning
    is pushed. *)
Theorem validateHTA_too_many_children (structure : list HTANode) (logger : Logger) :
  (forall x,
     (In x (issues (fst (validateHTA structure logger)))
      /\ Issue.code x = "TOO_MANY_CHILDREN")
     <-> exists node, In node (preorder structure)
                      /\ (8 < length (children node))%nat
                      /\ x = tooManyChildrenIssue node)
  /\ (In "Group related tasks to reduce cognitive load"
        (suggestions (fst (validateHTA structure logger)))
      <-> (8 < length structure)%nat
          \/ exists node, In node (preorder structure) /\ (8 < length (children node))%nat).
Proof.
  split.
  - intros x. rewrite validateHTA_issues. split.
    + intros [Hin Hcode].
      assert (listed hierarchyRows x) as Hl.
      { destruct (issuesByPass_blocks structure x Hin)
          as [[_ H]|[[_ H]|[[_ H]|[[_ H]|[[_ H]|[_ H]]]]]]; [exact H| | | | |];
          unfold listed, signature in H; simpl in H; rewrite Hcode in H;
          repeat (destruct H as [H|H]; [discriminate H|]); destruct H. }
      apply issuesByPass_hierarchy in Hin; [|exact Hl].
      apply validateHierarchy_sound in Hin as [[p ->]|(node & Hn & Hx)]; [discriminate|].
      apply hierarchyNodeIssues_spec in Hx
        as [[Hk ->]|[(_ & c & _ & _ & _ & ->)|[H8 ->]]]; [discriminate | discriminate|].
      eauto.
    + intros (node & Hn & H8 & ->). split; [|reflexivity].
      apply in_hierarchy_block. apply (validateHierarchy_complete _ _ _ node); [exact Hn|].
      apply hierarchyNodeIssues_spec. auto.
  - rewrite validateHTA_suggestions, grouping_suggestion_iff.
    unfold calculateMetrics, metricsOf. cbn [breadth]. rewrite gtb_ofNat.
    rewrite Z.ltb_lt.
    rewrite calculateMaxBreadth_groupSizes.
    pose proof (maximum_ge 0 (groupSizes structure)) as [_ Hge].
    split.
    + intros H. destruct (maximum_attained 0 (groupSizes structure)) as [H0|[Heq|Hin]].
      * lia.
      * left. lia.
      * right. apply in_map_iff in Hin as (node & Heq & Hin). exists node.
        split; [exact Hin | lia].
    + intros [H|(node & Hn & H)].
      * specialize (Hge (length structure) (or_introl eq_refl)). lia.
      * assert (In (length (children node)) (groupSizes structure)) as Hin
          by (right; apply in_map_iff; exists node; auto).
        specialize (Hge _ Hin). lia.
Qed.

(** ** The depth warning and the depth metric *)

Lemma reports_app c l1 l2 : reports c (l1 ++ l2) = reports c l1 || reports c l2.
Proof. apply existsb_app. Qed.

Lemma reports_In c l : reports c l = true <-> exists x, In x l /\ Issue.code x = c.
Proof.
  unfold reports. rewrite existsb_exists. unfold hasCode.
  split; intros (x & Hx & H); exists x; (split; [exact Hx|]); apply String.eqb_eq, H.
Qed.

Lemma hierarchyNodeIssues_no_depth_warning node :
  reports "EXCESSIVE_DEPTH" (hierarchyNodeIssues node) = false.
Proof.
  destruct (reports "EXCESSIVE_DEPTH" (hierarchyNodeIssues node)) eqn:E; [|reflexivity].
  apply reports_In in E as (x & Hx & Hc).
  apply hierarchyNodeIssues_spec in Hx
    as [[_ ->]|[(_ & c & _ & _ & _ & ->)|[_ ->]]]; discriminate.
Qed.

Lemma ltb_max (k a b : nat) : (k <? Nat.max a b)%nat = (k <? a)%nat || (k <? b)%nat.
Proof.
  destruct (Nat.ltb_spec k a), (Nat.ltb_spec k b), (Nat.ltb_spec k (Nat.max a b));
    simpl; try reflexivity; lia.
Qed.

Lemma depth_warning_loop nodes :
  forall siblings depth path index,
    reports "EXCESSIVE_DEPTH"
      (forEachIndexed_from
         (validateHierarchy_visit validateHierarchy_children siblings depth path)
         index nodes [])
    = (6 <? maximum 0
              (map (fun node =>
                      if (0 <? length (children node))%nat
                      then calculateMaxDepth (children node) (S depth) else 0%nat)
                 nodes))%nat.
Proof.
  induction nodes as [|node rest IHc IHr] using forest_ind;
    intros siblings depth path index; [reflexivity|].
  rewrite hierarchy_loop_cons, !reports_app, hierarchyNodeIssues_no_depth_warning, IHr.
  simpl map. rewrite maximum_cons, ltb_max. simpl orb. f_equal.
  destruct (0 <? length (children node))%nat; [|reflexivity].
  rewrite validateHierarchy_loop, reports_app, IHc, Nat.add_1_r.
  rewrite (calculateMaxDepth_unfold (children node) (S depth)).
  rewrite (maximum_start (S depth)), ltb_max.
  f_equal. destruct (6 <? S depth)%nat; reflexivity.
Qed.

Lemma depth_warning_iff nodes depth path :
  reports "EXCESSIVE_DEPTH" (validateHierarchy nodes [] depth path)
  = (6 <? calculateMaxDepth nodes depth)%nat.
Proof.
  rewrite validateHierarchy_loop, reports_app, depth_warning_loop.
  rewrite (calculateMaxDepth_unfold nodes depth), (maximum_start depth), ltb_max.
  f_equal. destruct (6 <? depth)%nat; reflexivity.
Qed.

(** X9.  The result holds an [EXCESSIVE_DEPTH] warning exactly
    when the depth metric is 7 or more, that is when some node lies eight
    levels deep; the suggestion to flatten the hierarchy is given from a
    depth metric of 6 on. *)
Theorem validateHTA_excessive_depth (structure : list HTANode) (logger : Logger) :
  ((exists x, In x (issues (fst (validateHTA structure logger)))
              /\ Issue.code x = "EXCESSIVE_DEPTH")
   <-> (7 <= calculateMaxDepth structure 0)%nat)
  /\ (In "Consider flattening the hierarchy to improve manageability"
        (suggestions (fst (validateHTA structure logger)))
      <-> (6 <= calculateMaxDepth structure 0)%nat)
  /\ depth (metrics (fst (validateHTA structure logger)))
     = ofNat (calculateMaxDepth structure 0).
Proof.
  split; [|split; [|reflexivity]].
  - rewrite validateHTA_issues. split.
    + intros (x & Hin & Hcode).
      assert (listed hierarchyRows x) as Hl.
      { destruct (issuesByPass_blocks structure x Hin)
          as [[_ H]|[[_ H]|[[_ H]|[[_ H]|[[_ H]|[_ H]]]]]]; [exact H| | | | |];
          unfold listed, signature in H; simpl in H; rewrite Hcode in H;
          repeat (destruct H as [H|H]; [discriminate H|]); destruct H. }
      apply issuesByPass_hierarchy in Hin; [|exact Hl].
      assert (reports "EXCESSIVE_DEPTH" (validateHierarchy structure [] 0 "") = true) as Hr
        by (apply reports_In; eauto).
      rewrite depth_warning_iff in Hr. apply Nat.ltb_lt in Hr. lia.
    + intros H.
      assert (reports "EXCESSIVE_DEPTH" (validateHierarchy structure [] 0 "") = true) as Hr
        by (rewrite depth_warning_iff; apply Nat.ltb_lt; lia).
      apply reports_In in Hr as (x & Hx & Hc). exists x. split; [|exact Hc].
      apply in_hierarchy_block, Hx.
  - rewrite validateHTA_suggestions, flattening_suggestion_iff.
    unfold calculateMetrics, metricsOf. cbn [depth]. rewrite gtb_ofNat, Z.ltb_lt. lia.
Qed.

(** ** Ranges of the metrics *)

(** X10.  The complexity metric is an integer from 0 to 100;
    the feasibility metric is 50 or an integer from 60 to 100; the
    completeness metric is an integer from 0 to 100 on a forest with a node,
    and [NaN] on the empty forest. *)
Theorem calculateMetrics_ranges (structure : list HTANode) :
  (exists c, complexity (calculateMetrics structure) = ofZ c /\ (0 <= c <= 100)%Z)
  /\ (exists f, feasibility (calculateMetrics structure) = ofZ f
                /\ (f = 50 \/ 60 <= f <= 100)%Z)
  /\ (structure <> [] ->
      exists c, completeness (calculateMetrics structure) = ofZ c /\ (0 <= c <= 100)%Z)
  /\ (structure = [] -> completeness (calculateMetrics structure) = NaN).
Proof.
  split; [|split; [|split]].
  - unfold calculateMetrics, metricsOf. cbn [complexity]. unfold ofNat.
    rewrite min_ofZ. eexists. split; [reflexivity | lia].
  - unfold calculateMetrics, metricsOf. cbn [feasibility].
    destruct (feasibility_range (calculateTotalEstimate structure))
      as (f & -> & [[_ H]|[_ H]]); exists f; auto.
  - apply completeness_range.
  - intros ->. reflexivity.
Qed.

(** X11.  The suggestion to break the project into phases
    is given exactly when the hours of the leaves, added as the program adds
    them, do not come to a total strictly between 0 and 2000 - for a forest
    without any estimate as for one over budget. *)
Theorem validateHTA_phases_suggestion (structure : list HTANode) (logger : Logger) :
  In "Consider breaking the project into phases or reducing scope"
    (suggestions (fst (validateHTA structure logger)))
  <-> gtb (leafHours structure) (ofZ 0) && ltb (leafHours structure) (ofZ 2000) = false.
Proof.
  rewrite validateHTA_suggestions, phases_suggestion_iff, feasibility_leafHours.
  rewrite <- feasibility_of_total.
  destruct (feasibility_range (leafHours structure)) as (f & -> & [[E H]|[E H]]);
    rewrite E, ltb_ofZ, Z.ltb_lt; split; intros; (discriminate || lia || reflexivity).
Qed.

(** ** The score and the order and number of the issues *)

Lemma totalPenalty_app penalty l1 l2 :
  totalPenalty penalty (l1 ++ l2)
  = (totalPenalty penalty l1 + totalPenalty penalty l2)%Z.
Proof. unfold totalPenalty. induction l1 as [|i l1 IH]; simpl; lia. Qed.

Lemma totalPenalty_Permutation penalty l1 l2 :
  Permutation l1 l2 -> totalPenalty penalty l1 = totalPenalty penalty l2.
Proof.
  unfold totalPenalty. induction 1; simpl; lia.
Qed.

Lemma filter_length_Permutation {A} (p : A -> bool) (l1 l2 : list A) :
  Permutation l1 l2 -> length (List.filter p l1) = length (List.filter p l2).
Proof.
  induction 1 as [|x l1 l2 _ IH|x y l|l1 l2 l3 _ IH1 _ IH2]; simpl.
  - reflexivity.
  - destruct (p x); simpl; lia.
  - destruct (p x), (p y); reflexivity.
  - lia.
Qed.

Lemma codePenalty_pos i : (2 <= codePenalty i)%Z.
Proof. unfold codePenalty. destruct (Issue.severity i), (Issue.type i); lia. Qed.

Lemma totalPenalty_nonneg l : (0 <= totalPenalty codePenalty l)%Z.
Proof.
  unfold totalPenalty. induction l as [|i l IH]; simpl; [lia|].
  pose proof (codePenalty_pos i). lia.
Qed.

(** X12.  The score and the suggestions depend on which
    issues there are, not on their order. *)
Theorem score_and_suggestions_order_independent
    (issues issues' : list ValidationIssue) (metrics : Metrics) :
  Permutation issues issues' ->
  calculateScore issues metrics = calculateScore issues' metrics
  /\ generateSuggestions issues metrics = generateSuggestions issues' metrics.
Proof.
  intros Hp. split.
  - rewrite !calculateScore_blendedScore. unfold blendedScore.
    rewrite (totalPenalty_Permutation codePenalty _ _ Hp). reflexivity.
  - unfold generateSuggestions. cbv zeta.
    rewrite (filter_length_Permutation Issue.isError _ _ Hp),
      (filter_length_Permutation Issue.isWarning _ _ Hp). reflexivity.
Qed.

(** X13.  With finite completeness and feasibility
    metrics, the score is an integer from 0 to 100 and further issues never
    raise it. *)
Theorem calculateScore_monotone (issues more : list ValidationIssue) (metrics : Metrics) :
  finite (completeness metrics) -> finite (feasibility metrics) ->
  exists a b,
    calculateScore issues metrics = ofZ a
    /\ calculateScore (issues ++ more) metrics = ofZ b
    /\ (0 <= b <= a)%Z /\ (a <= 100)%Z.
Proof.
  intros Hc Hf. rewrite !calculateScore_blendedScore. unfold blendedScore.
  rewrite totalPenalty_app. pose proof (totalPenalty_nonneg more) as Hm.
  destruct (clamp_round _ (blend_not_NaN (100 - totalPenalty codePenalty issues) _ _ Hc Hf))
    as (a & Ea & Ha).
  destruct (clamp_round _
              (blend_not_NaN
                 (100 - (totalPenalty codePenalty issues + totalPenalty codePenalty more))
                 _ _ Hc Hf)) as (b & Eb & Hb).
  exists a, b. split; [exact Ea|]. split; [exact Eb|].
  assert (b <= a)%Z; [|lia].
  eapply clamp_round_monotone; [|exact Eb | exact Ea].
  apply div3_monotone, add_monotone; [exact Hf|].
  apply add_monotone; [exact Hc|]. apply leq_ofZ. lia.
Qed.

(** ** Dependency issues, exactly *)

Lemma validateDependencies_node_issues nodes ids node :
  validateDependencies_node nodes ids node []
  = if (0 <? length (dependencies node))%nat
    then flat_map (fun depId => if decide (depId ∈ ids) then []
                                else [invalidDependencyIssue node depId])
           (dependencies node)
         ++ (if hasCircularDependency node nodes then [circularDependencyIssue node] else [])
    else [].
Proof.
  unfold validateDependencies_node.
  destruct (0 <? length (dependencies node))%nat; [|reflexivity].
  rewrite push_if_app. f_equal.
  rewrite appends_forEach.
  - rewrite app_nil_l. apply flat_map_ext. intros depId.
    destruct (decide (depId ∈ ids)); reflexivity.
  - intros depId issues'. cbv beta.
    destruct (decide (depId ∈ ids)); [symmetry; apply app_nil_r | reflexivity].
Qed.

Lemma in_dependency_block structure x :
  In x (flat_map (fun node =>
                    validateDependencies_node structure (collectNodeIds structure) node [])
          (preorder structure)) ->
  In x (issuesByPass structure).
Proof.
  intros H. unfold issuesByPass. apply in_or_app. right. apply in_or_app. right.
  apply in_or_app. left. exact H.
Qed.

Lemma code_listed_dependency structure x :
  In x (issuesByPass structure) ->
  Issue.code x = "INVALID_DEPENDENCY" \/ Issue.code x = "CIRCULAR_DEPENDENCY" ->
  listed dependencyRows x.
Proof.
  intros Hin Hcode.
  destruct (issuesByPass_blocks structure x Hin)
    as [[_ H]|[[_ H]|[[_ H]|[[_ H]|[[_ H]|[_ H]]]]]]; [| |exact H| | |];
    unfold listed, signature in H; simpl in H;
    destruct Hcode as [Hcode|Hcode]; rewrite Hcode in H;
    repeat (destruct H as [H|H]; [discriminate H|]); destruct H.
Qed.

Lemma invalid_dependency_iff (structure : list HTANode) (x : ValidationIssue) :
  (In x (issuesByPass structure)
   /\ Issue.code x = "INVALID_DEPENDENCY")
  <-> exists node depId,
        In node (preorder structure) /\ In depId (dependencies node)
        /\ (forall other, In other (preorder structure) -> id other <> depId)
        /\ x = invalidDependencyIssue node depId.
Proof.
  split.
  - intros [Hin Hcode].
    pose proof (code_listed_dependency structure x Hin) as Hl.
    apply issuesByPass_dependencies in Hin; [|auto].
    apply in_flat_map in Hin as (node & Hn & Hx).
    rewrite validateDependencies_node_issues in Hx.
    destruct (0 <? length (dependencies node))%nat; [|destruct Hx].
    apply in_app_or in Hx as [Hx|Hx].
    + apply in_flat_map in Hx as (depId & Hd & Hx).
      destruct (decide (depId ∈ collectNodeIds structure)) as [|Hnot]; [destruct Hx|].
      destruct Hx as [<-|[]]. exists node, depId. repeat apply conj; auto.
      intros other Ho E. apply Hnot, collectNodeIds_spec. eauto.
    + destruct (hasCircularDependency node structure); [|destruct Hx].
      destruct Hx as [<-|[]]. discriminate.
  - intros (node & depId & Hn & Hd & Hnone & ->). split; [|reflexivity].
    apply in_dependency_block, in_flat_map. exists node. split; [exact Hn|].
    rewrite validateDependencies_node_issues.
    destruct (dependencies node) as [|d ds] eqn:E; [destruct Hd|].
    cbn [length Nat.ltb Nat.leb]. apply in_or_app. left.
    apply in_flat_map. exists depId. split; [exact Hd|].
    destruct (decide (depId ∈ collectNodeIds structure)) as [Hyes|]; [|left; reflexivity].
    apply collectNodeIds_spec in Hyes as (other & Ho & Eo). destruct (Hnone other Ho Eo).
Qed.

Lemma circular_dependency_iff (structure : list HTANode) (x : ValidationIssue) :
  (In x (issuesByPass structure)
   /\ Issue.code x = "CIRCULAR_DEPENDENCY")
  <-> exists node,
        In node (preorder structure) /\ dependencies node <> []
        /\ revisits structure ∅ node
        /\ x = circularDependencyIssue node.
Proof.
  split.
  - intros [Hin Hcode].
    pose proof (code_listed_dependency structure x Hin) as Hl.
    apply issuesByPass_dependencies in Hin; [|auto].
    apply in_flat_map in Hin as (node & Hn & Hx).
    rewrite validateDependencies_node_issues in Hx.
    destruct (dependencies node) as [|d ds] eqn:E; [destruct Hx|].
    cbn [length Nat.ltb Nat.leb] in Hx.
    apply in_app_or in Hx as [Hx|Hx].
    + apply in_flat_map in Hx as (depId & Hd & Hx).
      destruct (decide (depId ∈ collectNodeIds structure)); [destruct Hx|].
      destruct Hx as [<-|[]]. discriminate.
    + destruct (hasCircularDependency node structure) eqn:Hc; [|destruct Hx].
      destruct Hx as [<-|[]]. exists node. repeat apply conj; auto.
      * rewrite E. discriminate.
      * apply hasCircularDependency_revisits, Hc.
  - intros (node & Hn & Hd & Hrev & ->). split; [|reflexivity].
    apply in_dependency_block, in_flat_map. exists node. split; [exact Hn|].
    rewrite validateDependencies_node_issues.
    destruct (dependencies node) as [|d ds] eqn:E; [congruence|].
    cbn [length Nat.ltb Nat.leb]. apply in_or_app. right.
    apply hasCircularDependency_revisits in Hrev. rewrite Hrev. left. reflexivity.
Qed.

(** X14.  The result holds an [INVALID_DEPENDENCY] issue
    exactly for the pairs of a node and one of its dependency ids that no
    node of the forest bears, and a [CIRCULAR_DEPENDENCY] issue exactly for
    the nodes with a dependency from which the walk along looked-up
    dependency ids comes back to an id of its own path.  No such pair or
    node is missed, and no dependency on an existing id is reported as
    dangling. *)
Theorem validateHTA_dependency_errors (structure : list HTANode) (logger : Logger)
    (x : ValidationIssue) :
  ((In x (issues (fst (validateHTA structure logger)))
    /\ Issue.code x = "INVALID_DEPENDENCY")
   <-> exists node depId,
         In node (preorder structure) /\ In depId (dependencies node)
         /\ (forall other, In other (preorder structure) -> id other <> depId)
         /\ x = invalidDependencyIssue node depId)
  /\ ((In x (issues (fst (validateHTA structure logger)))
       /\ Issue.code x = "CIRCULAR_DEPENDENCY")
      <-> exists node,
            In node (preorder structure) /\ dependencies node <> []
            /\ revisits structure ∅ node
            /\ x = circularDependencyIssue node).
Proof.
  rewrite validateHTA_issues.
  split; [apply invalid_dependency_iff | apply circular_dependency_iff].
Qed.

(** ** Who is flagged by the cycle walk *)

Lemma revisits_monotone allNodes visited node :
  revisits allNodes visited node ->
  forall visited' : gset string, visited ⊆ visited' -> revisits allNodes visited' node.
Proof.
  induction 1 as [visited node Hin|visited node depId depNode Hnot Hdep Hfind _ IH];
    intros visited' Hsub.
  - apply revisits_here. set_solver.
  - destruct (decide (id node ∈ visited')) as [Hin|Hnot']; [apply revisits_here, Hin|].
    apply (revisits_step allNodes visited' node depId depNode); auto.
    apply IH. set_solver.
Qed.

(** X15.  A node of the forest that lists its own id as a
    dependency is reported as circular, and so is every node with a
    dependency that looks up a node reported as circular - whether or not it
    lies on the cycle itself. *)
Theorem validateHTA_circular_upstream (structure : list HTANode) (logger : Logger)
    (node : HTANode) :
  In node (preorder structure) ->
  In (id node) (dependencies node)
  \/ (exists target, dependsOn structure node target /\ revisits structure ∅ target) ->
  In (circularDependencyIssue node) (issues (fst (validateHTA structure logger))).
Proof.
  intros Hn Hcase.
  assert (dependencies node <> [] /\ revisits structure ∅ node) as [Hd Hrev].
  { destruct Hcase as [Hself|(target & (depId & Hdep & Hfind) & Hrev)].
    - split; [intros E; rewrite E in Hself; destruct Hself|].
      destruct (findNodeById_exists structure node Hn) as (found & Hfound & Hid).
      apply (revisits_step structure ∅ node (id node) found);
        [set_solver | exact Hself | exact Hfound|].
      apply revisits_here. rewrite Hid. set_solver.
    - split; [intros E; rewrite E in Hdep; destruct Hdep|].
      apply (revisits_step structure ∅ node depId target);
        [set_solver | exact Hdep | exact Hfind|].
      apply (revisits_monotone structure ∅ target Hrev). set_solver. }
  apply validateHTA_circular; assumption.
Qed.

(** X16.  Whatever the forest and the start node, cyclic or
    not, [hasCircularDependency] returns within two more nested calls than
    the forest has nodes, and more room does not change its answer. *)
Theorem hasCircularDependency_terminates (allNodes : list HTANode) (node : HTANode)
    (fuel : nat) :
  (2 + countNodes allNodes <= fuel)%nat ->
  exists answer,
    hasCircularDependency_fuel fuel node allNodes ∅ = Some answer
    /\ answer = hasCircularDependency node allNodes
    /\ (answer = true <-> revisits allNodes ∅ node).
Proof.
  intros Hfuel. exists (hasCircularDependency node allNodes).
  split; [apply hasCircularDependency_fuel_stable, Hfuel|].
  split; [reflexivity | apply hasCircularDependency_revisits].
Qed.

(** ** Negative estimates and the project total *)

Lemma in_estimate_block structure x :
  In x (flat_map (fun node => validateEstimates_node node []) (preorder structure)) ->
  In x (issuesByPass structure).
Proof.
  intros H. unfold issuesByPass. do 3 (apply in_or_app; right).
  apply in_or_app. left. exact H.
Qed.

Lemma validateEstimates_node_negative node x :
  (In x (validateEstimates_node node []) /\ Issue.code x = "NEGATIVE_ESTIMATE")
  <-> exists hours, estimatedHours node = Some hours /\ (hours < 0)%Q
                    /\ x = negativeEstimateIssue node.
Proof.
  unfold validateEstimates_node.
  destruct (estimatedHours node) as [hours|].
  - cbv zeta. split.
    + intros [Hin Hcode]. exists hours.
      destruct (Qltb hours 0) eqn:Hneg.
      * split; [reflexivity|]. split; [apply Qltb_lt, Hneg|].
        repeat match type of Hin with
               | context [if ?b then _ else _] => destruct b
               end;
          unfold push in Hin; simpl in Hin;
          repeat (destruct Hin as [Hin|Hin];
                  [first [exact (eq_sym Hin) | subst x; discriminate Hcode]|]);
          destruct Hin.
      * exfalso.
        repeat match type of Hin with
               | context [if ?b then _ else _] => destruct b
               end;
          unfold push in Hin; simpl in Hin;
          repeat (destruct Hin as [Hin|Hin]; [subst x; discriminate Hcode|]);
          destruct Hin.
    + intros (h & [= <-] & Hneg & ->). apply Qltb_lt in Hneg. rewrite Hneg.
      split; [|reflexivity].
      repeat match goal with
             | |- context [if ?b then _ else _] => destruct b
             end;
        unfold push; simpl; auto.
  - split.
    + intros [Hin Hcode]. destruct (isTaskOrSubtask node); [|destruct Hin].
      destruct Hin as [<-|[]]. discriminate.
    + intros (h & H & _). discriminate.
Qed.

Lemma negative_estimate_iff (structure : list HTANode) (x : ValidationIssue) :
  (In x (issuesByPass structure) /\ Issue.code x = "NEGATIVE_ESTIMATE")
  <-> exists node hours,
        In node (preorder structure) /\ estimatedHours node = Some hours
        /\ (hours < 0)%Q /\ x = negativeEstimateIssue node.
Proof.
  split.
  - intros [Hin Hcode].
    assert (listed estimateRows x) as Hl.
    { destruct (issuesByPass_blocks structure x Hin)
        as [[_ H]|[[_ H]|[[_ H]|[[_ H]|[[_ H]|[_ H]]]]]]; [| | |exact H| |];
        unfold listed, signature in H; simpl in H; rewrite Hcode in H;
        repeat (destruct H as [H|H]; [discriminate H|]); destruct H. }
    apply issuesByPass_estimates in Hin; [|exact Hl].
    apply in_flat_map in Hin as (node & Hn & Hx).
    destruct (proj1 (validateEstimates_node_negative node x) (conj Hx Hcode))
      as (hours & Hh & Hneg & ->).
    exists node, hours. auto.
  - intros (node & hours & Hn & Hh & Hneg & ->). split; [|reflexivity].
    apply in_estimate_block, in_flat_map. exists node. split; [exact Hn|].
    apply (validateEstimates_node_negative node). eauto.
Qed.

(** X17.  The result holds a [NEGATIVE_ESTIMATE] error
    exactly for the nodes whose [estimatedHours] is below zero; a forest with
    such a node is not valid, and once no estimate is negative the code is
    gone. *)
Theorem validateHTA_negative_estimate (structure : list HTANode) (logger : Logger) :
  (forall x,
     (In x (issues (fst (validateHTA structure logger)))
      /\ Issue.code x = "NEGATIVE_ESTIMATE")
     <-> exists node hours,
           In node (preorder structure) /\ estimatedHours node = Some hours
           /\ (hours < 0)%Q /\ x = negativeEstimateIssue node)
  /\ ((exists node hours,
          In node (preorder structure) /\ estimatedHours node = Some hours /\ (hours < 0)%Q)
      -> isValid (fst (validateHTA structure logger)) = false).
Proof.
  pose proof (negative_estimate_iff structure) as Hiff.
  split.
  - intros x. rewrite validateHTA_issues. apply Hiff.
  - intros (node & hours & Hn & Hh & Hneg).
    destruct (isValid (fst (validateHTA structure logger))) eqn:Hv; [|reflexivity].
    exfalso. unfold validateHTA, conclude in Hv. cbn [fst isValid] in Hv.
    rewrite filter_length_zero in Hv.
    specialize (Hv (negativeEstimateIssue node)). rewrite runChecks_issuesByPass in Hv.
    assert (In (negativeEstimateIssue node) (issuesByPass structure)) as Hin
      by (apply Hiff; eauto 10).
    specialize (Hv Hin). discriminate.
Qed.

Lemma validateFeasibility_node_code node x :
  In x (validateFeasibility_node node []) -> Issue.code x = "UNREALISTIC_BREAKDOWN".
Proof.
  unfold validateFeasibility_node.
  destruct (0 <? length (children node))%nat; [|intros []].
  cbv zeta. destruct (_ && _); [|intros []]. intros [<-|[]]. reflexivity.
Qed.

Lemma in_feasibility_block structure x :
  In x (validateFeasibility structure []) -> In x (issuesByPass structure).
Proof.
  intros H. unfold issuesByPass. do 5 (apply in_or_app; right). exact H.
Qed.

Lemma ltb_asym x y : ltb x y = true -> ltb y x = false.
Proof.
  destruct x as [| | |a], y as [| | |b]; simpl; try discriminate; try reflexivity.
  intros H. apply Qltb_lt in H. destruct (Qltb b a) eqn:E; [|reflexivity].
  apply Qltb_lt in E. lra.
Qed.

(** X18.  The result holds a [LARGE_PROJECT] warning exactly
    when the hours of the leaves, added as the program adds them, come to
    more than 2000, and the feasibility metric is then the flat 50. *)
Theorem validateHTA_large_project (structure : list HTANode) (logger : Logger) :
  ((exists x, In x (issues (fst (validateHTA structure logger)))
              /\ Issue.code x = "LARGE_PROJECT")
   <-> gtb (leafHours structure) (ofZ 2000) = true)
  /\ (gtb (leafHours structure) (ofZ 2000) = true ->
      feasibility (metrics (fst (validateHTA structure logger))) = ofZ 50).
Proof.
  assert (gtb (calculateTotalEstimate structure) (ofZ 2000)
          = gtb (leafHours structure) (ofZ 2000)) as Htotal
    by (apply ltb_same_r, calculateTotalEstimate_leafHours).
  split.
  - rewrite validateHTA_issues, <- Htotal. split.
    + intros (x & Hin & Hcode).
      assert (listed feasibilityRows x) as Hl.
      { destruct (issuesByPass_blocks structure x Hin)
          as [[_ H]|[[_ H]|[[_ H]|[[_ H]|[[_ H]|[_ H]]]]]]; [| | | | |exact H];
          unfold listed, signature in H; simpl in H; rewrite Hcode in H;
          repeat (destruct H as [H|H]; [discriminate H|]); destruct H. }
      apply issuesByPass_feasibility in Hin; [|exact Hl].
      unfold validateFeasibility in Hin. cbv zeta in Hin.
      rewrite (appends_traverseNodes _ structure validateFeasibility_node_appends) in Hin.
      apply in_app_or in Hin as [Hin|Hin].
      * destruct (gtb (calculateTotalEstimate structure) (ofZ 2000)); [reflexivity|].
        destruct Hin.
      * apply in_flat_map in Hin as (node & _ & Hx).
        apply validateFeasibility_node_code in Hx. congruence.
    + intros H. eexists. split.
      * apply in_feasibility_block. unfold validateFeasibility. cbv zeta.
        rewrite (appends_traverseNodes _ structure validateFeasibility_node_appends).
        apply in_or_app. left. rewrite H. unfold push. simpl. left. reflexivity.
      * reflexivity.
  - intros H. change (metrics (fst (validateHTA structure logger)))
      with (calculateMetrics structure).
    rewrite feasibility_leafHours. unfold specFeasibility.
    rewrite (ltb_asym _ _ H), andb_false_r. reflexivity.
Qed.

(** ** The two counts of nodes with an estimate, in the result *)

Lemma in_completeness_block structure x :
  In x (validateCompleteness structure []) -> In x (issuesByPass structure).
Proof.
  intros H. unfold issuesByPass. do 4 (apply in_or_app; right).
  apply in_or_app. left. exact H.
Qed.

(** The warning on estimates is decided by the share of the nodes with a
    positive estimate. *)
Lemma incomplete_estimates_iff (structure : list HTANode) :
  (exists x, In x (issuesByPass structure) /\ Issue.code x = "INCOMPLETE_ESTIMATES")
  <-> ltb (div (ofNat (length (List.filter hasPositiveEstimate (preorder structure))))
               (ofNat (length (preorder structure))))
          (double (7 # 10)) = true.
Proof.
  rewrite <- completenessCounters_estimates, <- countNodes_preorder. split.
  - intros (x & Hin & Hcode).
    assert (In x (validateCompleteness structure [])) as Hc.
    { destruct (issuesByPass_blocks structure x Hin)
        as [[_ H]|[[_ H]|[[_ H]|[[_ H]|[[H _]|[_ H]]]]]]; [| | | |exact H|];
        unfold listed, signature in H; simpl in H; rewrite Hcode in H;
        repeat (destruct H as [H|H]; [discriminate H|]); destruct H. }
    unfold validateCompleteness in Hc. cbv zeta in Hc.
    destruct (ltb (div (ofNat (nodesWithEstimates (completenessCounters structure)))
                       (ofNat (countNodes structure))) (double (7 # 10)));
      [reflexivity|].
    exfalso. destruct (ltb _ (double (5 # 10))); unfold push in Hc; simpl in Hc.
    + destruct Hc as [<-|[]]. discriminate Hcode.
    + destruct Hc.
  - intros H. eexists. split.
    + apply in_completeness_block. unfold validateCompleteness. cbv zeta. rewrite H.
      destruct (ltb _ (double (5 # 10))); unfold push; simpl; left; reflexivity.
    + reflexivity.
Qed.

(** C10.  A node whose [estimatedHours] is defined and zero is among the
    nodes that the completeness metric of the result counts as having an
    estimate, and is not among the nodes with a positive estimate, whose
    share of all nodes, when below 0.7, puts the [INCOMPLETE_ESTIMATES]
    warning into the result; on a forest with such a node the second count
    is strictly smaller than the first. *)
Theorem zero_estimate_counted_once (structure : list HTANode) (logger : Logger)
    (node : HTANode) (hours : Q) :
  In node (preorder structure) ->
  estimatedHours node = Some hours -> (hours == 0)%Q ->
  In node (List.filter hasEstimatedHours (preorder structure))
  /\ ~ In node (List.filter hasPositiveEstimate (preorder structure))
  /\ completeness (metrics (fst (validateHTA structure logger)))
     = round (mul (div (ofNat (length (List.filter hasEstimatedHours (preorder structure))
                               + length (List.filter hasDescription (preorder structure))))
                       (ofNat (length (preorder structure) * 2)))
                  (ofZ 100))
  /\ (reports "INCOMPLETE_ESTIMATES" (issues (fst (validateHTA structure logger))) = true
      <-> ltb (div (ofNat (length (List.filter hasPositiveEstimate (preorder structure))))
                   (ofNat (length (preorder structure))))
              (double (7 # 10)) = true)
  /\ length (List.filter hasPositiveEstimate (preorder structure))
     < length (List.filter hasEstimatedHours (preorder structure)).
Proof.
  intros Hin Hhours Hzero.
  assert (hasEstimatedHours node = true) as H1
    by (unfold hasEstimatedHours; rewrite Hhours; reflexivity).
  assert (hasPositiveEstimate node = false) as H2.
  { unfold hasPositiveEstimate. rewrite Hhours.
    destruct (Qltb 0 hours) eqn:E; [|reflexivity].
    apply Qltb_lt in E. rewrite Hzero in E. exfalso. exact (Qlt_irrefl 0 E). }
  split; [apply filter_In; auto|].
  split; [intros H; apply filter_In in H as [_ H]; congruence|].
  split; [|split].
  - change (metrics (fst (validateHTA structure logger))) with (calculateMetrics structure).
    unfold calculateMetrics, metricsOf. cbn [completeness].
    rewrite !countNodesWithProperty_filter, countNodes_preorder. reflexivity.
  - rewrite reports_In, validateHTA_issues. apply incomplete_estimates_iff.
  - apply (filter_length_lt _ _ _ node); auto using hasPositiveEstimate_defined.
Qed.

Lemma zero_estimate_counted_once_sample :
  In taskA (preorder sampleForest)
  /\ estimatedHours taskA = Some 0%Q
  /\ In taskA (List.filter hasEstimatedHours (preorder sampleForest))
  /\ ~ In taskA (List.filter hasPositiveEstimate (preorder sampleForest))
  /\ completeness (metrics (fst (validateHTA sampleForest [])))
     = round (mul (div (ofNat (length (List.filter hasEstimatedHours (preorder sampleForest))
                               + length (List.filter hasDescription (preorder sampleForest))))
                       (ofNat (length (preorder sampleForest) * 2)))
                  (ofZ 100))
  /\ (reports "INCOMPLETE_ESTIMATES" (issues (fst (validateHTA sampleForest []))) = true
      <-> ltb (div (ofNat (length (List.filter hasPositiveEstimate (preorder sampleForest))))
                   (ofNat (length (preorder sampleForest))))
              (double (7 # 10)) = true)
  /\ length (List.filter hasPositiveEstimate (preorder sampleForest))
     < length (List.filter hasEstimatedHours (preorder sampleForest)).
Proof.
  assert (In taskA (preorder sampleForest)) as H1 by (simpl; auto).
  assert (estimatedHours taskA = Some 0%Q) as H2 by reflexivity.
  assert (0 == 0)%Q as H3 by reflexivity.
  split; [exact H1|]. split; [exact H2|].
  exact (zero_estimate_counted_once sampleForest [] taskA 0%Q H1 H2 H3).
Defined.

(** ** Arrays with [null], and the validate endpoint *)

Lemma no_null_ofNodes entries :
  ~ In Malformed.Null entries -> exists nodes, entries = Malformed.ofNodes nodes.
Proof.
  induction entries as [|e entries IH]; intros Hnot; [exists []; reflexivity|].
  destruct e as [|node]; [exfalso; apply Hnot; left; reflexivity|].
  destruct IH as [nodes ->]; [intros H; apply Hnot; right; exact H|].
  exists (node :: nodes). reflexivity.
Qed.

Lemma validateHTA_returns_or_throws runChecks entries logger :
  (In Malformed.Null entries
   /\ Malformed.validateHTA runChecks entries logger = Malformed.Throws TypeError)
  \/ (~ In Malformed.Null entries
      /\ exists result logger',
           Malformed.validateHTA runChecks entries logger
           = Malformed.Returns (result, logger')).
Proof.
  assert (Hdec : In Malformed.Null entries \/ ~ In Malformed.Null entries).
  { induction entries as [|e entries IH]; [right; intros []|].
    destruct e as [|node]; [left; left; reflexivity|].
    destruct IH as [Hin|Hnot]; [left; right; exact Hin|].
    right. intros [H|H]; [discriminate H | exact (Hnot H)]. }
  destruct Hdec as [Hin|Hnot].
  - left. split; [exact Hin | apply validateHTA_null_throws, Hin].
  - right. split; [exact Hnot|].
    destruct (no_null_ofNodes entries Hnot) as [nodes ->].
    unfold Malformed.validateHTA. rewrite calculateMetrics_ofNodes. simpl.
    destruct (runChecks (Malformed.ofNodes nodes) []); eauto.
Qed.


(** X19.  [validateHTA] on an array that may hold [null] beside nodes: the
    call throws a [TypeError] exactly when some element is [null].  On every
    other array it returns: what the checks lead to when they return, and
    the degraded result, with one more log entry, when one of them throws. *)
Theorem validateHTA_throws_iff_null
    (runChecks : list Malformed.Entry -> list ValidationIssue
                 -> Malformed.Outcome (list ValidationIssue))
    (entries : list Malformed.Entry) (logger : Logger) :
  (Malformed.validateHTA runChecks entries logger = Malformed.Throws TypeError
   <-> In Malformed.Null entries)
  /\ (forall e, Malformed.validateHTA runChecks entries logger = Malformed.Throws e
                -> e = TypeError)
  /\ (forall nodes, entries = Malformed.ofNodes nodes ->
        Malformed.validateHTA runChecks entries logger
        = Malformed.Returns
            match runChecks entries [] with
            | Malformed.Returns issues => conclude issues (calculateMetrics nodes) logger
            | Malformed.Throws e =>
                (degradedResult, logger ++ [LogError "HTA validation failed" e])
            end).
Proof.
  split; [|split].
  - destruct (validateHTA_returns_or_throws runChecks entries logger)
      as [[Hin ->]|[Hnot (result & logger' & ->)]].
    + split; auto.
    + split; [discriminate | intros Hin; destruct (Hnot Hin)].
  - intros e.
    destruct (validateHTA_returns_or_throws runChecks entries logger)
      as [[Hin ->]|[Hnot (result & logger' & ->)]].
    + intros [= <-]. reflexivity.
    + discriminate.
  - intros nodes ->. unfold Malformed.validateHTA.
    rewrite calculateMetrics_ofNodes. simpl.
    destruct (runChecks (Malformed.ofNodes nodes) []); reflexivity.
Qed.

(** X20.  The validate endpoint.  Without a user the answer is 401, whatever
    the body holds, and nothing is validated or logged.  With a user, the
    answer is 400 when [structure] is not an array, 500 when it is an array
    with a [null] element, and 200 with the validation result in every other
    case, also when a check throws and the result is the degraded one. *)
Theorem Controller_validateHTA_status
    (runChecks : list Malformed.Entry -> list ValidationIssue
                 -> Malformed.Outcome (list ValidationIssue))
    (user : bool) (structure : Controller.StructureField) (logger : Logger) :
  let response := fst (Controller.validateHTA runChecks user structure logger) in
  let logger' := snd (Controller.validateHTA runChecks user structure logger) in
  (Controller.status response = 401%nat <-> user = false)
  /\ (Controller.status response = 400%nat
      <-> user = true /\ structure = Controller.NotAnArray)
  /\ (Controller.status response = 500%nat
      <-> user = true
          /\ exists entries, structure = Controller.AnArray entries
                             /\ In Malformed.Null entries)
  /\ (Controller.status response = 200%nat
      <-> user = true
          /\ exists nodes, structure = Controller.AnArray (Malformed.ofNodes nodes))
  /\ (Controller.status response = 200%nat ->
      exists validation,
        Controller.body response = Controller.Validated validation
        /\ Malformed.validateHTA runChecks
             match structure with
             | Controller.AnArray entries => entries
             | Controller.NotAnArray => []
             end logger
           = Malformed.Returns (validation, logger'))
  /\ (Controller.status response <> 200%nat -> Controller.status response <> 500%nat ->
      logger' = logger).
Proof.
  cbv zeta. unfold Controller.validateHTA.
  destruct user; simpl.
  2:{ split; [tauto|]. split; [split; [discriminate | intros [H _]; discriminate H]|].
      split; [split; [discriminate | intros [H _]; discriminate H]|].
      split; [split; [discriminate | intros [H _]; discriminate H]|].
      split; [discriminate | reflexivity]. }
  destruct structure as [|entries]; simpl.
  { split; [split; discriminate|]. split; [tauto|].
    split; [split; [discriminate | intros [_ (x & H & _)]; discriminate H]|].
    split; [split; [discriminate | intros [_ (x & H)]; discriminate H]|].
    split; [discriminate | reflexivity]. }
  destruct (validateHTA_returns_or_throws runChecks entries logger)
    as [[Hin ->]|[Hnot (result & logger' & ->)]]; simpl.
  - split; [split; discriminate|].
    split; [split; [discriminate | intros [_ H]; discriminate H]|].
    split; [split; [intros _; split; [reflexivity | exists entries; auto] | reflexivity]|].
    split; [split; [discriminate|]|].
    + intros [_ (nodes & [= ->])]. exfalso. clear -Hin.
      induction nodes as [|n nodes IH]; [destruct Hin|].
      destruct Hin as [H|H]; [discriminate H | exact (IH H)].
    + split; [discriminate | intros _ H; destruct (H eq_refl)].
  - split; [split; discriminate|].
    split; [split; [discriminate | intros [_ H]; discriminate H]|].
    split; [split; [discriminate | intros [_ (x & [= <-] & Hin)]; destruct (Hnot Hin)]|].
    split; [split; [intros _; split; [reflexivity|] | reflexivity]|].
    + destruct (no_null_ofNodes entries Hnot) as [nodes ->]. exists nodes. reflexivity.
    + split; [intros _; exists result; auto | intros H; destruct (H eq_refl)].
Qed.


(** ** [AIService.assignIdsRecursively] *)

Section AssignIdsFacts.
Variable now : nat -> nat.

(** The loop from the sibling of index [index] on, with nothing completed
    before it. *)
Let loop (prefix : string) (index : nat) (nodes : list HTANode) (calls : nat) :=
  forEachIndexed_from
    (AIService.assignIds_visit now (AIService.assignIds_children now) prefix)
    index nodes ([], calls).

Lemma assignIds_visit_acc rec prefix node index completed calls :
  AIService.assignIds_visit now rec prefix node index (completed, calls)
  = (completed ++ fst (AIService.assignIds_visit now rec prefix node index ([], calls)),
     snd (AIService.assignIds_visit now rec prefix node index ([], calls))).
Proof.
  unfold AIService.assignIds_visit.
  destruct (String.eqb (id node) "");
    destruct (0 <? length (children node))%nat;
    try destruct (rec node _ _) as [nodes' calls'];
    reflexivity.
Qed.

Lemma assignIds_loop_acc prefix nodes :
  forall index completed calls,
    forEachIndexed_from
      (AIService.assignIds_visit now (AIService.assignIds_children now) prefix)
      index nodes (completed, calls)
    = (completed ++ fst (loop prefix index nodes calls),
       snd (loop prefix index nodes calls)).
Proof.
  unfold loop.
  induction nodes as [|node rest IH]; intros index completed calls.
  - simpl. rewrite app_nil_r. reflexivity.
  - cbn [forEachIndexed_from]. rewrite assignIds_visit_acc.
    destruct (AIService.assignIds_visit now _ prefix node index ([], calls))
      as [one calls'].
    cbn [fst snd]. rewrite IH. symmetry. rewrite IH. cbn [fst snd].
    rewrite <- app_assoc. reflexivity.
Qed.

Lemma assignIds_children_eq node prefix calls :
  AIService.assignIds_children now node prefix calls
  = AIService.assignIdsRecursively now (children node) prefix calls.
Proof. destruct node; reflexivity. Qed.

Lemma assignIds_loop_cons prefix index node rest calls :
  let nodeId :=
    if String.eqb (id node) "" then AIService.generatedId prefix (now calls) index
    else id node in
  let below :=
    AIService.assignIdsRecursively now (children node) (nodeId +:+ "-child")
      (if String.eqb (id node) "" then S calls else calls) in
  loop prefix index (node :: rest) calls
  = (AIService.withId node nodeId (fst below)
       :: fst (loop prefix (S index) rest (snd below)),
     snd (loop prefix (S index) rest (snd below))).
Proof.
  cbv zeta. unfold loop at 1. cbn [forEachIndexed_from].
  destruct (AIService.assignIds_visit now _ prefix node index ([], calls))
    as [one calls'] eqn:Hv.
  rewrite assignIds_loop_acc.
  unfold AIService.assignIds_visit in Hv.
  destruct (String.eqb (id node) ""); cbv beta iota in Hv;
    rewrite assignIds_children_eq in Hv;
    (destruct (children node) as [|c r] eqn:Hc;
     [injection Hv as <- <-; reflexivity|]);
    simpl (0 <? _)%nat in Hv; cbv iota in Hv;
    match type of Hv with
    | context [AIService.assignIdsRecursively now ?l ?p ?c] =>
        destruct (AIService.assignIdsRecursively now l p c) as [nodes' calls'']
    end;
    injection Hv as <- <-; reflexivity.
Qed.

Lemma assignIdsRecursively_loop nodes prefix calls :
  AIService.assignIdsRecursively now nodes prefix calls = loop prefix 0 nodes calls.
Proof. reflexivity. Qed.

Lemma generatedId_not_empty prefix time index :
  AIService.generatedId prefix time index <> "".
Proof.
  unfold AIService.generatedId. destruct prefix; discriminate.
Qed.

Lemma assignIds_loop_ids nodes :
  forall prefix index calls node,
    In node (preorder (fst (loop prefix index nodes calls))) -> id node <> "".
Proof.
  induction nodes as [|n rest IHc IHr] using forest_ind;
    intros prefix index calls node; [intros []|].
  rewrite assignIds_loop_cons. cbv zeta. cbn [fst].
  rewrite preorder_cons. cbn [In children AIService.withId].
  rewrite in_app_iff. intros [<-|[Hin|Hin]].
  - cbn [id]. destruct (String.eqb (id n) "") eqn:He.
    + apply generatedId_not_empty.
    + apply String.eqb_neq, He.
  - rewrite assignIdsRecursively_loop in Hin. eapply IHc, Hin.
  - eapply IHr, Hin.
Qed.

Lemma assignIds_loop_erase nodes :
  forall prefix index calls,
    map eraseIds (fst (loop prefix index nodes calls)) = map eraseIds nodes.
Proof.
  induction nodes as [|n rest IHc IHr] using forest_ind;
    intros prefix index calls; [reflexivity|].
  rewrite assignIds_loop_cons. cbv zeta. cbn [fst map].
  rewrite IHr. f_equal.
  rewrite assignIdsRecursively_loop.
  destruct n as [i ty t d p e deps ch]. cbn. f_equal. apply IHc.
Qed.

Lemma assignIds_loop_kept nodes :
  forall prefix index calls,
    Forall2 (fun before after => id before <> "" -> id after = id before)
      (preorder nodes) (preorder (fst (loop prefix index nodes calls))).
Proof.
  induction nodes as [|n rest IHc IHr] using forest_ind;
    intros prefix index calls; [constructor|].
  rewrite assignIds_loop_cons. cbv zeta. cbn [fst].
  rewrite !preorder_cons. cbn [children AIService.withId].
  constructor.
  - cbn [id]. intros Hne. apply String.eqb_neq in Hne. rewrite Hne. reflexivity.
  - apply Forall2_app; [rewrite assignIdsRecursively_loop; apply IHc | apply IHr].
Qed.

Lemma assignIds_loop_calls nodes :
  forall prefix index calls,
    snd (loop prefix index nodes calls)
    = (calls + length (List.filter (fun node => String.eqb (id node) "") (preorder nodes)))%nat.
Proof.
  induction nodes as [|n rest IHc IHr] using forest_ind;
    intros prefix index calls; [simpl; lia|].
  rewrite assignIds_loop_cons. cbv zeta. cbn [snd].
  rewrite IHr, assignIdsRecursively_loop, IHc, preorder_cons.
  cbn [List.filter].
  destruct (String.eqb (id n) ""); cbn [length];
    rewrite List.filter_app, length_app; lia.
Qed.

(** X21.  [assignIdsRecursively] completes the ids and touches nothing else:
    afterwards no node of the structure has an empty id; a node that had an
    id has kept it; and but for the ids the structure is the one that was
    parsed, with the same nodes in the same places.  The clock is read once
    for each node that had no id. *)
Theorem assignIdsRecursively_completes_ids
    (nodes : list HTANode) (prefix : string) (calls : nat) :
  let completed := fst (AIService.assignIdsRecursively now nodes prefix calls) in
  (forall node, In node (preorder completed) -> id node <> "")
  /\ Forall2 (fun before after => id before <> "" -> id after = id before)
       (preorder nodes) (preorder completed)
  /\ map eraseIds completed = map eraseIds nodes
  /\ snd (AIService.assignIdsRecursively now nodes prefix calls)
     = (calls + length (List.filter (fun node => String.eqb (id node) "") (preorder nodes)))%nat.
Proof.
  cbv zeta. rewrite assignIdsRecursively_loop.
  split; [apply assignIds_loop_ids|].
  split; [apply assignIds_loop_kept|].
  split; [apply assignIds_loop_erase | apply assignIds_loop_calls].
Qed.

End AssignIdsFacts.


(** ** Strings that [trim] empties *)

Lemma inked_app a b : inked (a +:+ b) = inked a || inked b.
Proof. induction a as [|c a IH]; simpl; [reflexivity|]. rewrite IH, orb_assoc. reflexivity. Qed.

Lemma inked_rev s : inked (String.rev s) = inked s.
Proof.
  unfold String.rev.
  assert (forall a b, inked (String.rev_app a b) = inked a || inked b) as H.
  { induction a as [|c a IH]; intros b; simpl; [reflexivity|].
    rewrite IH. simpl. destruct (isWhiteSpace c), (inked a), (inked b); reflexivity. }
  rewrite H. simpl. apply orb_false_r.
Qed.

Lemma inked_trimStart s : inked (trimStart s) = inked s.
Proof.
  induction s as [|c s IH]; simpl; [reflexivity|].
  destruct (isWhiteSpace c) eqn:E; simpl; [exact IH | rewrite E; reflexivity].
Qed.

Lemma inked_trim s : inked (trim s) = inked s.
Proof.
  unfold trim, trimEnd. rewrite inked_rev, inked_trimStart, inked_rev. apply inked_trimStart.
Qed.

Lemma inked_not_blank s : inked s = true -> blank s = false.
Proof.
  intros H. unfold blank. apply orb_false_iff. split; apply String.eqb_neq; intros E.
  - subst s. discriminate H.
  - rewrite <- inked_trim, E in H. discriminate H.
Qed.

Lemma generatedId_not_blank prefix time index :
  blank (AIService.generatedId prefix time index) = false.
Proof.
  apply inked_not_blank. unfold AIService.generatedId.
  rewrite !inked_app. simpl. rewrite orb_true_r. reflexivity.
Qed.


(** ** Errors on the fields of a node *)

Lemma in_field_block structure x :
  In x (flat_map (fun node => validateNodeProperties_node node []) (preorder structure)) ->
  In x (issuesByPass structure).
Proof.
  intros H. unfold issuesByPass. apply in_or_app. right. apply in_or_app. left. exact H.
Qed.

Lemma validateNodeProperties_node_errors node :
  reports "MISSING_ID" (validateNodeProperties_node node []) = blank (id node)
  /\ reports "MISSING_TITLE" (validateNodeProperties_node node []) = blank (title node)
  /\ reports "INVALID_PRIORITY" (validateNodeProperties_node node [])
     = negb (includes validPriorities (priority node)).
Proof.
  unfold validateNodeProperties_node. cbv zeta.
  destruct (blank (id node)), (blank (title node)),
    (negb (String.eqb (title node) "") && (100 <? String.length (title node))%nat),
    (negb (String.eqb (title node) "") && (String.length (title node) <? 5)%nat),
    (negb (includes validPriorities (priority node))),
    (blankDescription (description node)), (isTaskOrSubtask node);
    repeat apply conj; reflexivity.
Qed.

Lemma field_error_reported structure c :
  In c ["MISSING_ID"; "MISSING_TITLE"; "INVALID_PRIORITY"] ->
  reports c (issuesByPass structure) = true
  <-> exists node, In node (preorder structure)
                   /\ reports c (validateNodeProperties_node node []) = true.
Proof.
  intros Hc. split.
  - intros H. apply reports_In in H as (x & Hin & Hcode).
    assert (In x (flat_map (fun node => validateNodeProperties_node node [])
                    (preorder structure))) as Hf.
    { destruct (issuesByPass_blocks structure x Hin)
        as [[_ H]|[[H _]|[[_ H]|[[_ H]|[[_ H]|[_ H]]]]]]; [|exact H| | | |];
        unfold listed, signature in H; simpl in H; rewrite Hcode in H;
        destruct Hc as [<-|[<-|[<-|[]]]];
        repeat (destruct H as [H|H]; [discriminate H|]); destruct H. }
    apply in_flat_map in Hf as (node & Hn & Hx).
    exists node. split; [exact Hn|]. apply reports_In. eauto.
  - intros (node & Hn & H). apply reports_In in H as (x & Hx & Hcode).
    apply reports_In. exists x. split; [|exact Hcode].
    apply in_field_block, in_flat_map. eauto.
Qed.

Lemma field_error_is_error structure c x :
  In c ["MISSING_ID"; "MISSING_TITLE"; "INVALID_PRIORITY"] ->
  In x (issuesByPass structure) -> Issue.code x = c -> Issue.type x = error.
Proof.
  intros Hc Hin Hcode.
  destruct (issuesByPass_blocks structure x Hin)
    as [[_ H]|[[_ H]|[[_ H]|[[_ H]|[[_ H]|[_ H]]]]]];
    unfold listed, signature in H; simpl in H; rewrite Hcode in H;
    destruct Hc as [<-|[<-|[<-|[]]]];
    repeat (destruct H as [H|H]; [first [discriminate H | congruence]|]); destruct H.
Qed.

Lemma reported_error_invalid structure logger x :
  In x (issuesByPass structure) -> Issue.type x = error ->
  isValid (fst (validateHTA structure logger)) = false.
Proof.
  intros Hin Ht.
  destruct (isValid (fst (validateHTA structure logger))) eqn:Hv; [|reflexivity].
  exfalso. unfold validateHTA, conclude in Hv. cbn [fst isValid] in Hv.
  rewrite filter_length_zero in Hv.
  specialize (Hv x). rewrite runChecks_issuesByPass in Hv.
  specialize (Hv Hin). unfold Issue.isError in Hv. rewrite Ht in Hv. discriminate.
Qed.

(** X22.  The three errors on a node's own fields.  [MISSING_ID] is reported
    exactly when some node has an id that is empty or white space,
    [MISSING_TITLE] exactly when some node has such a title, and
    [INVALID_PRIORITY] exactly when some node's priority is none of [low],
    [medium], [high] and [critical].  Any of the three makes the forest
    invalid. *)
Theorem validateHTA_field_errors (structure : list HTANode) (logger : Logger) :
  let reported := issues (fst (validateHTA structure logger)) in
  (reports "MISSING_ID" reported = true
   <-> exists node, In node (preorder structure) /\ blank (id node) = true)
  /\ (reports "MISSING_TITLE" reported = true
      <-> exists node, In node (preorder structure) /\ blank (title node) = true)
  /\ (reports "INVALID_PRIORITY" reported = true
      <-> exists node, In node (preorder structure)
                       /\ ~ In (priority node) ["low"; "medium"; "high"; "critical"])
  /\ (reports "MISSING_ID" reported || reports "MISSING_TITLE" reported
        || reports "INVALID_PRIORITY" reported = true
      -> isValid (fst (validateHTA structure logger)) = false).
Proof.
  cbv zeta. rewrite validateHTA_issues.
  split; [|split; [|split]].
  - rewrite field_error_reported by (simpl; auto).
    split; intros (node & Hn & H); exists node; (split; [exact Hn|]);
      [rewrite <- (proj1 (validateNodeProperties_node_errors node))
      |rewrite (proj1 (validateNodeProperties_node_errors node))]; exact H.
  - rewrite field_error_reported by (simpl; auto).
    split; intros (node & Hn & H); exists node; (split; [exact Hn|]);
      [rewrite <- (proj1 (proj2 (validateNodeProperties_node_errors node)))
      |rewrite (proj1 (proj2 (validateNodeProperties_node_errors node)))]; exact H.
  - rewrite field_error_reported by (simpl; auto).
    assert (forall node, includes validPriorities (priority node) = false
                         <-> ~ In (priority node) ["low"; "medium"; "high"; "critical"])
      as Hinc.
    { intros node. unfold includes, validPriorities. split.
      - intros E Hin. apply not_true_iff_false in E. apply E.
        apply existsb_exists. exists (priority node).
        split; [exact Hin | apply String.eqb_refl].
      - intros Hnot. apply not_true_iff_false. intros E.
        apply existsb_exists in E as (p & Hp & Heq).
        apply String.eqb_eq in Heq. subst p. exact (Hnot Hp). }
    split; intros (node & Hn & H); exists node; (split; [exact Hn|]).
    + rewrite (proj2 (proj2 (validateNodeProperties_node_errors node))) in H.
      apply Hinc, negb_true_iff, H.
    + rewrite (proj2 (proj2 (validateNodeProperties_node_errors node))).
      apply negb_true_iff, Hinc, H.
  - intros H.
    assert (exists c x, In c ["MISSING_ID"; "MISSING_TITLE"; "INVALID_PRIORITY"]
                        /\ In x (issuesByPass structure) /\ Issue.code x = c)
      as (c & x & Hc & Hin & Hcode).
    { apply orb_true_iff in H as [H|H]; [apply orb_true_iff in H as [H|H]|];
        apply reports_In in H as (x & Hin & Hcode);
        eexists _, x; (split; [|split; [exact Hin | exact Hcode]]); simpl; auto. }
    apply (reported_error_invalid structure logger x Hin).
    exact (field_error_is_error structure c x Hc Hin Hcode).
Qed.


(** ** What the metrics do not read *)

Lemma children_eraseLinks node : children (eraseLinks node) = map eraseLinks (children node).
Proof. destruct node; reflexivity. Qed.

Lemma preorder_eraseLinks nodes :
  preorder (map eraseLinks nodes) = map eraseLinks (preorder nodes).
Proof.
  induction nodes as [|node rest IHc IHr] using forest_ind; [reflexivity|].
  cbn [map]. rewrite !preorder_cons, children_eraseLinks, IHc, IHr.
  cbn [map]. rewrite map_app. reflexivity.
Qed.

Lemma levels_eraseLinks nodes : forall k, levels k (map eraseLinks nodes) = levels k nodes.
Proof.
  induction nodes as [|node rest IHc IHr] using forest_ind; intros k; [reflexivity|].
  cbn [map]. rewrite !levels_cons, children_eraseLinks, IHc, IHr. reflexivity.
Qed.

Lemma eraseLinks_fields node :
  estimatedHours (eraseLinks node) = estimatedHours node
  /\ description (eraseLinks node) = description node
  /\ isLeaf (eraseLinks node) = isLeaf node
  /\ length (children (eraseLinks node)) = length (children node).
Proof.
  unfold isLeaf. rewrite children_eraseLinks, length_map. destruct node; auto.
Qed.

Lemma filter_length_map {A} (f : A -> A) (p : A -> bool) (l : list A) :
  (forall x, p (f x) = p x) ->
  length (List.filter p (map f l)) = length (List.filter p l).
Proof.
  intros H. induction l as [|x l IH]; [reflexivity|].
  cbn [map List.filter]. rewrite H. destruct (p x); simpl; rewrite IH; reflexivity.
Qed.

Lemma calculateMetrics_eraseLinks nodes :
  calculateMetrics (map eraseLinks nodes) = calculateMetrics nodes.
Proof.
  unfold calculateMetrics.
  rewrite !calculateMaxDepth_levels, levels_eraseLinks.
  rewrite !calculateMaxBreadth_groupSizes.
  rewrite !countNodes_preorder, !countNodesWithProperty_filter.
  rewrite preorder_eraseLinks, length_map.
  assert (groupSizes (map eraseLinks nodes) = groupSizes nodes) as ->.
  { unfold groupSizes. rewrite preorder_eraseLinks, length_map, map_map.
    f_equal. apply map_ext. intros node. apply eraseLinks_fields. }
  rewrite !filter_length_map.
  2:{ intros node. unfold hasDescription.
      rewrite (proj1 (proj2 (eraseLinks_fields node))). reflexivity. }
  2:{ intros node. unfold hasEstimatedHours.
      rewrite (proj1 (eraseLinks_fields node)). reflexivity. }
  assert (calculateTotalEstimate (map eraseLinks nodes) = calculateTotalEstimate nodes) as ->.
  { unfold calculateTotalEstimate. rewrite !traverseNodes_preorder, preorder_eraseLinks.
    generalize (ofZ 0). induction (preorder nodes) as [|node l IH]; intros q; [reflexivity|].
    cbn [map fold_left]. rewrite IH. f_equal.
    unfold calculateTotalEstimate_visit.
    rewrite (proj1 (eraseLinks_fields node)),
      (proj1 (proj2 (proj2 (eraseLinks_fields node)))). reflexivity. }
  reflexivity.
Qed.

Lemma eraseLinks_eraseIds nodes : map eraseLinks (map eraseIds nodes) = map eraseLinks nodes.
Proof.
  induction nodes as [|node rest IHc IHr] using forest_ind; [reflexivity|].
  cbn [map]. rewrite IHr. f_equal.
  destruct node as [i ty t d p e deps ch]. cbn in *. f_equal. exact IHc.
Qed.

Lemma calculateMetrics_same_content a b :
  map eraseLinks a = map eraseLinks b -> calculateMetrics a = calculateMetrics b.
Proof.
  intros H. rewrite <- (calculateMetrics_eraseLinks a), H. apply calculateMetrics_eraseLinks.
Qed.

Lemma validateHTA_metrics structure logger :
  metrics (fst (validateHTA structure logger)) = calculateMetrics structure.
Proof. reflexivity. Qed.

Section AssignIdsValidated.
Variable now : nat -> nat.

Lemma assignIds_loop_blank nodes :
  forall prefix index calls,
    Forall2 (fun before after =>
               blank (id after) = negb (String.eqb (id before) "") && blank (id before))
      (preorder nodes)
      (preorder
         (fst (forEachIndexed_from
                 (AIService.assignIds_visit now (AIService.assignIds_children now) prefix)
                 index nodes ([], calls)))).
Proof.
  induction nodes as [|n rest IHc IHr] using forest_ind;
    intros prefix index calls; [constructor|].
  rewrite assignIds_loop_cons. cbv zeta. cbn [fst].
  rewrite !preorder_cons. cbn [children AIService.withId].
  constructor.
  - cbn [id]. destruct (String.eqb (id n) ""); [apply generatedId_not_blank | reflexivity].
  - apply Forall2_app; [rewrite assignIdsRecursively_loop; apply IHc | apply IHr].
Qed.

(** X23.  A generated structure on its way to the validator.  Completing
    the ids changes no metric of the validation, and afterwards
    [MISSING_ID] is reported only if the parsed structure held an id made of
    white space: an id that was absent or empty is never reported. *)
Theorem validateHTA_after_assignIds
    (nodes : list HTANode) (prefix : string) (calls : nat) (logger : Logger) :
  let completed := fst (AIService.assignIdsRecursively now nodes prefix calls) in
  metrics (fst (validateHTA completed logger)) = metrics (fst (validateHTA nodes logger))
  /\ (reports "MISSING_ID" (issues (fst (validateHTA completed logger))) = true
      <-> exists node, In node (preorder nodes)
                       /\ id node <> "" /\ trim (id node) = "").
Proof.
  cbv zeta. split.
  - rewrite !validateHTA_metrics. apply calculateMetrics_same_content.
    rewrite <- (eraseLinks_eraseIds (fst _)), <- (eraseLinks_eraseIds nodes).
    f_equal. rewrite assignIdsRecursively_loop. apply assignIds_loop_erase.
  - rewrite validateHTA_issues, field_error_reported by (simpl; auto).
    pose proof (assignIds_loop_blank nodes prefix 0 calls) as Hall.
    change (forEachIndexed_from _ 0 nodes ([], calls))
      with (AIService.assignIdsRecursively now nodes prefix calls) in Hall.
    assert (forall before,
              negb (String.eqb (id before) "") && blank (id before) = true
              <-> id before <> "" /\ trim (id before) = "") as Hb.
    { intros before. unfold blank. rewrite andb_true_iff, negb_true_iff, String.eqb_neq.
      split; intros [Hne H]; (split; [exact Hne|]).
      - apply orb_true_iff in H as [H|H]; apply String.eqb_eq in H; [destruct (Hne H) | exact H].
      - apply orb_true_iff. right. apply String.eqb_eq, H. }
    split.
    + intros (after & Hin & H).
      rewrite (proj1 (validateNodeProperties_node_errors after)) in H.
      revert Hin. induction Hall as [|b a lb la Hab Hall IH]; [intros []|].
      intros [<-|Hin].
      * exists b. split; [left; reflexivity|]. apply Hb. rewrite <- Hab. exact H.
      * destruct (IH Hin) as (node & Hn & Hnode). exists node. split; [right|]; auto.
    + intros (before & Hin & Hbefore). apply Hb in Hbefore.
      revert Hin. induction Hall as [|b a lb la Hab Hall IH]; [intros []|].
      intros [->|Hin].
      * exists a. split; [left; reflexivity|].
        rewrite (proj1 (validateNodeProperties_node_errors a)), Hab. exact Hbefore.
      * destruct (IH Hin) as (node & Hn & Hnode). exists node. split; [right|]; auto.
Qed.

End AssignIdsValidated.


(** ** The ids that [assignIdsRecursively] builds are distinct *)

Lemma append_String (x : ascii) (a b : string) : String x a +:+ b = String x (a +:+ b).
Proof. reflexivity. Qed.

Lemma append_assoc_string (a b c : string) : (a +:+ b) +:+ c = a +:+ (b +:+ c).
Proof.
  induction a as [|x a IH]; [reflexivity|]. rewrite !append_String, IH. reflexivity.
Qed.

Lemma append_length (a b : string) :
  String.length (a +:+ b) = (String.length a + String.length b)%nat.
Proof.
  induction a as [|x a IH]; [reflexivity|].
  rewrite append_String. cbn [String.length]. rewrite IH. reflexivity.
Qed.

Lemma plain_cons c d : c <> "-"%char -> plain d -> plain (String c d).
Proof.
  unfold plain. intros Hc Hd [|x a] b; [change (EmptyString +:+ String "-" b) with (String "-" b)
                         |rewrite append_String];
    intros [= E1 E2]; [exact (Hc E1) | exact (Hd a b E2)].
Qed.

Lemma plain_empty : plain EmptyString.
Proof. intros [|x a] b; discriminate. Qed.

Lemma plain_digits (d : Decimal.uint) : plain (NilEmpty.string_of_uint d).
Proof.
  induction d; simpl; try apply plain_empty; (apply plain_cons; [discriminate | assumption]).
Qed.

Lemma plain_showNat n : plain (showNat n).
Proof.
  unfold showNat, NilZero.string_of_uint.
  destruct (Nat.to_uint n) eqn:E; try (rewrite <- E; apply plain_digits).
  apply plain_cons; [discriminate | apply plain_empty].
Qed.

Lemma showNat_inj a b : showNat a = showNat b -> a = b.
Proof.
  assert (forall d, option_map Nat.of_uint
                      (NilZero.uint_of_string (NilZero.string_of_uint d))
                    = Some (Nat.of_uint d)) as H.
  { intros d. destruct (Decimal.uint_eq_dec d Decimal.Nil) as [->|Hd].
    - rewrite NilZero.usu_nil. reflexivity.
    - rewrite NilZero.usu by exact Hd. reflexivity. }
  unfold showNat. intros E.
  pose proof (H (Nat.to_uint a)) as Ha. rewrite E, H in Ha.
  injection Ha as Ha. rewrite !DecimalNat.Unsigned.of_to in Ha. symmetry. exact Ha.
Qed.

Lemma append_hyphen_inj (x x' d d' : string) :
  plain d -> plain d' ->
  x +:+ String "-" d = x' +:+ String "-" d' -> x = x' /\ d = d'.
Proof.
  intros Hd Hd'. revert x'. induction x as [|c x IH]; intros [|c' x'];
    rewrite ?append_String;
    change (EmptyString +:+ String "-" d) with (String "-" d);
    change (EmptyString +:+ String "-" d') with (String "-" d').
  - intros [= E]. auto.
  - intros [= _ E]. destruct (Hd _ _ E).
  - intros [= _ E]. symmetry in E. destruct (Hd' _ _ E).
  - intros [= -> E]. destruct (IH _ E) as [-> ->]. auto.
Qed.

Lemma generatedId_inj p t i p' t' i' :
  AIService.generatedId p t i = AIService.generatedId p' t' i' ->
  p = p' /\ t = t' /\ i = i'.
Proof.
  assert (forall q u j,
            AIService.generatedId q u j
            = (q +:+ String "-" (showNat u)) +:+ String "-" (showNat j)) as Hform.
  { intros q u j. rewrite append_assoc_string. reflexivity. }
  rewrite !Hform. intros E.
  apply append_hyphen_inj in E as [E Ei]; try apply plain_showNat.
  apply append_hyphen_inj in E as [Ep Et]; try apply plain_showNat.
  split; [exact Ep|]. split; apply showNat_inj; assumption.
Qed.

Lemma idAlong_cons prefix time index outer :
  idAlong prefix ((time, index) :: outer)
  = AIService.generatedId
      match outer with
      | [] => prefix
      | _ :: _ => idAlong prefix outer +:+ "-child"
      end
      time index.
Proof. reflexivity. Qed.

Lemma idAlong_length prefix steps :
  (String.length prefix <= String.length (idAlong prefix steps))%nat.
Proof.
  induction steps as [|[t i] outer IH]; [simpl; lia|].
  rewrite idAlong_cons. unfold AIService.generatedId. rewrite append_length.
  destruct outer as [|s outer]; [lia|]. rewrite append_length. lia.
Qed.

Lemma idAlong_inj prefix steps :
  forall steps', steps <> [] -> steps' <> [] ->
    idAlong prefix steps = idAlong prefix steps' -> steps = steps'.
Proof.
  induction steps as [|[t i] outer IH]; intros [|[t' i'] outer'] Hs Hs' E;
    try congruence.
  rewrite !idAlong_cons in E. apply generatedId_inj in E as (Ep & -> & ->).
  f_equal. destruct outer as [|s outer], outer' as [|s' outer']; [reflexivity| | |].
  - exfalso. pose proof (idAlong_length prefix (s' :: outer')) as Hl.
    apply (f_equal String.length) in Ep. rewrite append_length in Ep.
    cbn [String.length] in Ep. lia.
  - exfalso. pose proof (idAlong_length prefix (s :: outer)) as Hl.
    apply (f_equal String.length) in Ep. rewrite append_length in Ep.
    cbn [String.length] in Ep. lia.
  - apply IH; try discriminate.
    change "-child" with (String "-" "child") in Ep.
    apply append_hyphen_inj in Ep as [Ep _]; [exact Ep| |];
      repeat (apply plain_cons; [discriminate|]); apply plain_empty.
Qed.


Section AssignIdsDistinct.
Variable now : nat -> nat.
Variable prefix : string.

(** The prefix in use below the nodes that [outer] lists. *)
Let prefixBelow (outer : list (nat * nat)) : string :=
  match outer with
  | [] => prefix
  | _ :: _ => idAlong prefix outer +:+ "-child"
  end.

Lemma assignIds_loop_distinct nodes :
  forall outer index calls,
    (forall node, In node (preorder nodes) -> id node = "") ->
    let completed :=
      fst (forEachIndexed_from
             (AIService.assignIds_visit now (AIService.assignIds_children now)
                (prefixBelow outer))
             index nodes ([], calls)) in
    List.NoDup (map id (preorder completed))
    /\ forall x, In x (map id (preorder completed)) ->
         exists deeper time j,
           x = idAlong prefix (deeper ++ (time, j) :: outer) /\ (index <= j)%nat.
Proof.
  induction nodes as [|n rest IHc IHr] using forest_ind;
    intros outer index calls Hnone; cbv zeta.
  { split; [constructor | intros x []]. }
  assert (id n = "") as Hn by (apply Hnone; rewrite preorder_cons; left; reflexivity).
  assert (forall node, In node (preorder (children n)) -> id node = "") as Hc.
  { intros node H. apply Hnone. rewrite preorder_cons. right. apply in_or_app. auto. }
  assert (forall node, In node (preorder rest) -> id node = "") as Hr.
  { intros node H. apply Hnone. rewrite preorder_cons. right. apply in_or_app. auto. }
  rewrite assignIds_loop_cons. cbv zeta. cbn [fst]. rewrite Hn. cbn [String.eqb].
  set (nodeId := AIService.generatedId (prefixBelow outer) (now calls) index).
  assert (nodeId = idAlong prefix ((now calls, index) :: outer)) as Hid by reflexivity.
  change (nodeId +:+ "-child") with (prefixBelow ((now calls, index) :: outer)).
  rewrite assignIdsRecursively_loop.
  destruct (IHc ((now calls, index) :: outer) 0%nat (S calls) Hc) as [Hdc Hfc].
  set (below := forEachIndexed_from _ 0 (children n) ([], S calls)) in *.
  destruct (IHr outer (S index) (snd below) Hr) as [Hdr Hfr].
  set (after := forEachIndexed_from _ (S index) rest ([], snd below)) in *.
  rewrite preorder_cons. cbn [children AIService.withId map id].
  rewrite map_app.
  assert (forall a b : nat * nat, [a] <> [] /\ a :: b :: outer <> []) as Hne
    by (split; discriminate).
  split.
  - apply List.NoDup_cons; [|apply List.NoDup_app; auto].
    + rewrite in_app_iff. intros [H|H].
      * destruct (Hfc _ H) as (deeper & time & j & E & _).
        rewrite Hid in E. apply idAlong_inj in E;
          [|discriminate | destruct deeper; discriminate].
        apply (f_equal (@length _)) in E. rewrite length_app in E. simpl in E. lia.
      * destruct (Hfr _ H) as (deeper & time & j & E & Hj).
        rewrite Hid in E. apply idAlong_inj in E;
          [|discriminate | destruct deeper; discriminate].
        change ([(now calls, index)] ++ outer = deeper ++ [(time, j)] ++ outer) in E.
        rewrite app_assoc in E. apply app_inv_tail in E.
        apply (app_inj_tail []) in E as [_ [= _ ->]]. lia.
    + intros x H1 H2.
      destruct (Hfc _ H1) as (d1 & t1 & j1 & E1 & _).
      destruct (Hfr _ H2) as (d2 & t2 & j2 & E2 & Hj).
      rewrite E1 in E2. apply idAlong_inj in E2;
        [|destruct d1; discriminate | destruct d2; discriminate].
      change (d1 ++ [(t1, j1)] ++ [(now calls, index)] ++ outer
              = d2 ++ [(t2, j2)] ++ outer) in E2.
      rewrite !app_assoc in E2. apply app_inv_tail in E2.
      apply app_inj_tail in E2 as [_ [= _ ->]]. lia.
  - intros x [<-|H]; [exists [], (now calls), index; split; [exact Hid | lia]|].
    apply in_app_iff in H as [H|H].
    + destruct (Hfc _ H) as (deeper & time & j & -> & _).
      exists (deeper ++ [(time, j)]), (now calls), index.
      rewrite <- app_assoc. split; [reflexivity | lia].
    + destruct (Hfr _ H) as (deeper & time & j & -> & Hj).
      exists deeper, time, j. split; [reflexivity | lia].
Qed.

(** X24.  The ids assigned to a structure that came without any are pairwise
    distinct, whatever the clock returns, also when it returns the same
    time at every call. *)
Theorem assignIdsRecursively_distinct_ids (nodes : list HTANode) (calls : nat) :
  (forall node, In node (preorder nodes) -> id node = "") ->
  uniqueIds (fst (AIService.assignIdsRecursively now nodes prefix calls)).
Proof.
  intros Hnone. exact (proj1 (assignIds_loop_distinct nodes [] 0%nat calls Hnone)).
Qed.

End AssignIdsDistinct.


(** ** What makes a forest valid *)

Lemma preorder_root nodes node : In node nodes -> In node (preorder nodes).
Proof.
  unfold preorder. intros H. apply in_flat_map. exists node. split; [exact H | left; reflexivity].
Qed.

Lemma preorder_child nodes :
  forall node child,
    In node (preorder nodes) -> In child (children node) -> In child (preorder nodes).
Proof.
  induction nodes as [|n rest IHc IHr] using forest_ind; intros node child Hn Hc;
    [destruct Hn|].
  rewrite preorder_cons in *. destruct Hn as [<-|Hn].
  - right. apply in_or_app. left. apply preorder_root, Hc.
  - right. apply in_or_app. apply in_app_or in Hn as [Hn|Hn]; eauto.
Qed.

Lemma isValid_issuesByPass structure logger :
  isValid (fst (validateHTA structure logger)) = true
  <-> forall i, In i (issuesByPass structure) -> Issue.type i <> error.
Proof.
  unfold validateHTA, conclude. cbn [fst isValid]. rewrite runChecks_issuesByPass.
  rewrite filter_length_zero. split; intros H i Hi; apply isError_false_iff; auto.
Qed.

Lemma error_codes structure i :
  In i (issuesByPass structure) -> Issue.type i = error ->
  In (Issue.code i)
    ["INVALID_NODE_TYPE"; "INVALID_HIERARCHY"; "MISSING_ID"; "MISSING_TITLE";
     "INVALID_PRIORITY"; "INVALID_DEPENDENCY"; "CIRCULAR_DEPENDENCY"; "NEGATIVE_ESTIMATE"].
Proof.
  intros Hin Ht.
  destruct (issuesByPass_blocks structure i Hin)
    as [[_ H]|[[_ H]|[[_ H]|[[_ H]|[[_ H]|[_ H]]]]]];
    unfold listed, signature in H; simpl in H; rewrite Ht in H;
    repeat (destruct H as [H|H];
            [first [discriminate H | injection H as <-; simpl; tauto]|]);
    destruct H.
Qed.

Lemma valid_criterion (structure : list HTANode) (logger : Logger) :
  isValid (fst (validateHTA structure logger)) = true
  <-> wellRanked structure
      /\ forall node, In node (preorder structure) ->
           blank (id node) = false
           /\ blank (title node) = false
           /\ In (priority node) ["low"; "medium"; "high"; "critical"]
           /\ (forall hours, estimatedHours node = Some hours -> (0 <= hours)%Q)
           /\ (forall depId, In depId (dependencies node) ->
                 exists other, In other (preorder structure) /\ id other = depId)
           /\ (dependencies node <> [] -> ~ revisits structure ∅ node).
Proof.
  rewrite isValid_issuesByPass. split.
  - intros Hno.
    assert (forall x, In x (issuesByPass structure) -> Issue.type x = error -> False)
      as Hno' by (intros x Hx Ht; exact (Hno x Hx Ht)).
    assert (forall c, In c ["MISSING_ID"; "MISSING_TITLE"; "INVALID_PRIORITY"] ->
                      reports c (issuesByPass structure) = false) as Hfield.
    { intros c Hc. destruct (reports c (issuesByPass structure)) eqn:E; [|reflexivity].
      apply reports_In in E as (x & Hx & Hcode).
      destruct (Hno' x Hx (field_error_is_error structure c x Hc Hx Hcode)). }
    assert (forall node, In node (preorder structure) -> knownRank node = true) as Hknown.
    { intros node Hn. destruct (knownRank node) eqn:Hk; [reflexivity|].
      destruct (Hno' (invalidNodeTypeIssue node)); [|reflexivity].
      apply invalid_node_type_iff. eauto. }
    split.
    + intros node Hn. split; [exact (Hknown node Hn)|].
      intros child Hc.
      destruct (Z.lt_ge_cases (rankIndex node) (rankIndex child)) as [Hlt|Hge];
        [exact Hlt|].
      destruct (Hno' (invalidHierarchyIssue node child)); [|reflexivity].
      apply invalid_hierarchy_iff. exists node, child.
      pose proof (preorder_child structure node child Hn Hc) as Hchild.
      repeat apply conj; auto.
    + intros node Hn. repeat apply conj.
      * destruct (blank (id node)) eqn:E; [|reflexivity].
        rewrite <- (Hfield "MISSING_ID") by (simpl; auto). symmetry.
        apply field_error_reported; [simpl; auto|]. exists node. split; [exact Hn|].
        rewrite (proj1 (validateNodeProperties_node_errors node)). exact E.
      * destruct (blank (title node)) eqn:E; [|reflexivity].
        rewrite <- (Hfield "MISSING_TITLE") by (simpl; auto). symmetry.
        apply field_error_reported; [simpl; auto|]. exists node. split; [exact Hn|].
        rewrite (proj1 (proj2 (validateNodeProperties_node_errors node))). exact E.
      * destruct (includes validPriorities (priority node)) eqn:E.
        -- unfold includes in E. apply existsb_exists in E as (p & Hp & Heq).
           apply String.eqb_eq in Heq. subst p. exact Hp.
        -- exfalso. apply (eq_true_false_abs (reports "INVALID_PRIORITY" (issuesByPass structure)));
             [|apply Hfield; simpl; auto].
           apply field_error_reported; [simpl; auto|]. exists node. split; [exact Hn|].
           rewrite (proj2 (proj2 (validateNodeProperties_node_errors node))), E. reflexivity.
      * intros hours Hh. destruct (Qlt_le_dec hours 0) as [Hneg|Hle]; [|exact Hle].
        destruct (Hno' (negativeEstimateIssue node)); [|reflexivity].
        apply negative_estimate_iff. eauto 10.
      * intros depId Hd.
        destruct (decide (depId ∈ collectNodeIds structure)) as [Hyes|Hnot];
          [apply collectNodeIds_spec, Hyes|].
        destruct (Hno' (invalidDependencyIssue node depId)); [|reflexivity].
        apply invalid_dependency_iff. exists node, depId. repeat apply conj; auto.
        intros other Ho E. apply Hnot, collectNodeIds_spec. eauto.
      * intros Hd Hrev.
        destruct (Hno' (circularDependencyIssue node)); [|reflexivity].
        apply circular_dependency_iff. eauto 10.
  - intros [Hwr Hnodes] i Hin Ht.
    pose proof (error_codes structure i Hin Ht) as Hcode. simpl in Hcode.
    destruct Hcode as [Hc|[Hc|[Hc|[Hc|[Hc|[Hc|[Hc|[Hc|[]]]]]]]]]; symmetry in Hc.
    + destruct (proj1 (invalid_node_type_iff structure i) (conj Hin Hc))
        as (node & Hn & Hk & _).
      destruct (Hwr node Hn) as [Hk' _]. congruence.
    + destruct (proj1 (invalid_hierarchy_iff structure i) (conj Hin Hc))
        as (parent & child & Hp & Hch & _ & _ & Hle & _).
      destruct (Hwr parent Hp) as [_ Hlt]. specialize (Hlt child Hch). lia.
    + assert (reports "MISSING_ID" (issuesByPass structure) = true) as Hr
        by (apply reports_In; eauto).
      apply field_error_reported in Hr as (node & Hn & Hr); [|simpl; auto].
      rewrite (proj1 (validateNodeProperties_node_errors node)) in Hr.
      destruct (Hnodes node Hn) as (H & _). congruence.
    + assert (reports "MISSING_TITLE" (issuesByPass structure) = true) as Hr
        by (apply reports_In; eauto).
      apply field_error_reported in Hr as (node & Hn & Hr); [|simpl; auto].
      rewrite (proj1 (proj2 (validateNodeProperties_node_errors node))) in Hr.
      destruct (Hnodes node Hn) as (_ & H & _). congruence.
    + assert (reports "INVALID_PRIORITY" (issuesByPass structure) = true) as Hr
        by (apply reports_In; eauto).
      apply field_error_reported in Hr as (node & Hn & Hr); [|simpl; auto].
      rewrite (proj2 (proj2 (validateNodeProperties_node_errors node))) in Hr.
      destruct (Hnodes node Hn) as (_ & _ & H & _).
      apply negb_true_iff, not_true_iff_false in Hr. apply Hr.
      unfold includes. apply existsb_exists. exists (priority node).
      split; [exact H | apply String.eqb_refl].
    + destruct (proj1 (invalid_dependency_iff structure i) (conj Hin Hc))
        as (node & depId & Hn & Hd & Hnone & _).
      destruct (Hnodes node Hn) as (_ & _ & _ & _ & H & _).
      destruct (H depId Hd) as (other & Ho & E). exact (Hnone other Ho E).
    + destruct (proj1 (circular_dependency_iff structure i) (conj Hin Hc))
        as (node & Hn & Hd & Hrev & _).
      destruct (Hnodes node Hn) as (_ & _ & _ & _ & _ & H). exact (H Hd Hrev).
    + destruct (proj1 (negative_estimate_iff structure i) (conj Hin Hc))
        as (node & hours & Hn & Hh & Hneg & _).
      destruct (Hnodes node Hn) as (_ & _ & _ & H & _).
      specialize (H hours Hh). apply (Qlt_not_le _ _ Hneg H).
Qed.

(** X25.  The criterion of validity.  [validateHTA] calls a forest valid
    exactly when it is well ranked and every node has an id and a title
    that are not blank, one of the four priorities, no negative estimate,
    only dependencies on ids that some node bears, and no way back to
    itself along its dependencies.  Depth, breadth, estimates that are
    missing or large, descriptions and the size of the project take no
    part. *)
Theorem validateHTA_valid_iff (structure : list HTANode) (logger : Logger) :
  isValid (fst (validateHTA structure logger)) = true
  <-> wellRanked structure
      /\ forall node, In node (preorder structure) ->
           blank (id node) = false
           /\ blank (title node) = false
           /\ In (priority node) ["low"; "medium"; "high"; "critical"]
           /\ (forall hours, estimatedHours node = Some hours -> (0 <= hours)%Q)
           /\ (forall depId, In depId (dependencies node) ->
                 exists other, In other (preorder structure) /\ id other = depId)
           /\ (dependencies node <> [] -> ~ revisits structure ∅ node).
Proof. apply valid_criterion. Qed.


(** ** [TemplateService.cleanStructureForTemplate] *)

Lemma wellRanked_eraseLinks nodes : wellRanked (map eraseLinks nodes) <-> wellRanked nodes.
Proof.
  unfold wellRanked. rewrite preorder_eraseLinks.
  assert (forall node, knownRank (eraseLinks node) = knownRank node
                       /\ rankIndex (eraseLinks node) = rankIndex node) as Hsame
    by (intros []; split; reflexivity).
  split; intros H node Hn.
  - destruct (H (eraseLinks node) (in_map _ _ _ Hn)) as [Hk Hc].
    rewrite (proj1 (Hsame node)) in Hk. split; [exact Hk|].
    intros child Hch. specialize (Hc (eraseLinks child)).
    rewrite children_eraseLinks, !(proj2 (Hsame _)) in Hc.
    apply Hc, in_map, Hch.
  - apply in_map_iff in Hn as (before & <- & Hb). destruct (H before Hb) as [Hk Hc].
    rewrite (proj1 (Hsame before)), (proj2 (Hsame before)). split; [exact Hk|].
    intros child Hch. rewrite children_eraseLinks in Hch.
    apply in_map_iff in Hch as (c & <- & Hch). rewrite (proj2 (Hsame c)). auto.
Qed.

Lemma preorder_same_content (P : HTANode -> Prop) a b :
  (forall node, P (eraseLinks node) <-> P node) ->
  map eraseLinks a = map eraseLinks b ->
  (forall node, In node (preorder a) -> P node)
  <-> (forall node, In node (preorder b) -> P node).
Proof.
  intros HP E.
  assert (forall l, (forall node, In node (preorder l) -> P node)
                    <-> (forall node, In node (preorder (map eraseLinks l)) -> P node)) as H.
  { intros l. rewrite preorder_eraseLinks. split; intros H node Hn.
    - apply in_map_iff in Hn as (before & <- & Hb). apply HP, H, Hb.
    - apply HP, H, in_map, Hn. }
  rewrite (H a), (H b), E. reflexivity.
Qed.

Lemma combine_app_same {A B} (a b : list A) (c d : list B) :
  length a = length c -> combine (a ++ b) (c ++ d) = combine a c ++ combine b d.
Proof.
  revert c. induction a as [|x a IH]; intros [|y c] H; try discriminate H; [reflexivity|].
  simpl. rewrite IH; [reflexivity | injection H as H; exact H].
Qed.

Section CleanFacts.
Variable suffix : nat -> string.

Let clean := TemplateService.cleanStructureForTemplate suffix.

Lemma clean_loop_acc nodes :
  forall cleaned calls,
    forEach (TemplateService.clean_visit suffix (TemplateService.clean_children suffix))
      nodes (cleaned, calls)
    = (cleaned ++ fst (clean nodes calls), snd (clean nodes calls)).
Proof.
  unfold clean, TemplateService.cleanStructureForTemplate, TemplateService.clean_with, forEach.
  induction nodes as [|node rest IH]; intros cleaned calls.
  - simpl. rewrite app_nil_r. reflexivity.
  - cbn [fold_left]. unfold TemplateService.clean_visit at 2 4 6.
    unfold TemplateService.generateTemplateNodeId.
    destruct (TemplateService.clean_children suffix node (S calls)) as [nodes' calls'].
    rewrite IH. symmetry. rewrite IH. cbn [fst snd app].
    rewrite <- app_assoc. reflexivity.
Qed.

Lemma clean_cons node rest calls :
  let nodeId := "template-" +:+ type node +:+ "-" +:+ suffix calls in
  let below := clean (children node) (S calls) in
  clean (node :: rest) calls
  = (mkHTANode nodeId (type node) (title node) (description node) (priority node)
       (estimatedHours node) [] (fst below)
       :: fst (clean rest (snd below)),
     snd (clean rest (snd below))).
Proof.
  cbv zeta. unfold clean at 1.
  unfold TemplateService.cleanStructureForTemplate, TemplateService.clean_with.
  unfold forEach at 1. cbn [fold_left].
  unfold TemplateService.clean_visit at 2.
  unfold TemplateService.generateTemplateNodeId.
  assert (TemplateService.clean_children suffix node (S calls)
          = clean (children node) (S calls)) as -> by (destruct node; reflexivity).
  destruct (clean (children node) (S calls)) as [nodes' calls'].
  change (fold_left _ rest ?s)
    with (forEach (TemplateService.clean_visit suffix
                     (TemplateService.clean_children suffix)) rest s).
  rewrite clean_loop_acc. reflexivity.
Qed.

Lemma clean_erase nodes :
  forall calls, map eraseLinks (fst (clean nodes calls)) = map eraseLinks nodes.
Proof.
  induction nodes as [|n rest IHc IHr] using forest_ind; intros calls; [reflexivity|].
  rewrite clean_cons. cbv zeta. cbn [fst map]. rewrite IHr. f_equal.
  destruct n as [i ty t d p e deps ch]. cbn in *. f_equal. apply IHc.
Qed.

Lemma clean_calls nodes :
  forall calls, snd (clean nodes calls) = (calls + length (preorder nodes))%nat.
Proof.
  induction nodes as [|n rest IHc IHr] using forest_ind; intros calls; [simpl; lia|].
  rewrite clean_cons. cbv zeta. cbn [snd].
  rewrite IHr, IHc, preorder_cons. cbn [length]. rewrite length_app. lia.
Qed.

Lemma clean_ids nodes :
  forall calls,
    map id (preorder (fst (clean nodes calls)))
    = map (fun at_ => "template-" +:+ type (fst at_) +:+ "-" +:+ suffix (snd at_))
        (combine (preorder nodes) (seq calls (length (preorder nodes)))).
Proof.
  induction nodes as [|n rest IHc IHr] using forest_ind; intros calls; [reflexivity|].
  rewrite clean_cons. cbv zeta. cbn [fst].
  rewrite !preorder_cons. cbn [children map id length seq combine fst snd].
  f_equal. rewrite map_app, IHc, IHr, clean_calls.
  rewrite length_app, seq_app, combine_app_same, map_app;
    [reflexivity | rewrite length_seq; reflexivity].
Qed.

Lemma clean_dependencies nodes :
  forall calls node, In node (preorder (fst (clean nodes calls))) -> dependencies node = [].
Proof.
  induction nodes as [|n rest IHc IHr] using forest_ind; intros calls node; [intros []|].
  rewrite clean_cons. cbv zeta. cbn [fst].
  rewrite preorder_cons. cbn [children]. intros [<-|H]; [reflexivity|].
  apply in_app_or in H as [H|H]; eauto.
Qed.

End CleanFacts.


Section CleanTheorems.
Variable suffix : nat -> string.

(** X26.  What cleaning a structure for a template does: every node gets a
    new id, [template-], its type and the text of the clock and the random
    generator, one call for each node in pre-order; every list of
    dependencies is emptied; and type, title, description, priority,
    estimate and the nesting of the nodes stay as they were. *)
Theorem cleanStructureForTemplate_content (nodes : list HTANode) (calls : nat) :
  let cleaned := fst (TemplateService.cleanStructureForTemplate suffix nodes calls) in
  map eraseLinks cleaned = map eraseLinks nodes
  /\ (forall node, In node (preorder cleaned) -> dependencies node = [])
  /\ map id (preorder cleaned)
     = map (fun at_ => "template-" +:+ type (fst at_) +:+ "-" +:+ suffix (snd at_))
         (combine (preorder nodes) (seq calls (length (preorder nodes))))
  /\ snd (TemplateService.cleanStructureForTemplate suffix nodes calls)
     = (calls + length (preorder nodes))%nat.
Proof.
  cbv zeta. split; [apply clean_erase|]. split; [apply clean_dependencies|].
  split; [apply clean_ids | apply clean_calls].
Qed.

(** X27.  The two node counts that [createTemplateFromStructure] stores with
    a template are always the same number, the number of nodes of the
    structure it was given; and the metrics that the validator computes for
    the template's structure are those of that structure. *)
Theorem createTemplateFromStructure_counts {Info : Type}
    (nodes : list HTANode) (given : Info) (calls : nat) :
  let draft := fst (TemplateService.createTemplateFromStructure suffix nodes given calls) in
  TemplateService.originalNodeCount (TemplateService.metadata draft)
  = TemplateService.templateNodeCount (TemplateService.metadata draft)
  /\ TemplateService.templateNodeCount (TemplateService.metadata draft)
     = length (preorder nodes)
  /\ calculateMetrics (TemplateService.structure draft) = calculateMetrics nodes.
Proof.
  cbv zeta. unfold TemplateService.createTemplateFromStructure.
  pose proof (clean_erase suffix nodes calls) as He.
  destruct (TemplateService.cleanStructureForTemplate suffix nodes calls)
    as [cleaned calls'].
  cbn [fst] in *.
  cbn [TemplateService.metadata TemplateService.structure
       TemplateService.originalNodeCount TemplateService.templateNodeCount].
  assert (countNodes cleaned = countNodes nodes) as Hc.
  { rewrite !countNodes_preorder.
    rewrite <- (length_map eraseLinks (preorder cleaned)), <- preorder_eraseLinks, He.
    rewrite preorder_eraseLinks. apply length_map. }
  rewrite Hc. split; [reflexivity|]. split; [apply countNodes_preorder|].
  apply calculateMetrics_same_content, He.
Qed.

(** X28.  Validating a template's structure.  The cleaned structure is valid
    exactly when the structure it was made from is well ranked and has no
    blank title, no unknown priority and no negative estimate: ids and
    dependencies of the original play no part.  So the template of a valid
    structure is valid. *)
Theorem validateHTA_cleaned_structure (nodes : list HTANode) (calls : nat)
    (logger : Logger) :
  let cleaned := fst (TemplateService.cleanStructureForTemplate suffix nodes calls) in
  (isValid (fst (validateHTA cleaned logger)) = true
   <-> wellRanked nodes
       /\ forall node, In node (preorder nodes) ->
            blank (title node) = false
            /\ In (priority node) ["low"; "medium"; "high"; "critical"]
            /\ (forall hours, estimatedHours node = Some hours -> (0 <= hours)%Q))
  /\ (isValid (fst (validateHTA nodes logger)) = true
      -> isValid (fst (validateHTA cleaned logger)) = true).
Proof.
  cbv zeta.
  set (cleaned := fst (TemplateService.cleanStructureForTemplate suffix nodes calls)).
  set (fields := fun node : HTANode =>
         blank (title node) = false
         /\ In (priority node) ["low"; "medium"; "high"; "critical"]
         /\ (forall hours, estimatedHours node = Some hours -> (0 <= hours)%Q)).
  pose proof (clean_erase suffix nodes calls) as He. fold cleaned in He.
  assert (wellRanked cleaned <-> wellRanked nodes) as Hwr.
  { rewrite <- (wellRanked_eraseLinks cleaned), He. apply wellRanked_eraseLinks. }
  assert ((forall node, In node (preorder cleaned) -> fields node)
          <-> (forall node, In node (preorder nodes) -> fields node)) as Hf.
  { apply preorder_same_content; [|exact He]. intros []. reflexivity. }
  assert (isValid (fst (validateHTA cleaned logger)) = true
          <-> wellRanked nodes /\ forall node, In node (preorder nodes) -> fields node) as Hiff.
  { rewrite valid_criterion, Hwr, <- Hf. split; intros [H1 H2]; (split; [exact H1|]).
    - intros node Hn. destruct (H2 node Hn) as (_ & Ht & Hp & Hh & _).
      repeat apply conj; auto.
    - intros node Hn. destruct (H2 node Hn) as (Ht & Hp & Hh).
      pose proof (clean_dependencies suffix nodes calls node Hn) as Hd.
      repeat apply conj; auto.
      + apply inked_not_blank.
        pose proof (in_map id _ _ Hn) as Hid. unfold cleaned in Hid.
        rewrite clean_ids in Hid. apply in_map_iff in Hid as (at_ & <- & _). reflexivity.
      + rewrite Hd. intros depId []. }
  split; [exact Hiff|].
  intros Hv. apply Hiff. apply valid_criterion in Hv as [H1 H2]. split; [exact H1|].
  intros node Hn. destruct (H2 node Hn) as (_ & Ht & Hp & Hh & _).
  repeat apply conj; auto.
Qed.

End CleanTheorems.


(** ** Queries of [TemplateService] and their parameters *)

Section QueryFacts.
Import TemplateService.

(** The placeholders of the clauses are those of the parameters pushed so
    far, and [paramIndex] is the number of the next one. *)
Let numbered (s : Building) : Prop :=
  paramIndex s = S (length (queryParams s))
  /\ forall k, (exists clause, In clause (clauses s) /\ mentions clause k)
               <-> (1 <= k <= length (queryParams s))%nat.

Lemma numbered_start : numbered (mkBuilding [] [] 1).
Proof.
  split; [reflexivity|]. intros k. simpl. split; [intros (c & [] & _) | lia].
Qed.

Lemma numbered_bind clause value s :
  (forall index k, mentions (clause index) k <-> k = index) ->
  numbered s -> numbered (bind clause value s).
Proof.
  intros Hc [Hi Hm]. unfold bind. split; cbn [paramIndex queryParams clauses].
  - rewrite length_app. simpl. lia.
  - intros k. rewrite length_app. cbn [length]. split.
    + intros (c & Hin & Hk). apply in_app_or in Hin as [Hin|[<-|[]]].
      * assert (1 <= k <= length (queryParams s))%nat by (apply Hm; eauto). lia.
      * apply Hc in Hk. lia.
    + intros Hk. destruct (Nat.eq_dec k (paramIndex s)) as [->|Hne].
      * exists (clause (paramIndex s)). split; [apply in_or_app; right; left; reflexivity|].
        apply Hc. reflexivity.
      * destruct (proj2 (Hm k)) as (c & Hin & Hc'); [lia|].
        exists c. split; [apply in_or_app; left; exact Hin | exact Hc'].
Qed.

Lemma join_mentions sep parts k :
  mentions (join sep parts) k <-> exists clause, In clause parts /\ mentions clause k.
Proof.
  unfold mentions. destruct parts as [|first rest]; simpl.
  - split; [intros [] | intros (c & [] & _)].
  - rewrite in_app_iff, in_flat_map. split.
    + intros [H|(c & Hc & [H|H])]; [eauto | discriminate H | eauto].
    + intros (c & [<-|Hc] & H); [left; exact H | right; exists c; simpl; auto].
Qed.

Ltac one_placeholder :=
  intros index k; unfold mentions; simpl; split;
  [intros H; repeat (destruct H as [H|H]; [first [discriminate H | congruence]|]); destruct H
  |intros ->; tauto].

Lemma numbered_whenString field clause value s :
  (forall index k, mentions (clause index) k <-> k = index) ->
  numbered s -> numbered (Search.whenString field clause value s).
Proof.
  intros Hc Hs. unfold Search.whenString.
  destruct (Search.truthyString field); [apply numbered_bind; assumption | exact Hs].
Qed.

Lemma numbered_conditions filters : numbered (Search.conditions filters).
Proof.
  unfold Search.conditions. cbv zeta.
  apply numbered_whenString; [one_placeholder|].
  match goal with
  | |- numbered (match ?t with _ => _ end) =>
      destruct t as [[|tag others]|]
  end.
  2: apply numbered_bind; [one_placeholder|].
  all: repeat (apply numbered_whenString; [one_placeholder|]).
  all: (apply numbered_bind; [|apply numbered_start]).
  all: intros index k; unfold Search.tenantCondition, mentions;
    destruct (Search.includePublic filters) as [[|]|]; simpl;
    (split; [intros H; repeat (destruct H as [H|H]; [first [discriminate H | congruence]|]);
                       destruct H
            |intros ->; tauto]).
Qed.

Lemma conditions_first filters :
  exists clauses' params',
    clauses (Search.conditions filters) = Search.tenantCondition filters 1 :: clauses'
    /\ queryParams (Search.conditions filters) = Str (Search.tenantId filters) :: params'.
Proof.
  unfold Search.conditions, Search.whenString. cbv zeta.
  repeat match goal with
         | |- context [match ?t with _ => _ end] => destruct t
         end;
    cbn [bind clauses queryParams app]; eauto.
Qed.

(** X29.  The queries of [searchTemplates].  In the count query and in the
    main query the placeholders are exactly the numbers of the parameters
    passed with it; the first condition restricts the rows to the tenant,
    or to the tenant and the public templates, and its parameter is the
    tenant's id, whatever the other filters are; and [LIMIT] and [OFFSET]
    are bound to the two parameters added last, [limit] by default 20 and
    [offset] by default 0. *)
Theorem searchTemplates_parameters (filters : Search.Filters) :
  let queries := Search.searchTemplates filters in
  (forall k, mentions (Search.countQuery queries) k
             <-> (1 <= k <= length (Search.countParams queries))%nat)
  /\ (forall k, mentions (Search.mainQuery queries) k
                <-> (1 <= k <= length (Search.mainParams queries))%nat)
  /\ (exists select others rest,
        Search.countQuery queries
        = Text select :: Text "WHERE " :: Search.tenantCondition filters 1 ++ rest
        /\ Search.countParams queries = Str (Search.tenantId filters) :: others)
  /\ (exists before closing,
        Search.mainQuery queries
        = before ++ [Placeholder (length (Search.countParams queries) + 1);
                     Text " OFFSET ";
                     Placeholder (length (Search.countParams queries) + 2);
                     Text closing]
        /\ Search.mainParams queries
           = Search.countParams queries
             ++ [Number (Search.orDefault (Search.limit filters) (ofZ 20));
                 Number (Search.orDefault (Search.offset filters) (ofZ 0))]).
Proof.
  cbv zeta. unfold Search.searchTemplates. cbv zeta.
  cbn [Search.countQuery Search.countParams Search.mainQuery Search.mainParams].
  destruct (numbered_conditions filters) as [Hi Hm].
  destruct (conditions_first filters) as (clauses' & params' & Hc & Hp).
  assert (forall k, mentions (Search.whereClause (Search.conditions filters)) k
                    <-> (1 <= k <= length (queryParams (Search.conditions filters)))%nat)
    as Hw.
  { intros k. unfold Search.whereClause. rewrite <- Hm, Hc. cbn [length Nat.ltb Nat.leb].
    rewrite <- join_mentions. unfold mentions. simpl.
    split; [intros [H|H]; [discriminate H | exact H] | auto]. }
  split; [|split; [|split]].
  - intros k. rewrite <- Hw. unfold mentions. rewrite !in_app_iff. simpl.
    split; [intros [[H|[]]|[H|[H|[]]]]; try discriminate H; exact H | auto].
  - intros k. rewrite length_app. cbn [length]. rewrite Hi. unfold mentions.
    rewrite !in_app_iff. fold (mentions (Search.whereClause (Search.conditions filters)) k).
    rewrite Hw. simpl. split.
    + intros [[H|[]]|[H|[H|[H|[H|[H|[H|[]]]]]]]]; try discriminate H;
        try (injection H as <-); lia.
    + intros Hk.
      destruct (Nat.eq_dec k (S (length (queryParams (Search.conditions filters)))))
        as [->|H1]; [right; right; right; left; reflexivity|].
      destruct (Nat.eq_dec k (S (length (queryParams (Search.conditions filters))) + 1))
        as [->|H2]; [do 5 right; left; reflexivity|].
      right. left. lia.
  - unfold Search.whereClause. rewrite Hc, Hp. cbn [length Nat.ltb Nat.leb join app].
    eexists _, params', _. split; [|reflexivity].
    rewrite <- app_assoc. reflexivity.
  - rewrite Hi.
    eexists (_ :: Search.whereClause (Search.conditions filters) ++ [_]), _.
    split; [|reflexivity].
    cbn [app]. rewrite <- app_assoc. cbn [app].
    replace (length (queryParams (Search.conditions filters)) + 1)%nat
      with (S (length (queryParams (Search.conditions filters)))) by lia.
    replace (length (queryParams (Search.conditions filters)) + 2)%nat
      with (S (length (queryParams (Search.conditions filters))) + 1)%nat by lia.
    reflexivity.
Qed.

End QueryFacts.


Section UpdateFacts.
Import TemplateService.
Variable Metadata : Type.
Variable stringifyStructure : list HTANode -> string.
Variable stringifyMetadata : Metadata -> string.

Let numbered (s : Building) : Prop :=
  paramIndex s = S (length (queryParams s))
  /\ forall k, (exists clause, In clause (clauses s) /\ mentions clause k)
               <-> (1 <= k <= length (queryParams s))%nat.

Lemma numbered_whenDefined {A} (field : option A) column value s :
  numbered s -> numbered (Update.whenDefined field column value s).
Proof.
  intros Hs. unfold Update.whenDefined. destruct field; [|exact Hs].
  apply numbered_bind; [|exact Hs].
  intros index k. unfold mentions. simpl. split.
  - intros [H|[H|[]]]; [discriminate H | congruence].
  - intros ->. tauto.
Qed.

Lemma numbered_setClauses updates :
  numbered (Update.setClauses Metadata stringifyStructure stringifyMetadata updates).
Proof.
  unfold Update.setClauses. cbv zeta.
  repeat apply numbered_whenDefined. apply numbered_start.
Qed.

Lemma whenDefined_clauses {A} (field : option A) column value s :
  length (clauses (Update.whenDefined field column value s))
  = (length (clauses s) + match field with Some _ => 1 | None => 0 end)%nat.
Proof.
  unfold Update.whenDefined. destruct field; cbn [bind clauses]; [|lia].
  rewrite length_app. reflexivity.
Qed.

(** X30.  The statement of [updateTemplate].  The function throws
    [No updates provided] exactly when none of the nine properties it reads
    is defined.  Otherwise the placeholders of the statement are exactly
    the numbers of the parameters passed with it, and its [WHERE] clause
    compares [id] and [tenant_id] with the two parameters added last, the
    id and the tenant given by the caller, after the time stamp. *)
Theorem updateTemplate_statement (id : string) (updates : Update.Updates Metadata)
    (tenantId timestamp : string) :
  let prepared :=
    Update.updateTemplate Metadata stringifyStructure stringifyMetadata
      id updates tenantId timestamp in
  (prepared = Update.NoUpdatesProvided
   <-> Update.name updates = None /\ Update.description updates = None
       /\ Update.category updates = None /\ Update.industry updates = None
       /\ Update.complexity updates = None /\ Update.structure updates = None
       /\ Update.tags updates = None /\ Update.isPublic updates = None
       /\ Update.metadata updates = None)
  /\ forall text params, prepared = Update.Statement text params ->
       (forall k, mentions text k <-> (1 <= k <= length params)%nat)
       /\ exists before set closing,
            text = before ++ [Placeholder (length set + 2); Text " AND tenant_id = ";
                              Placeholder (length set + 3); Text closing]
            /\ params = set ++ [Str timestamp; Str id; Str tenantId].
Proof.
  cbv zeta. unfold Update.updateTemplate. cbv zeta.
  set (s := Update.setClauses Metadata stringifyStructure stringifyMetadata updates).
  pose proof (numbered_setClauses updates) as Hs. fold s in Hs.
  assert (length (clauses s)
          = ((match Update.name updates with Some _ => 1 | None => 0 end)
             + (match Update.description updates with Some _ => 1 | None => 0 end)
             + (match Update.category updates with Some _ => 1 | None => 0 end)
             + (match Update.industry updates with Some _ => 1 | None => 0 end)
             + (match Update.complexity updates with Some _ => 1 | None => 0 end)
             + (match Update.structure updates with Some _ => 1 | None => 0 end)
             + (match Update.tags updates with Some _ => 1 | None => 0 end)
             + (match Update.isPublic updates with Some _ => 1 | None => 0 end)
             + (match Update.metadata updates with Some _ => 1 | None => 0 end))%nat) as Hlen.
  { unfold s, Update.setClauses. cbv zeta. rewrite !whenDefined_clauses. simpl. lia. }
  split.
  - destruct (length (clauses s) =? 0)%nat eqn:E.
    + apply Nat.eqb_eq in E. rewrite E in Hlen. split; [intros _|reflexivity].
      destruct (Update.name updates), (Update.description updates),
        (Update.category updates), (Update.industry updates),
        (Update.complexity updates), (Update.structure updates),
        (Update.tags updates), (Update.isPublic updates), (Update.metadata updates);
        try (exfalso; simpl in Hlen; lia).
      repeat apply conj; reflexivity.
    + apply Nat.eqb_neq in E. split; [discriminate|].
      intros (H1 & H2 & H3 & H4 & H5 & H6 & H7 & H8 & H9).
      rewrite H1, H2, H3, H4, H5, H6, H7, H8, H9 in Hlen. simpl in Hlen. lia.
  - intros text params. destruct (length (clauses s) =? 0)%nat; [discriminate|].
    set (s' := bind (fun index => [Text "updated_at = "; Placeholder index])
                 (Str timestamp) s).
    clearbody s.
    intros H. injection H as Ht Hp. subst text params.
    assert (numbered s') as [Hi Hm].
    { apply numbered_bind; [|exact Hs]. intros index k. unfold mentions. simpl. split.
      - intros [H|[H|[]]]; [discriminate H | congruence].
      - intros ->. tauto. }
    assert (queryParams s' = queryParams s ++ [Str timestamp]) as Hq by reflexivity.
    change (clauses s ++ [[Text "updated_at = "; Placeholder (paramIndex s)]])
      with (clauses s').
    change (S (paramIndex s + 1)) with (paramIndex s' + 1)%nat.
    change (S (paramIndex s)) with (paramIndex s').
    change (queryParams s ++ [Str timestamp]) with (queryParams s').
    clearbody s'.
    split.
    + intros k. rewrite length_app. cbn [length]. rewrite Hi. unfold mentions.
      cbn [In]. rewrite in_app_iff. fold (mentions (join ", " (clauses s')) k).
      rewrite join_mentions, Hm. simpl. split.
      * intros [H|[H|[H|[H|[H|[H|[H|[]]]]]]]]; try discriminate H;
          try (injection H as <-); lia.
      * intros Hk.
        destruct (Nat.eq_dec k (S (length (queryParams s')))) as [->|H1];
          [right; right; right; left; reflexivity|].
        destruct (Nat.eq_dec k (S (length (queryParams s')) + 1)) as [->|H2];
          [do 5 right; left; reflexivity|].
        right. left. lia.
    + rewrite Hi, Hq.
      eexists (_ :: join ", " (clauses s') ++ [_]), (queryParams s), _.
      split; [|rewrite <- app_assoc; reflexivity].
      cbn [app]. rewrite <- app_assoc. cbn [app]. rewrite length_app. cbn [length].
      replace (length (queryParams s) + 2)%nat
        with (S (length (queryParams s) + 1)) by lia.
      replace (length (queryParams s) + 3)%nat
        with (S (length (queryParams s) + 1) + 1)%nat by lia.
      reflexivity.
Qed.

End UpdateFacts.


(** ** The properties with a premise, on the sample forests *)

Lemma validateHTA_issue_catalogue_sample :
  In (invalidDependencyIssue taskA "ghost") (issues (fst (validateHTA sampleForest [])))
  /\ listed issueCatalogue (invalidDependencyIssue taskA "ghost")
  /\ Issue.code (invalidDependencyIssue taskA "ghost") <> "VALIDATION_ERROR"
  /\ Issue.type (invalidDependencyIssue taskA "ghost") <> suggestion.
Proof.
  assert (In (invalidDependencyIssue taskA "ghost")
            (issues (fst (validateHTA sampleForest [])))) as H.
  { vm_compute. repeat (first [left; reflexivity | right]). }
  split; [exact H|].
  exact (validateHTA_issue_catalogue sampleForest [] _ H).
Defined.

Lemma score_and_suggestions_order_independent_sample :
  Permutation [invalidDependencyIssue taskA "ghost"; circularDependencyIssue taskB]
    [circularDependencyIssue taskB; invalidDependencyIssue taskA "ghost"]
  /\ calculateScore [invalidDependencyIssue taskA "ghost"; circularDependencyIssue taskB]
       (calculateMetrics sampleForest)
     = calculateScore [circularDependencyIssue taskB; invalidDependencyIssue taskA "ghost"]
         (calculateMetrics sampleForest)
  /\ generateSuggestions
       [invalidDependencyIssue taskA "ghost"; circularDependencyIssue taskB]
       (calculateMetrics sampleForest)
     = generateSuggestions
         [circularDependencyIssue taskB; invalidDependencyIssue taskA "ghost"]
         (calculateMetrics sampleForest).
Proof.
  assert (Permutation
            [invalidDependencyIssue taskA "ghost"; circularDependencyIssue taskB]
            [circularDependencyIssue taskB; invalidDependencyIssue taskA "ghost"]) as H
    by apply perm_swap.
  split; [exact H|].
  exact (score_and_suggestions_order_independent _ _ (calculateMetrics sampleForest) H).
Defined.

Lemma calculateScore_monotone_sample :
  finite (completeness (calculateMetrics sampleForest))
  /\ finite (feasibility (calculateMetrics sampleForest))
  /\ exists a b,
       calculateScore [invalidDependencyIssue taskA "ghost"] (calculateMetrics sampleForest)
       = ofZ a
       /\ calculateScore
            ([invalidDependencyIssue taskA "ghost"] ++ [circularDependencyIssue taskB])
            (calculateMetrics sampleForest)
          = ofZ b
       /\ (0 <= b <= a)%Z /\ (a <= 100)%Z.
Proof.
  assert (finite (completeness (calculateMetrics sampleForest))) as H1
    by (eexists; vm_compute; reflexivity).
  assert (finite (feasibility (calculateMetrics sampleForest))) as H2
    by (eexists; vm_compute; reflexivity).
  split; [exact H1|]. split; [exact H2|].
  exact (calculateScore_monotone [invalidDependencyIssue taskA "ghost"]
           [circularDependencyIssue taskB] (calculateMetrics sampleForest) H1 H2).
Defined.

Lemma validateHTA_circular_upstream_sample :
  In taskA (preorder sampleForest)
  /\ (In (id taskA) (dependencies taskA)
      \/ exists target, dependsOn sampleForest taskA target
                        /\ revisits sampleForest ∅ target)
  /\ In (circularDependencyIssue taskA) (issues (fst (validateHTA sampleForest []))).
Proof.
  assert (In taskA (preorder sampleForest)) as H1 by (simpl; auto).
  assert (In (id taskA) (dependencies taskA)
          \/ exists target, dependsOn sampleForest taskA target
                            /\ revisits sampleForest ∅ target) as H2.
  { right. exists taskB. split.
    - exists "b". split; [simpl; auto | reflexivity].
    - apply hasCircularDependency_revisits. vm_compute. reflexivity. }
  split; [exact H1|]. split; [exact H2|].
  exact (validateHTA_circular_upstream sampleForest [] taskA H1 H2).
Defined.

Lemma hasCircularDependency_terminates_sample :
  (2 + countNodes sampleForest <= 6)%nat
  /\ exists answer,
       hasCircularDependency_fuel 6 taskA sampleForest ∅ = Some answer
       /\ answer = hasCircularDependency taskA sampleForest
       /\ (answer = true <-> revisits sampleForest ∅ taskA).
Proof.
  assert (2 + countNodes sampleForest <= 6)%nat as H by (vm_compute; lia).
  split; [exact H|].
  exact (hasCircularDependency_terminates sampleForest taskA 6 H).
Defined.

Lemma assignIdsRecursively_distinct_ids_sample :
  (forall node, In node (preorder parsedWithoutIds) -> id node = "")
  /\ uniqueIds
       (fst (AIService.assignIdsRecursively (fun _ => 42%nat) parsedWithoutIds
               AIService.defaultPrefix 0)).
Proof.
  assert (forall node, In node (preorder parsedWithoutIds) -> id node = "") as H.
  { intros node Hin. simpl in Hin. destruct Hin as [<-|[<-|[<-|[]]]]; reflexivity. }
  split; [exact H|].
  exact (assignIdsRecursively_distinct_ids (fun _ => 42%nat)
           AIService.defaultPrefix parsedWithoutIds 0 H).
Defined.
